(** * Staging of autotester workspaces: a model of [file_management.py]

    The development embeds the functions of
    [autotester/server/utils/file_management.py] over an explicit model of a
    POSIX directory tree and states the properties of traversal, copy, move,
    deletion, locking and permission stamping as theorems about them.

    Conventions of the embedding:
    - a path is the list of its components ([os.path.join root d] is
      [root ++ [d]], [os.path.relpath p start] drops the components of
      [start], [os.path.dirname] is [removelast]);
    - a directory is the ordered list of its entries; the order of the list
      is the order in which [os.scandir] reports them, and a new entry is
      reported last;
    - a Python exception is a value of [exn]; a function that may raise
      returns an [outcome] that keeps the file system reached when the
      exception was raised (nothing is rolled back);
    - the generator [recursive_iglob] is consumed lazily by its callers, so
      the model runs a loop body between two yields and re-reads the tree
      when [os.walk] descends; the recursion is bounded by a fuel argument
      and the theorems show which fuel is enough;
    - processes that run side by side take turns between two system calls:
      a with-block is also given as the steps of a process ([thread_step]),
      and these steps are shown to be those of [fd_open] and [fd_lock]. *)

From Stdlib Require Import List Ascii String ZArith Bool Arith Lia Permutation.
Import ListNotations.

Set Implicit Arguments.
Set Warnings "-register-all".

(** ** Paths *)

Definition path := list string.

Definition path_eq_dec : forall p q : path, {p = q} + {p <> q} :=
  list_eq_dec string_dec.

Definition path_eqb (p q : path) : bool :=
  if path_eq_dec p q then true else false.

Fixpoint is_prefix (p q : path) : bool :=
  match p, q with
  | [], _ => true
  | _ :: _, [] => false
  | a :: p', b :: q' => String.eqb a b && is_prefix p' q'
  end.

(** Two paths overlap when one of them lies inside (or is) the other. *)
Definition overlap (p q : path) : bool := is_prefix p q || is_prefix q p.

Definition basename (p : path) : string := last p EmptyString.
Definition dirname (p : path) : path := removelast p.
Definition relpath (p start : path) : path := skipn (List.length start) p.

(** [clean_dir_name(name)]: [name.replace('/', '_')]. *)
Fixpoint clean_dir_name (name : string) : string :=
  match name with
  | EmptyString => EmptyString
  | String c rest =>
      String (if Ascii.eqb c "/"%char then "_"%char else c)
        (clean_dir_name rest)
  end.

(** ** Exceptions and results *)

Inductive exn : Type :=
| ValueError
| FileNotFoundError
| FileExistsError
| NotADirectoryError
| IsADirectoryError
| SameFileError
| PermissionError
| DirectoryNotEmpty
| BadFileDescriptor
| ArchiveError.

Definition exn_eq_dec : forall a b : exn, {a = b} + {a <> b}.
Proof. decide equality. Defined.

(** Result of one system call: it either succeeds or fails atomically. *)
Inductive res (A : Type) : Type :=
| Ok (a : A)
| Err (e : exn).
Arguments Err {A} e.

(** Result of a computation over a state [S]: a value, a raised exception
    (with the state reached), or no result within the fuel given. *)
Inductive outcome (S A : Type) : Type :=
| Ret (a : A) (s : S)
| Exc (e : exn) (s : S)
| Timeout.
Arguments Ret {S A} a s.
Arguments Exc {S A} e s.
Arguments Timeout {S A}.

Definition M (S A : Type) : Type := S -> outcome S A.

Definition ret {S A} (a : A) : M S A := fun s => Ret a s.
Definition raise {S A} (e : exn) : M S A := fun s => Exc e s.
Definition bind {S A B} (m : M S A) (k : A -> M S B) : M S B :=
  fun s =>
    match m s with
    | Ret a s' => k a s'
    | Exc e s' => Exc e s'
    | Timeout => Timeout
    end.

Notation "x <- m ;; k" := (bind m (fun x => k))
  (at level 61, m at next level, right associativity).
Notation "m ;;; k" := (bind m (fun _ => k))
  (at level 61, right associativity).

(** A property of the state in which a computation stops, whether it
    returns or raises. *)
Definition stops_in {S A} (P : S -> Prop) (o : outcome S A) : Prop :=
  match o with
  | Ret _ s => P s
  | Exc _ s => P s
  | Timeout => True
  end.

(** A system call changes the state on success and leaves it on failure. *)
Definition syscall {S} (op : S -> res S) : M S unit :=
  fun s => match op s with Ok s' => Ret tt s' | Err e => Exc e s end.

(** [for x in xs: body x] with an accumulator. *)
Fixpoint for_each {S A X} (body : X -> A -> M S A) (xs : list X) (acc : A)
  : M S A :=
  match xs with
  | [] => ret acc
  | x :: xs' => acc' <- body x acc ;; for_each body xs' acc'
  end.

(** ** The directory tree *)

Inductive node : Type :=
| File (mode mtime : Z) (data : string)
| Dir (mode : Z) (entries : list (string * node)).

Fixpoint find_ent (c : string) (es : list (string * node)) : option node :=
  match es with
  | [] => None
  | (c', n) :: es' => if String.eqb c c' then Some n else find_ent c es'
  end.

(** Replace the entry named [c], or add it after the existing ones. *)
Fixpoint set_ent (c : string) (n : node) (es : list (string * node))
  : list (string * node) :=
  match es with
  | [] => [(c, n)]
  | (c', n') :: es' =>
      if String.eqb c c' then (c, n) :: es' else (c', n') :: set_ent c n es'
  end.

Fixpoint del_ent (c : string) (es : list (string * node))
  : list (string * node) :=
  match es with
  | [] => []
  | (c', n') :: es' =>
      if String.eqb c c' then es' else (c', n') :: del_ent c es'
  end.

(** Path resolution: [ENOENT] for a missing component, [ENOTDIR] when the
    path goes through a regular file. *)
Fixpoint resolve (fs : node) (p : path) : res node :=
  match p with
  | [] => Ok fs
  | c :: p' =>
      match fs with
      | File _ _ _ => Err NotADirectoryError
      | Dir _ es =>
          match find_ent c es with
          | None => Err FileNotFoundError
          | Some n => resolve n p'
          end
      end
  end.

Definition isdir (fs : node) (p : path) : bool :=
  match resolve fs p with Ok (Dir _ _) => true | _ => false end.

Definition is_dir_node (n : node) : bool :=
  match n with Dir _ _ => true | File _ _ _ => false end.

(** What an observer sees at a path: nothing, a directory, or a regular
    file with its permission bits, modification time and bytes. *)
Inductive item : Type :=
| IsDir
| IsFile (mode mtime : Z) (data : string).

Definition item_of (n : node) : item :=
  match n with Dir _ _ => IsDir | File m t d => IsFile m t d end.

Definition view (fs : node) (p : path) : option item :=
  match resolve fs p with Ok n => Some (item_of n) | Err _ => None end.

Definition node_mode (n : node) : Z :=
  match n with Dir m _ => m | File m _ _ => m end.

Definition mode_at (fs : node) (p : path) : option Z :=
  match resolve fs p with Ok n => Some (node_mode n) | Err _ => None end.

(** [os.stat]: kind, contents and permission bits together. *)
Definition stat (fs : node) (p : path) : option (item * Z) :=
  match resolve fs p with
  | Ok n => Some (item_of n, node_mode n)
  | Err _ => None
  end.

(** The node at a path, if there is one. *)
Definition lookup (fs : node) (p : path) : option node :=
  match resolve fs p with Ok n => Some n | Err _ => None end.

(** No directory lists a name twice. *)
Fixpoint nodupb (l : list string) : bool :=
  match l with
  | [] => true
  | c :: l' => negb (existsb (String.eqb c) l') && nodupb l'
  end.

Fixpoint wf (n : node) : bool :=
  match n with
  | File _ _ _ => true
  | Dir _ es =>
      nodupb (map fst es)
      && (fix wf_ents (es : list (string * node)) : bool :=
            match es with
            | [] => true
            | (_, child) :: es' => wf child && wf_ents es'
            end) es
  end.

(** Number of directories in a tree: the fuel a walk over it needs. *)
Fixpoint ndirs (n : node) : nat :=
  match n with
  | File _ _ _ => 0
  | Dir _ es =>
      S ((fix sum (es : list (string * node)) : nat :=
            match es with
            | [] => 0
            | (_, child) :: es' => ndirs child + sum es'
            end) es)
  end.

(** The regular files of a tree. *)
Fixpoint nfiles (n : node) : nat :=
  match n with
  | File _ _ _ => 1
  | Dir _ es =>
      (fix sum (es : list (string * node)) : nat :=
         match es with
         | [] => 0
         | (_, child) :: es' => nfiles child + sum es'
         end) es
  end.

(** Permission bits are written in octal, as in the source. *)
Definition octal (digits : list nat) : Z :=
  fold_left (fun acc d => (8 * acc + Z.of_nat d)%Z) digits 0%Z.

(** ** System calls *)

(** Apply [f] to the entry at [p] (seen as [None] when it is missing but its
    parent directory exists); [f] answers with the new entry, or [None] to
    remove it. *)
Fixpoint alter (f : option node -> res (option node)) (p : path) (n : node)
  : res node :=
  match p with
  | [] =>
      match f (Some n) with
      | Ok (Some n') => Ok n'
      | Ok None => Err PermissionError
      | Err e => Err e
      end
  | c :: p' =>
      match n with
      | File _ _ _ => Err NotADirectoryError
      | Dir m es =>
          match p' with
          | [] =>
              match f (find_ent c es) with
              | Ok (Some n') => Ok (Dir m (set_ent c n' es))
              | Ok None => Ok (Dir m (del_ent c es))
              | Err e => Err e
              end
          | _ :: _ =>
              match find_ent c es with
              | None => Err FileNotFoundError
              | Some child =>
                  match alter f p' child with
                  | Ok child' => Ok (Dir m (set_ent c child' es))
                  | Err e => Err e
                  end
              end
          end
      end
  end.

Definition set_mode (mode : Z) (n : node) : node :=
  match n with
  | File _ t d => File mode t d
  | Dir _ es => Dir mode es
  end.

(** [os.chmod path mode]. *)
Definition chmod (p : path) (mode : Z) : node -> res node :=
  alter (fun o =>
           match o with
           | None => Err FileNotFoundError
           | Some (File _ t d) => Ok (Some (File mode t d))
           | Some (Dir _ es) => Ok (Some (Dir mode es))
           end) p.

(** [open(dst, 'wb')], the write of the bytes and [copystat]: the file at
    [dst] is created or replaced by [new]. *)
Definition write_file (dst : path) (new : node) : node -> res node :=
  alter (fun o =>
           match o with
           | Some (Dir _ _) => Err IsADirectoryError
           | _ => Ok (Some new)
           end) dst.

Section Process.

(** The file-creation mask of the process. *)
Variable umask : Z.

Definition new_dir_mode : Z := Z.land (octal [7; 7; 7]) (Z.lnot umask).

(** [os.makedirs(p, exist_ok=True)]: every missing directory on the way to
    [p] is created; an existing directory at [p] is accepted; a regular file
    at [p] raises [FileExistsError], one on the way [NotADirectoryError]. *)
Fixpoint makedirs (p : path) (n : node) : res node :=
  match n, p with
  | File _ _ _, [] => Err FileExistsError
  | File _ _ _, _ :: _ => Err NotADirectoryError
  | Dir _ _, [] => Ok n
  | Dir m es, c :: p' =>
      match find_ent c es with
      | Some child =>
          match makedirs p' child with
          | Ok child' => Ok (Dir m (set_ent c child' es))
          | Err e => Err e
          end
      | None =>
          match makedirs p' (Dir new_dir_mode []) with
          | Ok child' => Ok (Dir m (set_ent c child' es))
          | Err e => Err e
          end
      end
  end.

(** [shutil.copy2(src, dst)]: copy into [dst] when it is a directory, refuse
    to copy a file onto itself, then copy bytes, permission bits and
    modification time. *)
Definition copy2 (src dst : path) (fs : node) : res node :=
  let dst := if isdir fs dst then dst ++ [basename src] else dst in
  match resolve fs src with
  | Err e => Err e
  | Ok n =>
      if path_eqb src dst then Err SameFileError
      else match n with
           | Dir _ _ => Err IsADirectoryError
           | File m t d => write_file dst (File m t d) fs
           end
  end.

(** ** Traversal *)

Inductive kind : Type := D | F.

Definition kind_eq_dec : forall a b : kind, {a = b} + {a <> b}.
Proof. decide equality. Defined.

Definition entry : Type := (kind * path)%type.

Definition entry_eq_dec : forall a b : entry, {a = b} + {a <> b}.
Proof. decide equality; [apply path_eq_dec | apply kind_eq_dec]. Defined.

Definition kind_of (n : node) : kind :=
  match n with Dir _ _ => D | File _ _ _ => F end.

(** [os.scandir]: the entries of a directory, in directory order. *)
Definition scandir (fs : node) (p : path) : res (list (string * node)) :=
  match resolve fs p with
  | Ok (Dir _ es) => Ok es
  | Ok (File _ _ _) => Err NotADirectoryError
  | Err e => Err e
  end.

Definition dirnames (es : list (string * node)) : list string :=
  map fst (filter (fun e => is_dir_node (snd e)) es).

Definition filenames (es : list (string * node)) : list string :=
  map fst (filter (fun e => negb (is_dir_node (snd e))) es).

(** What [recursive_iglob] yields for one triple [(root, dirnames,
    filenames)] of [os.walk]: the directories, then the files. *)
Definition yields (root : path) (es : list (string * node)) : list entry :=
  map (fun d => (D, root ++ [d])) (dirnames es)
  ++ map (fun f => (F, root ++ [f])) (filenames es).

Section Loop.

Variable A : Type.

(** The body of a [for fd, file_or_dir in recursive_iglob(...)] loop. *)
Variable body : entry -> A -> M node A.

(** [os.walk(top)] top-down with the loop body run at every yield.  [stack]
    holds the directories still to be walked, the next one first.  A
    directory that cannot be listed when its turn comes is skipped, as
    [os.walk] does without an [onerror] handler. *)
Fixpoint os_walk (fuel : nat) (stack : list path) (acc : A) : M node A :=
  fun fs =>
    match stack with
    | [] => Ret acc fs
    | top :: rest =>
        match fuel with
        | O => Timeout
        | S fuel' =>
            match scandir fs top with
            | Err _ => os_walk fuel' rest acc fs
            | Ok es =>
                match for_each body (yields top es) acc fs with
                | Ret acc' fs' =>
                    os_walk fuel'
                      (map (fun d => top ++ [d]) (dirnames es) ++ rest)
                      acc' fs'
                | Exc e fs' => Exc e fs'
                | Timeout => Timeout
                end
            end
        end
    end.

(** A loop over [recursive_iglob(root_dir)]. *)
Definition for_recursive_iglob (fuel : nat) (root_dir : path) (acc : A)
  : M node A :=
  fun fs =>
    if isdir fs root_dir then os_walk fuel [root_dir] acc fs
    else Exc ValueError fs.

End Loop.

(** [list(recursive_iglob(root_dir))]. *)
Definition recursive_iglob (fuel : nat) (root_dir : path)
  : M node (list entry) :=
  for_recursive_iglob (fun e acc => ret (acc ++ [e])) fuel root_dir [].

(** ** Copy and move *)

Definition copy_tree_body (src dst : path) (exclude : list path)
  (e : entry) (copied : list entry) : M node (list entry) :=
  let (fd, file_or_dir) := e in
  let src_path := relpath file_or_dir src in
  if in_dec path_eq_dec src_path exclude then ret copied
  else
    let target := dst ++ src_path in
    match fd with
    | D => syscall (makedirs target)
    | F => syscall (makedirs (dirname target)) ;;;
           syscall (copy2 file_or_dir target)
    end ;;;
    ret (copied ++ [(fd, target)]).

Definition copy_tree (fuel : nat) (src dst : path) (exclude : list path)
  : M node (list entry) :=
  for_recursive_iglob (copy_tree_body src dst exclude) fuel src [].

(** ** Deletion *)

(** The function of [shutil.rmtree] that failed, as passed to [onerror]. *)
Inductive rmfunc : Type := os_lstat | os_open | os_scandir | os_unlink | os_rmdir.

(** [ignore_missing_dir_error(_func, _path, excinfo)]: [None] when the
    handler returns, [Some e] when it raises [e]. *)
Definition ignore_missing_dir_error (_func : rmfunc) (_path : path)
  (excinfo : exn) : option exn :=
  if exn_eq_dec excinfo FileNotFoundError then None else Some excinfo.

(** The default handler of [shutil.rmtree]: raise whatever failed. *)
Definition reraise (_func : rmfunc) (_path : path) (excinfo : exn)
  : option exn := Some excinfo.

(** Failures caused by the environment when an entry is removed:
    [fault p = Some FileNotFoundError] says that the entry at [p] has
    vanished when its turn comes (somebody else removed it), any other
    [Some e] that [os.unlink] or [os.rmdir] of [p] fails with [e]. *)
Variable fault : path -> option exn.

(** The root directory itself cannot be removed. *)
Definition fault_at (p : path) : option exn :=
  match p with [] => Some PermissionError | _ :: _ => fault p end.

Section Rmtree.

Variable onerror : rmfunc -> path -> exn -> option exn.

(** The loop of [_rmtree_safe_fd] over the entries of the directory [p]:
    [rm] removes one entry; the loop stops when the handler raises. *)
Fixpoint rm_children (rm : path -> node -> option node * option exn)
  (p : path) (es : list (string * node))
  : list (string * node) * option exn :=
  match es with
  | [] => ([], None)
  | (c, child) :: rest =>
      match rm (p ++ [c]) child with
      | (Some child', Some e) => ((c, child') :: rest, Some e)
      | (None, Some e) => (rest, Some e)
      | (Some child', None) =>
          let (rest', r) := rm_children rm p rest in
          ((c, child') :: rest', r)
      | (None, None) => rm_children rm p rest
      end
  end.

(** [_rmtree_safe_fd] followed by the [os.rmdir] (or the [os.unlink]) of the
    entry itself: what is left of the entry at [p], and the exception that
    left the handler, if one did. *)
Fixpoint rm_entry (p : path) (n : node) : option node * option exn :=
  match n with
  | File _ _ _ =>
      match fault_at p with
      | None => (None, None)
      | Some FileNotFoundError => (None, onerror os_unlink p FileNotFoundError)
      | Some e => (Some n, onerror os_unlink p e)
      end
  | Dir m es =>
      match fault_at p with
      | Some FileNotFoundError => (None, onerror os_open p FileNotFoundError)
      | flt =>
          let (es', raised) := rm_children rm_entry p es in
          match raised with
          | Some e => (Some (Dir m es'), Some e)
          | None =>
              match es', flt with
              | _ :: _, _ =>
                  (Some (Dir m es'), onerror os_rmdir p DirectoryNotEmpty)
              | [], Some e => (Some (Dir m []), onerror os_rmdir p e)
              | [], None => (None, None)
              end
          end
      end
  end.

Definition outcome_of {S} (raised : option exn) (s : S) : outcome S unit :=
  match raised with Some e => Exc e s | None => Ret tt s end.

(** [shutil.rmtree(p, onerror=onerror)]. *)
Definition rmtree (p : path) : M node unit :=
  fun fs =>
    match resolve fs p with
    | Err e => outcome_of (onerror os_lstat p e) fs
    | Ok (File _ _ _) =>
        match onerror os_scandir p NotADirectoryError with
        | Some e => Exc e fs
        | None => outcome_of (onerror os_rmdir p NotADirectoryError) fs
        end
    | Ok (Dir m es) =>
        let (left, raised) := rm_entry p (Dir m es) in
        match alter (fun _ => Ok left) p fs with
        | Ok fs' => outcome_of raised fs'
        | Err _ => outcome_of raised fs
        end
    end.

End Rmtree.

Definition move_tree (fuel : nat) (src dst : path) : M node (list entry) :=
  syscall (makedirs dst) ;;;
  moved <- copy_tree fuel src dst [] ;;
  rmtree ignore_missing_dir_error src ;;;
  ret moved.

(** ** Descriptors and advisory locks *)

Inductive flock_op : Type := LOCK_SH | LOCK_EX | LOCK_UN.

(** An open descriptor: the process, the descriptor number, the file. *)
Definition handle : Type := (nat * nat)%type.

Definition handle_eqb (a b : handle) : bool :=
  Nat.eqb (fst a) (fst b) && Nat.eqb (snd a) (snd b).

(** A lock held through a handle on a file; [true] for an exclusive one. *)
Definition held : Type := (handle * path * bool)%type.

Record world : Type := World {
  w_fs : node;
  w_fds : list (handle * path);
  w_locks : list held
}.

Definition set_fs (w : world) (fs : node) : world :=
  World fs (w_fds w) (w_locks w).
Definition set_fds (w : world) (fds : list (handle * path)) : world :=
  World (w_fs w) fds (w_locks w).
Definition set_locks (w : world) (ls : list held) : world :=
  World (w_fs w) (w_fds w) ls.

(** A computation on the file system, run inside the world. *)
Definition zoom {A} (m : M node A) : M world A :=
  fun w =>
    match m (w_fs w) with
    | Ret a fs => Ret a (set_fs w fs)
    | Exc e fs => Exc e (set_fs w fs)
    | Timeout => Timeout
    end.

(** [try: m finally: cleanup]. *)
Definition finally {S A} (m : M S A) (cleanup : M S unit) : M S A :=
  fun s =>
    match m s with
    | Ret a s' =>
        match cleanup s' with
        | Ret _ s'' => Ret a s''
        | Exc e s'' => Exc e s''
        | Timeout => Timeout
        end
    | Exc e s' =>
        match cleanup s' with
        | Ret _ s'' => Exc e s''
        | Exc e' s'' => Exc e' s''
        | Timeout => Timeout
        end
    | Timeout => Timeout
    end.

Fixpoint file_of (h : handle) (fds : list (handle * path)) : option path :=
  match fds with
  | [] => None
  | (h', p) :: fds' => if handle_eqb h h' then Some p else file_of h fds'
  end.

Definition drop_handle {X} (h : handle) (l : list (handle * X))
  : list (handle * X) :=
  filter (fun e => negb (handle_eqb h (fst e))) l.

Definition unlock (h : handle) (ls : list held) : list held :=
  filter (fun l => negb (handle_eqb h (fst (fst l)))) ls.

(** A request conflicts with a lock another handle holds on the same file
    when one of the two is exclusive. *)
Definition conflicts (h : handle) (file : path) (excl : bool)
  (ls : list held) : bool :=
  existsb (fun l =>
             match l with
             | (h', file', excl') =>
                 negb (handle_eqb h h') && path_eqb file file'
                 && (excl || excl')
             end) ls.

(** [flock(2)] on the lock table: [None] when the call has to wait. *)
Definition flock (h : handle) (file : path) (op : flock_op)
  (ls : list held) : option (list held) :=
  match op with
  | LOCK_UN => Some (unlock h ls)
  | LOCK_SH =>
      if conflicts h file false ls then None
      else Some ((h, file, false) :: unlock h ls)
  | LOCK_EX =>
      if conflicts h file true ls then None
      else Some ((h, file, true) :: unlock h ls)
  end.

(** A descriptor number the process does not use yet (the kernel hands out
    the lowest free one; any free one serves here). *)
Definition fresh_fd (pid : nat) (fds : list (handle * path)) : nat :=
  S (fold_right (fun e m => if Nat.eqb (fst (fst e)) pid
                            then Nat.max (snd (fst e)) m else m) 2 fds).

Section Calls.

(** The calling process. *)
Variable pid : nat.

(** [os.open(path, os.O_RDONLY)]. *)
Definition os_open_call (p : path) : M world nat :=
  fun w =>
    match resolve (w_fs w) p with
    | Err e => Exc e w
    | Ok _ =>
        let fd := fresh_fd pid (w_fds w) in
        Ret fd (set_fds w (((pid, fd), p) :: w_fds w))
    end.

(** [os.close(fd)]; closing a descriptor drops the lock held through it. *)
Definition os_close_call (fd : nat) : M world unit :=
  fun w =>
    match file_of (pid, fd) (w_fds w) with
    | None => Exc BadFileDescriptor w
    | Some _ =>
        Ret tt (World (w_fs w) (drop_handle (pid, fd) (w_fds w))
                  (unlock (pid, fd) (w_locks w)))
    end.

(** [fcntl.flock(fd, op)]: a call that has to wait gives no result while
    nobody else runs. *)
Definition fcntl_flock (fd : nat) (op : flock_op) : M world unit :=
  fun w =>
    match file_of (pid, fd) (w_fds w) with
    | None => Exc BadFileDescriptor w
    | Some file =>
        match flock (pid, fd) file op (w_locks w) with
        | None => Timeout
        | Some ls => Ret tt (set_locks w ls)
        end
    end.

(** [with fd_open(path) as fd: body fd]. *)
Definition fd_open {A} (p : path) (body : nat -> M world A) : M world A :=
  fd <- os_open_call p ;;
  finally (body fd) (os_close_call fd).

(** The two halves of [fd_lock]: what runs before and after the [yield]. *)
Definition fd_lock_enter (file_descriptor : nat) (exclusive : bool)
  : M world unit :=
  fcntl_flock file_descriptor (if exclusive then LOCK_EX else LOCK_SH).

Definition fd_lock_exit (file_descriptor : nat) : M world unit :=
  fcntl_flock file_descriptor LOCK_UN.

(** [with fd_lock(file_descriptor, exclusive): body]. *)
Definition fd_lock {A} (file_descriptor : nat) (exclusive : bool)
  (body : M world A) : M world A :=
  fd_lock_enter file_descriptor exclusive ;;;
  finally body (fd_lock_exit file_descriptor).

(** Where the test scripts of an assignment are kept: [test_script_directory]
    and [TEST_SCRIPTS_FILES_DIRNAME] are defined outside this module. *)
Variable test_script_directory : string -> Z -> path.
Variable TEST_SCRIPTS_FILES_DIRNAME : string.

Definition copy_test_script_files (fuel : nat) (markus_address : string)
  (assignment_id : Z) (tests_path : path) : M world (list entry) :=
  fun w =>
    let test_script_outer_dir :=
      test_script_directory markus_address assignment_id in
    let test_script_dir :=
      test_script_outer_dir ++ [TEST_SCRIPTS_FILES_DIRNAME] in
    if isdir (w_fs w) test_script_dir then
      fd_open test_script_dir (fun fd =>
        fd_lock fd false (zoom (copy_tree fuel test_script_dir tests_path [])))
        w
    else Ret [] w.

Definition chmod_student (e : entry) (_ : unit) : M node unit :=
  let (fd, file_or_dir) := e in
  match fd with
  | D => syscall (chmod file_or_dir (octal [7; 7; 7]))
  | F => syscall (chmod file_or_dir (octal [6; 6; 6]))
  end.

Definition chmod_script (e : entry) (_ : unit) : M node unit :=
  let (fd, file_or_dir) := e in
  let permissions := octal [7; 5; 5] in
  let permissions :=
    match fd with
    | F => Z.sub permissions (octal [1; 1; 1])
    | D => permissions
    end in
  syscall (chmod file_or_dir permissions).

Definition setup_files (fuel : nat) (files_path tests_path : path)
  (markus_address : string) (assignment_id : Z)
  : M world (list entry * list entry) :=
  zoom (syscall (chmod tests_path (octal [1; 7; 7; 0]))) ;;;
  student_files <- zoom (move_tree fuel files_path tests_path) ;;
  zoom (for_each chmod_student student_files tt) ;;;
  script_files <-
    copy_test_script_files fuel markus_address assignment_id tests_path ;;
  zoom (for_each chmod_script script_files tt) ;;;
  ret (student_files, script_files).

End Calls.

End Process.

(** ** Processes that run their with-blocks side by side *)

(** A process of the locking scenario runs
    [with fd_open(path) as fd: with fd_lock(fd, exclusive): body], as
    [copy_test_script_files] does, or, when it holds a descriptor already,
    [with fd_lock(fd, exclusive): body].  [p_target] is the path to open or
    the descriptor at hand. *)
Record prog (A : Type) : Type := Prog {
  p_pid : nat;
  p_target : path + nat;
  p_exclusive : bool;
  p_body : nat -> M world A
}.

(** Where a process stands in its with-blocks: nothing done yet; the
    descriptor at hand; the lock taken and the body still to run; the body
    over (with its value or its exception) and the lock still to release;
    the lock released and the descriptor still to close; all done. *)
Inductive pc (A : Type) : Type :=
| AtStart
| HasFd (fd : nat)
| Inside (fd : nat)
| Leaving (fd : nat) (r : A + exn)
| Unlocked (fd : nat) (r : A + exn)
| Finished (r : A + exn).
Arguments AtStart {A}.
Arguments HasFd {A} fd.
Arguments Inside {A} fd.
Arguments Leaving {A} fd r.
Arguments Unlocked {A} fd r.
Arguments Finished {A} r.

(** What an observer sees a process do: the system calls that returned,
    the run of the body, and the calls that raised. *)
Inductive event : Type :=
| Opening (pid : nat)
| Locking (pid : nat)
| Running (pid : nat)
| Unlocking (pid : nat)
| Closing (pid : nat)
| Failing (pid : nat).

(** Where the exit of [fd_lock] leads: to the [finally] of [fd_open] when
    the process opened the descriptor itself. *)
Definition after_lock {A} (t : prog A) (fd : nat) (r : A + exn) : pc A :=
  match p_target t with
  | inl _ => Unlocked fd r
  | inr _ => Finished r
  end.

Definition init {A} (t : prog A) : pc A :=
  match p_target t with
  | inl _ => AtStart
  | inr fd => HasFd fd
  end.

(** One system call of the process, or the run of its body: [os.open],
    [fcntl.flock] to enter (a call that has to wait does not move), the
    body, [fcntl.flock(fd, LOCK_UN)] in the [finally] of [fd_lock], and
    [os.close] in the [finally] of [fd_open].  An exception of the body is
    kept until the [finally] clauses have run; an exception of a [finally]
    clause replaces it. *)
Definition thread_step {A} (t : prog A) (a : pc A) (w : world)
  : option (event * pc A * world) :=
  match a with
  | AtStart =>
      match p_target t with
      | inr _ => None
      | inl p =>
          match os_open_call (p_pid t) p w with
          | Ret fd w' => Some (Opening (p_pid t), HasFd fd, w')
          | Exc e w' => Some (Failing (p_pid t), Finished (inr e), w')
          | Timeout => None
          end
      end
  | HasFd fd =>
      match fd_lock_enter (p_pid t) fd (p_exclusive t) w with
      | Ret _ w' => Some (Locking (p_pid t), Inside fd, w')
      | Exc e w' => Some (Failing (p_pid t), after_lock t fd (inr e), w')
      | Timeout => None
      end
  | Inside fd =>
      match p_body t fd w with
      | Ret x w' => Some (Running (p_pid t), Leaving fd (inl x), w')
      | Exc e w' => Some (Running (p_pid t), Leaving fd (inr e), w')
      | Timeout => None
      end
  | Leaving fd r =>
      match fd_lock_exit (p_pid t) fd w with
      | Ret _ w' => Some (Unlocking (p_pid t), after_lock t fd r, w')
      | Exc e w' => Some (Failing (p_pid t), after_lock t fd (inr e), w')
      | Timeout => None
      end
  | Unlocked fd r =>
      match os_close_call (p_pid t) fd w with
      | Ret _ w' => Some (Closing (p_pid t), Finished r, w')
      | Exc e w' => Some (Failing (p_pid t), Finished (inr e), w')
      | Timeout => None
      end
  | Finished _ => None
  end.

(** The process running alone, step after step, until it has finished. *)
Fixpoint exec {A} (n : nat) (t : prog A) (a : pc A) (w : world)
  : outcome world A :=
  match a with
  | Finished (inl x) => Ret x w
  | Finished (inr e) => Exc e w
  | _ =>
      match n with
      | O => Timeout
      | S n' =>
          match thread_step t a w with
          | Some (_, a', w') => exec n' t a' w'
          | None => Timeout
          end
      end
  end.

(** The with-blocks of the process, as the functions of the module run
    them. *)
Definition with_block {A} (t : prog A) : M world A :=
  match p_target t with
  | inl p =>
      fd_open (p_pid t) p
        (fun fd => fd_lock (p_pid t) fd (p_exclusive t) (p_body t fd))
  | inr fd => fd_lock (p_pid t) fd (p_exclusive t) (p_body t fd)
  end.

(** The with-blocks of [copy_test_script_files]. *)
Definition script_thread (umask : Z) (pid : nat) (fuel : nat)
  (test_script_dir tests_path : path) : prog (list entry) :=
  Prog pid (inl test_script_dir) false
    (fun _ => zoom (copy_tree umask fuel test_script_dir tests_path [])).

(** Interleavings of two processes over the shared world, with the events
    in the order they happen. *)
Inductive run {A B} (t1 : prog A) (t2 : prog B)
  : world * pc A * pc B -> list event -> world * pc A * pc B -> Prop :=
| run_done s : run t1 t2 s [] s
| run_first s tr w a b ev a' w' :
    run t1 t2 s tr (w, a, b) ->
    thread_step t1 a w = Some (ev, a', w') ->
    run t1 t2 s (tr ++ [ev]) (w', a', b)
| run_second s tr w a b ev b' w' :
    run t1 t2 s tr (w, a, b) ->
    thread_step t2 b w = Some (ev, b', w') ->
    run t1 t2 s (tr ++ [ev]) (w', a, b').

(** ** The traversal as a list *)

(** The entries below [top] in the order of a top-down [os.walk] over a tree
    that does not change: the block of a directory, then the walks of its
    subdirectories one after the other. *)
Fixpoint walk_list (top : path) (n : node) : list entry :=
  match n with
  | File _ _ _ => []
  | Dir _ es =>
      yields top es
      ++ (fix sub (es : list (string * node)) : list entry :=
            match es with
            | [] => []
            | (c, child) :: es' => walk_list (top ++ [c]) child ++ sub es'
            end) es
  end.

(** The entries of one kind in a sequence of entries. *)
Definition count_kind (k : kind) (l : list entry) : nat :=
  List.length (filter (fun e => if kind_eq_dec (fst e) k then true else false)
                 l).

(** The walk of the directories waiting on the stack of [os.walk]: each is
    given by its path below the root of the walk and the tree found there. *)
Definition forest_dirs (ts : list (path * node)) : nat :=
  list_sum (map (fun t => ndirs (snd t)) ts).

Definition forest_walk (src : path) (ts : list (path * node)) : list entry :=
  flat_map (fun t => walk_list (src ++ fst t) (snd t)) ts.

Definition subdirs (r : path) (es : list (string * node))
  : list (path * node) :=
  map (fun e => (r ++ [fst e], snd e))
    (filter (fun e => is_dir_node (snd e)) es).

Definition in_tree (tree : node) (t : path * node) : Prop :=
  resolve tree (fst t) = Ok (snd t) /\ is_dir_node (snd t) = true
  /\ wf (snd t) = true.

(** [p] is an empty directory, or is missing and can be created. *)
Definition vacant (fs : node) (p : path) : bool :=
  match resolve fs p with
  | Ok (Dir _ []) => true
  | Err FileNotFoundError => true
  | _ => false
  end.

(** The test of [copy_tree] on an entry and the entry it records. *)
Definition not_excluded (src : path) (exclude : list path) (e : entry)
  : bool :=
  if in_dec path_eq_dec (relpath (snd e) src) exclude then false else true.

Definition target (src dst : path) (e : entry) : entry :=
  (fst e, dst ++ relpath (snd e) src).

(** The paths below the destination that a copy has reached: the relative
    paths it has copied and the directories on the way to them. *)
Definition covered (kept : list path) (r : path) : bool :=
  existsb (is_prefix r) kept.

(** The state of a copy of [tree] (found at [src]) into [dst] when the
    paths told by [cov] have been reached. *)
Definition copy_inv (src dst : path) (tree : node) (cov : path -> bool)
  (fs : node) : Prop :=
  resolve fs src = Ok tree
  /\ (forall p, is_prefix p dst = true ->
        view fs p = None \/ view fs p = Some IsDir)
  /\ (forall r, r <> [] ->
        view fs (dst ++ r) = if cov r then view tree r else None)
  /\ (forall r, r <> [] -> cov r = true -> view tree r <> None).

(** An entry of the walk, seen from the tree. *)
Definition listed (src : path) (tree : node) (e : entry) : Prop :=
  exists rel n, rel <> [] /\ snd e = src ++ rel /\ resolve tree rel = Ok n
                /\ fst e = kind_of n.

(** The relative paths a copy keeps. *)
Definition kept_paths (src : path) (exclude : list path) (tree : node)
  : list path :=
  map (fun e => relpath (snd e) src)
    (filter (not_excluded src exclude) (walk_list src tree)).

(** [a] comes before [b] in [l]. *)
Definition before {X} (a b : X) (l : list X) : Prop :=
  exists l1 l2 l3, l = l1 ++ a :: l2 ++ b :: l3.

(** Every lock in the table is held through a descriptor that is open. *)
Definition locks_open (w : world) : bool :=
  forallb (fun l => match file_of (fst (fst l)) (w_fds w) with
                    | Some _ => true
                    | None => false
                    end) (w_locks w).

(** A computation that leaves the open descriptors as they are, and the
    locks too, but for those held through the handle [h]. *)
Definition keeps_others {A} (h : handle) (m : M world A) : Prop :=
  forall w,
    stops_in (fun w' => w_fds w' = w_fds w
                        /\ unlock h (w_locks w') = unlock h (w_locks w))
      (m w).

(** The permission bits [setup_files] gives to an entry of each record. *)
Definition student_mode (k : kind) : Z :=
  match k with D => octal [7; 7; 7] | F => octal [6; 6; 6] end.

Definition script_mode (k : kind) : Z :=
  match k with D => octal [7; 5; 5] | F => octal [6; 4; 4] end.

(** With [ignore_missing_dir_error] an entry is gone exactly when nothing
    was raised, and what is raised is never [FileNotFoundError]. *)
Definition settled (res : option node * option exn) : Prop :=
  res = (None, None) \/
  exists n e, res = (Some n, Some e) /\ e <> FileNotFoundError.

(** The loops of [setup_files] over a record, with the mode as a function
    of the kind of the entry. *)
Definition chmod_all (f : kind -> Z) (e : entry) (_ : unit) : M node unit :=
  syscall (chmod (snd e) (f (fst e))).

(** ** What the lock table and the events say about two processes *)

(** A body that touches neither the descriptors nor the locks. *)
Definition keeps_handles {A} (m : M world A) : Prop :=
  forall w,
    stops_in (fun w' => w_fds w' = w_fds w /\ w_locks w' = w_locks w) (m w).

(** From the call of [flock] that took the lock to the one that releases
    it. *)
Definition inside {A} (a : pc A) : bool :=
  match a with
  | Inside _ | Leaving _ _ => true
  | _ => false
  end.

(** The lock a process holds where it stands. *)
Definition holds {A} (t : prog A) (file : path) (a : pc A) (l : held)
  : Prop :=
  match a with
  | Inside fd | Leaving fd _ => l = ((p_pid t, fd), file, p_exclusive t)
  | _ => False
  end.

(** The descriptor a process uses where it stands. *)
Definition current_fd {A} (a : pc A) : option nat :=
  match a with
  | HasFd fd | Inside fd | Leaving fd _ | Unlocked fd _ => Some fd
  | AtStart | Finished _ => None
  end.

(** The process an event belongs to. *)
Definition event_pid (ev : event) : nat :=
  match ev with
  | Opening pid | Locking pid | Running pid | Unlocking pid | Closing pid
  | Failing pid => pid
  end.

(** What the events so far say about where a process stands. *)
Definition phase_says {A} (pid : nat) (tr : list event) (a : pc A) : Prop :=
  match a with
  | AtStart | HasFd _ =>
      ~ In (Locking pid) tr /\ ~ In (Running pid) tr
      /\ ~ In (Unlocking pid) tr
  | Inside _ =>
      In (Locking pid) tr /\ ~ In (Running pid) tr
      /\ ~ In (Unlocking pid) tr
  | Leaving _ _ =>
      In (Locking pid) tr /\ In (Running pid) tr
      /\ ~ In (Unlocking pid) tr
  | Unlocked _ _ | Finished _ =>
      (In (Locking pid) tr /\ In (Running pid) tr
       /\ In (Unlocking pid) tr)
      \/ (~ In (Locking pid) tr /\ ~ In (Running pid) tr
          /\ ~ In (Unlocking pid) tr)
  end.

(** What holds of one process, of the descriptors [fds] and of the events:
    its descriptor is open on the file, it has no other descriptor than
    those open at the start (in [fds0]), and the events say where it
    stands. *)
Definition thread_ok {A} (t : prog A) (file : path)
  (fds0 : list (handle * path)) (tr : list event) (a : pc A)
  (fds : list (handle * path)) : Prop :=
  (forall fd, current_fd a = Some fd ->
              file_of (p_pid t, fd) fds = Some file)
  /\ (forall fd p,
        file_of (p_pid t, fd) fds = Some p ->
        file_of (p_pid t, fd) fds0 = Some p
        \/ (current_fd a = Some fd /\ p_target t = inl file))
  /\ phase_says (p_pid t) tr a
  /\ (a = AtStart -> p_target t = inl file).

(** The state of two processes that lock the same file: the lock table
    holds the locks of others from the start (in [locks0]) and the locks the
    two hold where they stand, and the two are not inside together when one
    of them asks for an exclusive lock. *)
Definition consistent {A B} (t1 : prog A) (t2 : prog B) (file : path)
  (w0 : world) (tr : list event) (s : world * pc A * pc B) : Prop :=
  let '(w, a, b) := s in
  thread_ok t1 file (w_fds w0) tr a (w_fds w)
  /\ thread_ok t2 file (w_fds w0) tr b (w_fds w)
  /\ (forall l, In l (w_locks w) <->
                In l (w_locks w0) \/ holds t1 file a l \/ holds t2 file b l)
  /\ (p_exclusive t1 || p_exclusive t2 = true ->
      ~ (inside a = true /\ inside b = true)).

(** The file a process is about to lock, in the world where it starts. *)
Definition target_file {A} (t : prog A) (w : world) : option path :=
  match p_target t with
  | inl p => Some p
  | inr fd => file_of (p_pid t, fd) (w_fds w)
  end.

(** No lock of the table is held by the process. *)
Definition foreign (pid : nat) (ls : list held) : Prop :=
  forall l, In l ls -> fst (fst (fst l)) <> pid.

(** ** Extraction of an archive *)

(** Modelled from the spec: the function that extracts an archive is not
    among the sources, so the archive extractor of section 4.3 is written
    down from the specification.  An archive is the list of its entries in
    archive order; an entry has its kind, its path as the list of its
    components (separators already normalised) and, for a file, its
    contents. *)
Record zip_entry : Type :=
  ZipEntry { z_kind : kind; z_name : path; z_data : string }.

(** Modelled from the spec: the specification does not say which mode an
    extracted file gets; the model gives it the mode of a file the process
    creates. *)
Definition new_file_mode (umask : Z) : Z :=
  Z.land (octal [6; 6; 6]) (Z.lnot umask).

(** Modelled from the spec: a path with a parent-directory segment could
    leave the destination. *)
Definition escapes (p : path) : bool := existsb (String.eqb "..") p.

Section Archive.

Variables umask now : Z.
Variable dst : path.
Variable ignore_root_dirs : nat.

(** Modelled from the spec: the path of an entry with its first
    [ignore_root_dirs] components stripped. *)
Definition stripped (e : zip_entry) : path :=
  skipn ignore_root_dirs (z_name e).

(** Modelled from the spec: an entry whose stripped path is empty is
    skipped; one that escapes is rejected; a directory entry is created
    with its missing parents; a file entry is written after its missing
    parents have been created. *)
Definition extract_entry (e : zip_entry) (_ : unit) : M node unit :=
  match stripped e with
  | [] => ret tt
  | rel =>
      if escapes rel then raise ArchiveError
      else
        match z_kind e with
        | D => syscall (makedirs umask (dst ++ rel))
        | F =>
            syscall (makedirs umask (dst ++ dirname rel)) ;;;
            syscall (write_file (dst ++ rel)
                       (File (new_file_mode umask) now (z_data e)))
        end
  end.

(** Modelled from the spec: the entries are materialised in archive
    order. *)
Definition extract_zip_stream (archive : list zip_entry) : M node unit :=
  for_each extract_entry archive tt.

(** Modelled from the spec: the archive's entry paths, stripped, without
    those that became empty. *)
Definition stripped_paths (archive : list zip_entry) : list path :=
  filter (fun p => negb (path_eqb p [])) (map stripped archive).

(** Modelled from the spec: the destination entry set after the
    extraction, as a predicate on paths relative to the destination. *)
Definition extracted (fs : node) (r : path) : Prop :=
  r <> [] /\ view fs (dst ++ r) <> None.

(** No file entry lies on the way to another entry, or at the path of a
    directory entry. *)
Definition files_are_leaves (archive : list zip_entry) : Prop :=
  forall e1 e2,
    In e1 archive -> In e2 archive ->
    z_kind e1 = F -> stripped e1 <> [] ->
    is_prefix (stripped e1) (stripped e2) = true ->
    z_kind e2 = F /\ stripped e2 = stripped e1.

Definition is_file_item (o : option item) : bool :=
  match o with Some (IsFile _ _ _) => true | _ => false end.

(** What holds of the destination once the entries [done] have been
    materialised: the way to the destination is made of directories, the
    paths below it are the non-empty prefixes of the stripped paths, and the
    files among them are the file entries. *)
Definition extract_inv (done : list zip_entry) (fs : node) : Prop :=
  (forall p, is_prefix p dst = true -> view fs p = Some IsDir)
  /\ (forall r, r <> [] ->
        (view fs (dst ++ r) <> None <->
         exists e, In e done /\ stripped e <> []
                   /\ is_prefix r (stripped e) = true))
  /\ (forall r, r <> [] ->
        (is_file_item (view fs (dst ++ r)) = true <->
         exists e, In e done /\ z_kind e = F /\ stripped e = r)).

(** Every non-empty prefix of a stripped path is a stripped path. *)
Definition parents_listed (archive : list zip_entry) : Prop :=
  forall p r,
    In p (stripped_paths archive) -> r <> [] -> is_prefix r p = true ->
    In r (stripped_paths archive).

End Archive.

(** ** Example trees *)

(** A submission [sub] holding [a.txt] and [b/c.txt], and an empty
    workspace [tmp/w]. *)
Definition submission : node :=
  Dir (octal [7; 5; 5])
    [("a.txt"%string, File (octal [6; 4; 4]) 1 "A"%string);
     ("b"%string,
      Dir (octal [7; 0; 0])
        [("c.txt"%string, File (octal [6; 0; 0]) 2 "C"%string)])].

Definition staging_fs : node :=
  Dir (octal [7; 5; 5])
    [("sub"%string, submission);
     ("tmp"%string,
      Dir (octal [7; 7; 7]) [("w"%string, Dir (octal [7; 5; 5]) [])])].

(** The same with a regular file [b] already in the workspace. *)
Definition conflict_fs : node :=
  Dir (octal [7; 5; 5])
    [("sub"%string, submission);
     ("tmp"%string,
      Dir (octal [7; 7; 7])
        [("w"%string,
          Dir (octal [7; 5; 5])
            [("b"%string, File (octal [6; 4; 4]) 0 ""%string)])])].

(** A tree three levels deep next to a tree two levels deep. *)
Definition deep_fs : node :=
  Dir (octal [7; 5; 5])
    [("r"%string,
      Dir (octal [7; 5; 5])
        [("a"%string,
          Dir (octal [7; 5; 5])
            [("x"%string,
              Dir (octal [7; 5; 5])
                [("deep.txt"%string, File (octal [6; 4; 4]) 0 ""%string)])]);
         ("b"%string,
          Dir (octal [7; 5; 5])
            [("y.txt"%string, File (octal [6; 4; 4]) 0 ""%string)])])].

(** A submission and a script directory that both hold [test.py]. *)
Definition graded_fs : node :=
  Dir (octal [7; 5; 5])
    [("sub"%string,
      Dir (octal [7; 5; 5])
        [("test.py"%string, File (octal [6; 4; 4]) 1 "student"%string)]);
     ("scripts"%string,
      Dir (octal [7; 5; 5])
        [("files"%string,
          Dir (octal [7; 5; 5])
            [("test.py"%string, File (octal [6; 4; 4]) 2 "harness"%string)])]);
     ("tmp"%string,
      Dir (octal [7; 7; 7]) [("w"%string, Dir (octal [7; 5; 5]) [])])].

(** The submission of [staging_fs] next to a script directory holding
    [run.sh], which the submission does not hold. *)
Definition scripted_fs : node :=
  Dir (octal [7; 5; 5])
    [("sub"%string, submission);
     ("scripts"%string,
      Dir (octal [7; 5; 5])
        [("files"%string,
          Dir (octal [7; 0; 0])
            [("run.sh"%string, File (octal [7; 0; 0]) 3 "run"%string)])]);
     ("tmp"%string,
      Dir (octal [7; 7; 7]) [("w"%string, Dir (octal [7; 5; 5]) [])])].

Definition no_fault : path -> option exn := fun _ => None.

(** An archive of a tree under [top] that lists every directory, and one
    that holds a single file without an entry for its directory. *)
Definition listed_archive : list zip_entry :=
  [ZipEntry D ["top"%string] ""%string;
   ZipEntry D ["top"%string; "a"%string] ""%string;
   ZipEntry F ["top"%string; "a"%string; "b.txt"%string] "B"%string;
   ZipEntry F ["top"%string; "c.txt"%string] "C"%string].

Definition bare_archive : list zip_entry :=
  [ZipEntry F ["a"%string; "b.txt"%string] "B"%string].

(** * Properties *)

(** ** Paths and directory entries *)

Lemma is_prefix_spec (p q : path) :
  is_prefix p q = true <-> exists r, q = p ++ r.
Proof.
  revert q; induction p as [|a p IH]; intros q; simpl.
  - split; [intros _; now exists q | reflexivity].
  - destruct q as [|b q].
    + split; [discriminate | intros [r Hr]; discriminate].
    + rewrite andb_true_iff, String.eqb_eq, IH. split.
      * intros [-> [r ->]]. now exists r.
      * intros [r Hr]. injection Hr as -> ->. split; [reflexivity | now exists r].
Qed.

Lemma is_prefix_refl (p : path) : is_prefix p p = true.
Proof. apply is_prefix_spec. exists []. now rewrite app_nil_r. Qed.

Lemma is_prefix_app (p r : path) : is_prefix p (p ++ r) = true.
Proof. apply is_prefix_spec. now exists r. Qed.

Lemma is_prefix_false_app (p q r : path) :
  is_prefix p q = false -> is_prefix q p = false ->
  is_prefix p (q ++ r) = false.
Proof.
  revert q; induction p as [|a p IH]; intros [|b q]; simpl; try discriminate.
  destruct (String.eqb a b) eqn:E; simpl.
  - rewrite String.eqb_sym in E. rewrite E. simpl. apply IH.
  - reflexivity.
Qed.

Lemma is_prefix_app_false (p q r : path) :
  is_prefix q p = false -> is_prefix (q ++ r) p = false.
Proof.
  intros H. destruct (is_prefix (q ++ r) p) eqn:E; [|reflexivity].
  apply is_prefix_spec in E. destruct E as [s ->].
  rewrite <- app_assoc in H. now rewrite is_prefix_app in H.
Qed.

Lemma overlap_sym (p q : path) : overlap p q = overlap q p.
Proof. unfold overlap. apply orb_comm. Qed.

Lemma overlap_false (p q : path) :
  overlap p q = false <-> is_prefix p q = false /\ is_prefix q p = false.
Proof. unfold overlap. apply orb_false_iff. Qed.

Lemma overlap_app (p q r : path) :
  overlap p q = false -> overlap p (q ++ r) = false.
Proof.
  rewrite !overlap_false. intros [H1 H2]. split.
  - now apply is_prefix_false_app.
  - now apply is_prefix_app_false.
Qed.

Lemma relpath_app (src r : path) : relpath (src ++ r) src = r.
Proof. unfold relpath. induction src; simpl; auto. Qed.

Lemma path_eqb_eq (p q : path) : path_eqb p q = true <-> p = q.
Proof. unfold path_eqb. destruct (path_eq_dec p q); split; congruence. Qed.

Lemma path_eqb_refl (p : path) : path_eqb p p = true.
Proof. now apply path_eqb_eq. Qed.

Lemma dirname_snoc (p : path) (c : string) : dirname (p ++ [c]) = p.
Proof. unfold dirname. apply removelast_last. Qed.

Lemma basename_snoc (p : path) (c : string) : basename (p ++ [c]) = c.
Proof. unfold basename. apply last_last. Qed.

Lemma find_set_same c n es : find_ent c (set_ent c n es) = Some n.
Proof.
  induction es as [|[c' n'] es IH]; simpl.
  - now rewrite String.eqb_refl.
  - destruct (String.eqb c c') eqn:E; simpl; rewrite ?String.eqb_refl, ?E; auto.
Qed.

Lemma find_set_other c c' n es :
  c <> c' -> find_ent c' (set_ent c n es) = find_ent c' es.
Proof.
  intros Hne. induction es as [|[c0 n0] es IH]; simpl.
  - destruct (String.eqb c' c) eqn:E; [apply String.eqb_eq in E; congruence | reflexivity].
  - destruct (String.eqb c c0) eqn:E; simpl.
    + apply String.eqb_eq in E; subst c0.
      destruct (String.eqb c' c) eqn:E'; [apply String.eqb_eq in E'; congruence | reflexivity].
    + now rewrite IH.
Qed.

Lemma find_del_same c es :
  nodupb (map fst es) = true -> find_ent c (del_ent c es) = None.
Proof.
  induction es as [|[c' n'] es IH]; simpl; [reflexivity|].
  rewrite andb_true_iff, negb_true_iff. intros [Hn Hd].
  destruct (String.eqb c c') eqn:E; simpl.
  - apply String.eqb_eq in E; subst c'.
    clear IH Hd. induction es as [|[c0 n0] es IH]; simpl in *; [reflexivity|].
    apply orb_false_iff in Hn. destruct Hn as [-> Hn]. auto.
  - rewrite E. auto.
Qed.

Lemma find_del_other c c' es :
  c <> c' -> find_ent c' (del_ent c es) = find_ent c' es.
Proof.
  intros Hne. induction es as [|[c0 n0] es IH]; simpl; [reflexivity|].
  destruct (String.eqb c c0) eqn:E; simpl.
  - apply String.eqb_eq in E; subst c0.
    destruct (String.eqb c' c) eqn:E'; [apply String.eqb_eq in E'; congruence | reflexivity].
  - now rewrite IH.
Qed.

Lemma resolve_app (fs : node) (p r : path) :
  resolve fs (p ++ r) =
  match resolve fs p with Ok n => resolve n r | Err e => Err e end.
Proof.
  revert fs; induction p as [|c p IH]; intros fs; simpl; [reflexivity|].
  destruct fs as [|m es]; [reflexivity|].
  destruct (find_ent c es); [apply IH | reflexivity].
Qed.

(** ** Induction on trees *)

Section NodeInduction.

Variable P : node -> Prop.
Hypothesis P_file : forall m t d, P (File m t d).
Hypothesis P_dir :
  forall m es, Forall (fun e => P (snd e)) es -> P (Dir m es).

Fixpoint node_induction (n : node) : P n :=
  match n with
  | File m t d => P_file m t d
  | Dir m es =>
      P_dir m
        ((fix all (es : list (string * node))
            : Forall (fun e => P (snd e)) es :=
            match es with
            | [] => Forall_nil _
            | e :: es' => Forall_cons e (node_induction (snd e)) (all es')
            end) es)
  end.

End NodeInduction.

Lemma ndirs_Dir m es :
  ndirs (Dir m es) = S (list_sum (map (fun e => ndirs (snd e)) es)).
Proof.
  simpl. f_equal. induction es as [|[c n] es IH]; simpl; auto.
Qed.

Lemma walk_list_Dir top m es :
  walk_list top (Dir m es) =
  yields top es
  ++ flat_map (fun e => walk_list (top ++ [fst e]) (snd e)) es.
Proof.
  simpl. f_equal. induction es as [|[c n] es IH]; simpl; auto.
  now rewrite IH.
Qed.

Lemma wf_Dir m es :
  wf (Dir m es) =
  nodupb (map fst es) && forallb (fun e => wf (snd e)) es.
Proof.
  simpl. f_equal. induction es as [|[c n] es IH]; simpl; auto.
  now rewrite IH.
Qed.

Lemma nodupb_notin c l :
  existsb (String.eqb c) l = false <-> ~ In c l.
Proof.
  split.
  - intros H Hin. assert (existsb (String.eqb c) l = true).
    { apply existsb_exists. exists c. split; [assumption | apply String.eqb_refl]. }
    congruence.
  - intros H. destruct (existsb (String.eqb c) l) eqn:E; [|reflexivity].
    apply existsb_exists in E. destruct E as [x [Hx E]].
    apply String.eqb_eq in E. subst x. contradiction.
Qed.

Lemma nodupb_NoDup l : nodupb l = true <-> NoDup l.
Proof.
  induction l as [|c l IH]; simpl.
  - split; [constructor | reflexivity].
  - rewrite andb_true_iff, negb_true_iff, nodupb_notin, IH. split.
    + intros [H1 H2]. now constructor.
    + intros H. inversion H; subst. now split.
Qed.

Lemma find_ent_In c n es : find_ent c es = Some n -> In (c, n) es.
Proof.
  induction es as [|[c' n'] es IH]; simpl; [discriminate|].
  destruct (String.eqb c c') eqn:E.
  - apply String.eqb_eq in E. intros [= ->]. subst. now left.
  - intros H. right. auto.
Qed.

Lemma find_ent_None c es : find_ent c es = None <-> ~ In c (map fst es).
Proof.
  induction es as [|[c' n'] es IH]; simpl.
  - tauto.
  - destruct (String.eqb c c') eqn:E.
    + apply String.eqb_eq in E. subst. split; [discriminate | intros H; exfalso; auto].
    + apply String.eqb_neq in E. rewrite IH. split.
      * intros H [H'|H']; [congruence | auto].
      * intros H H'. apply H. now right.
Qed.

Lemma In_find_ent c n es :
  NoDup (map fst es) -> In (c, n) es -> find_ent c es = Some n.
Proof.
  induction es as [|[c' n'] es IH]; simpl; [tauto|].
  intros Hnd [H|H].
  - injection H as -> ->. now rewrite String.eqb_refl.
  - inversion Hnd; subst. destruct (String.eqb c c') eqn:E.
    + apply String.eqb_eq in E. subst c'. exfalso. apply H2.
      apply in_map_iff. now exists (c, n).
    + auto.
Qed.

Lemma set_ent_names c n es :
  map fst (set_ent c n es) =
  match find_ent c es with
  | Some _ => map fst es
  | None => map fst es ++ [c]
  end.
Proof.
  induction es as [|[c' n'] es IH]; simpl; [reflexivity|].
  destruct (String.eqb c c') eqn:E; simpl.
  - apply String.eqb_eq in E. now subst.
  - rewrite IH. now destruct (find_ent c es).
Qed.

Lemma set_ent_nodup c n es :
  nodupb (map fst es) = true -> nodupb (map fst (set_ent c n es)) = true.
Proof.
  rewrite !nodupb_NoDup, set_ent_names. intros H.
  destruct (find_ent c es) eqn:E; [assumption|].
  apply find_ent_None in E.
  apply NoDup_app; [assumption | repeat constructor; simpl; tauto |].
  intros x Hx [<-|[]]. contradiction.
Qed.

Lemma set_ent_forallb (Q : node -> bool) c n es :
  Q n = true -> forallb (fun e => Q (snd e)) es = true ->
  forallb (fun e => Q (snd e)) (set_ent c n es) = true.
Proof.
  intros Hn. induction es as [|[c' n'] es IH]; simpl.
  - now rewrite Hn.
  - rewrite andb_true_iff. intros [H1 H2].
    destruct (String.eqb c c'); simpl; rewrite ?Hn, ?H1; simpl; auto.
Qed.

Lemma del_ent_incl c es : incl (del_ent c es) es.
Proof.
  induction es as [|[c' n'] es IH]; simpl; [apply incl_refl|].
  destruct (String.eqb c c').
  - apply incl_tl, incl_refl.
  - apply incl_cons; [now left | now apply incl_tl].
Qed.

Lemma del_ent_nodup c es :
  nodupb (map fst es) = true -> nodupb (map fst (del_ent c es)) = true.
Proof.
  rewrite !nodupb_NoDup.
  induction es as [|[c' n'] es IH]; simpl; [auto|].
  intros H. inversion H; subst.
  destruct (String.eqb c c'); [assumption|]. simpl. constructor; [|auto].
  intros Hin. apply H2. apply in_map_iff in Hin. destruct Hin as [[x y] [Hx Hin]].
  apply in_map_iff. exists (x, y). split; [assumption|].
  eapply del_ent_incl; eassumption.
Qed.

Lemma del_ent_forallb (Q : node -> bool) c es :
  forallb (fun e => Q (snd e)) es = true ->
  forallb (fun e => Q (snd e)) (del_ent c es) = true.
Proof.
  rewrite !forallb_forall. intros H x Hx. apply H.
  eapply del_ent_incl; eassumption.
Qed.

Lemma wf_find c n m es :
  wf (Dir m es) = true -> find_ent c es = Some n -> wf n = true.
Proof.
  rewrite wf_Dir, andb_true_iff. intros [_ H] Hf.
  apply find_ent_In in Hf. rewrite forallb_forall in H. apply (H _ Hf).
Qed.

Lemma wf_resolve fs p n : wf fs = true -> resolve fs p = Ok n -> wf n = true.
Proof.
  revert fs; induction p as [|c p IH]; intros fs Hwf; simpl.
  - now intros [= <-].
  - destruct fs as [|m es]; [discriminate|].
    destruct (find_ent c es) eqn:E; [|discriminate].
    apply IH. eapply wf_find; eassumption.
Qed.

(** ** What a system call changes and what it leaves *)

Lemma view_stat fs p : view fs p = option_map fst (stat fs p).
Proof. unfold view, stat. now destruct (resolve fs p). Qed.

Lemma mode_at_stat fs p : mode_at fs p = option_map snd (stat fs p).
Proof. unfold mode_at, stat. now destruct (resolve fs p). Qed.

Lemma isdir_view fs p : isdir fs p = true <-> view fs p = Some IsDir.
Proof.
  unfold isdir, view. destruct (resolve fs p) as [[|]|]; simpl;
    split; congruence.
Qed.

Lemma isdir_resolve fs p n :
  resolve fs p = Ok n -> is_dir_node n = true -> isdir fs p = true.
Proof. unfold isdir. intros ->. now destruct n. Qed.

Lemma alter_resolve_other f q fs fs' p :
  alter f q fs = Ok fs' -> overlap p q = false ->
  resolve fs' p = resolve fs p.
Proof.
  revert fs fs' p. induction q as [|c q IH]; intros fs fs' p H Hov.
  - unfold overlap in Hov. simpl in Hov. now rewrite orb_true_r in Hov.
  - destruct p as [|a p]; [discriminate|].
    simpl in H. destruct fs as [|m es]; [discriminate|].
    unfold overlap in Hov. simpl in Hov.
    destruct (String.eqb a c) eqn:E.
    + apply String.eqb_eq in E. subst a.
      rewrite String.eqb_refl in Hov. simpl in Hov.
      destruct q as [|c' q].
      { destruct p; simpl in Hov; discriminate. }
      destruct (find_ent c es) as [child|] eqn:Ef; [|discriminate].
      destruct (alter f (c' :: q) child) as [child'|] eqn:Ea; [|discriminate].
      injection H as <-. simpl. rewrite find_set_same, Ef.
      apply (IH _ _ _ Ea). exact Hov.
    + apply String.eqb_neq in E.
      assert (forall es', find_ent a es' = find_ent a es ->
                resolve (Dir m es') (a :: p) = resolve (Dir m es) (a :: p)) as K.
      { intros es' He. simpl. now rewrite He. }
      destruct q as [|c' q].
      * destruct (f (find_ent c es)) as [[n'|]|]; try discriminate;
          injection H as <-; apply K.
        -- apply find_set_other; congruence.
        -- apply find_del_other; congruence.
      * destruct (find_ent c es) as [child|]; [|discriminate].
        destruct (alter f (c' :: q) child); [|discriminate].
        injection H as <-. apply K. apply find_set_other; congruence.
Qed.

Lemma alter_stat_outside f q fs fs' p :
  alter f q fs = Ok fs' -> is_prefix q p = false ->
  stat fs' p = stat fs p.
Proof.
  revert fs fs' p. induction q as [|c q IH]; intros fs fs' p H Hp.
  - discriminate.
  - simpl in H. destruct fs as [|m es]; [discriminate|].
    assert (exists es', fs' = Dir m es') as [es' ->].
    { destruct q as [|c' q].
      - destruct (f (find_ent c es)) as [[n'|]|]; try discriminate;
          injection H as <-; eauto.
      - destruct (find_ent c es); [|discriminate].
        destruct (alter f (c' :: q) n); [|discriminate].
        injection H as <-; eauto. }
    destruct p as [|a p]; [reflexivity|].
    simpl in Hp. destruct (String.eqb c a) eqn:E.
    + apply String.eqb_eq in E. subst a. simpl in Hp.
      destruct q as [|c' q]; [discriminate|].
      destruct (find_ent c es) as [child|] eqn:Ef; [|discriminate].
      destruct (alter f (c' :: q) child) as [child'|] eqn:Ea; [|discriminate].
      injection H as <-. unfold stat. simpl. rewrite find_set_same, Ef.
      apply (IH _ _ _ Ea Hp).
    + apply String.eqb_neq in E.
      assert (find_ent a es' = find_ent a es) as K.
      { destruct q as [|c' q].
        - destruct (f (find_ent c es)) as [[n'|]|]; try discriminate;
            injection H as <-.
          + now apply find_set_other.
          + now apply find_del_other.
        - destruct (find_ent c es); [|discriminate].
          destruct (alter f (c' :: q) n); [|discriminate].
          injection H as <-. now apply find_set_other. }
      unfold stat. simpl. now rewrite K.
Qed.

Lemma alter_lookup f q fs fs' :
  (forall o, f o = Ok None -> wf fs = true) ->
  alter f q fs = Ok fs' ->
  exists r, f (lookup fs q) = Ok r /\ lookup fs' q = r.
Proof.
  revert fs fs'. induction q as [|c q IH]; intros fs fs' Hwf H.
  - simpl in H. unfold lookup. simpl.
    destruct (f (Some fs)) as [[n'|]|]; try discriminate.
    injection H as <-. now exists (Some n').
  - simpl in H. destruct fs as [|m es]; [discriminate|].
    destruct q as [|c' q].
    + unfold lookup. simpl.
      replace (match match find_ent c es with
                     | Some n => Ok n | None => Err FileNotFoundError end with
               | Ok n => Some n | Err _ => None end) with (find_ent c es)
        by now destruct (find_ent c es).
      destruct (f (find_ent c es)) as [[n'|]|] eqn:E; try discriminate;
        injection H as <-.
      * exists (Some n'). now rewrite find_set_same.
      * exists None. rewrite find_del_same; [tauto|].
        specialize (Hwf _ E).
        rewrite wf_Dir in Hwf. now apply andb_true_iff in Hwf.
    + destruct (find_ent c es) as [child|] eqn:Ef; [|discriminate].
      destruct (alter f (c' :: q) child) as [child'|] eqn:Ea; [|discriminate].
      injection H as <-.
      assert (forall o, f o = Ok None -> wf child = true) as Hc.
      { intros o Ho. eapply wf_find; [apply (Hwf _ Ho) | eassumption]. }
      destruct (IH _ _ Hc Ea) as [r [Hr1 Hr2]].
      exists r. unfold lookup in *. simpl resolve at 1 in Hr1.
      simpl. rewrite find_set_same, Ef. auto.
Qed.

Lemma alter_wf f q fs fs' :
  (forall o n, f o = Ok (Some n) ->
     match o with Some n0 => wf n0 = true | None => True end -> wf n = true) ->
  wf fs = true -> alter f q fs = Ok fs' -> wf fs' = true.
Proof.
  intros Hf. revert fs fs'. induction q as [|c q IH]; intros fs fs' Hwf H.
  - simpl in H. destruct (f (Some fs)) as [[n'|]|] eqn:E; try discriminate.
    injection H as <-. apply (Hf _ _ E Hwf).
  - simpl in H. destruct fs as [|m es]; [discriminate|].
    pose proof Hwf as Hwf'. rewrite wf_Dir, andb_true_iff in Hwf'.
    destruct Hwf' as [Hnd Hall].
    destruct q as [|c' q].
    + destruct (f (find_ent c es)) as [[n'|]|] eqn:E; try discriminate;
        injection H as <-; rewrite wf_Dir, andb_true_iff; split.
      * now apply set_ent_nodup.
      * apply set_ent_forallb; [|assumption]. apply (Hf _ _ E).
        destruct (find_ent c es) eqn:Ef; [|exact I]. eapply wf_find; eassumption.
      * now apply del_ent_nodup.
      * now apply del_ent_forallb.
    + destruct (find_ent c es) as [child|] eqn:Ef; [|discriminate].
      destruct (alter f (c' :: q) child) as [child'|] eqn:Ea; [|discriminate].
      injection H as <-. rewrite wf_Dir, andb_true_iff; split.
      * now apply set_ent_nodup.
      * apply set_ent_forallb; [|assumption].
        assert (wf child = true) as Hc by (eapply wf_find; eassumption).
        apply (IH _ _ Hc Ea).
Qed.

Section MakedirsFacts.

Variable umask : Z.

Lemma makedirs_resolve_other q fs fs' p :
  makedirs umask q fs = Ok fs' -> overlap p q = false ->
  resolve fs' p = resolve fs p.
Proof.
  revert fs fs' p. induction q as [|c q IH]; intros fs fs' p H Hov.
  - unfold overlap in Hov. simpl in Hov. now rewrite orb_true_r in Hov.
  - destruct p as [|a p]; [discriminate|].
    simpl in H. destruct fs as [|m es]; [discriminate|].
    unfold overlap in Hov. simpl in Hov.
    destruct (String.eqb a c) eqn:E.
    + apply String.eqb_eq in E. subst a.
      rewrite String.eqb_refl in Hov. simpl in Hov.
      destruct (find_ent c es) as [child|] eqn:Ef.
      * destruct (makedirs umask q child) as [child'|] eqn:Ea; [|discriminate].
        injection H as <-. simpl. rewrite find_set_same, Ef.
        apply (IH _ _ _ Ea Hov).
      * destruct (makedirs umask q (Dir (new_dir_mode umask) [])) as [child'|] eqn:Ea;
          [|discriminate].
        injection H as <-. simpl. rewrite find_set_same, Ef.
        rewrite (IH _ _ _ Ea Hov).
        destruct p as [|b p]; [|reflexivity].
        simpl in Hov. discriminate.
    + apply String.eqb_neq in E.
      assert (exists n, fs' = Dir m (set_ent c n es)) as [n ->].
      { destruct (find_ent c es).
        - destruct (makedirs umask q n); [|discriminate]. injection H as <-. eauto.
        - destruct (makedirs umask q (Dir (new_dir_mode umask) [])); [|discriminate].
          injection H as <-. eauto. }
      simpl. rewrite find_set_other by congruence. reflexivity.
Qed.

(** [makedirs] leaves whatever exists as it is and puts a directory at
    every missing prefix of the path. *)
Lemma makedirs_stat q fs fs' p :
  makedirs umask q fs = Ok fs' ->
  stat fs' p =
  match stat fs p with
  | Some s => Some s
  | None => if is_prefix p q then Some (IsDir, new_dir_mode umask) else None
  end.
Proof.
  revert fs fs' p. induction q as [|c q IH]; intros fs fs' p H.
  - simpl in H. destruct fs as [|m es]; [discriminate|]. injection H as <-.
    destruct (stat (Dir m es) p) eqn:E; [reflexivity|].
    destruct p; [discriminate | reflexivity].
  - simpl in H. destruct fs as [|m es]; [discriminate|].
    assert (exists n, fs' = Dir m (set_ent c n es) /\
              makedirs umask q
                (match find_ent c es with
                 | Some child => child
                 | None => Dir (new_dir_mode umask) []
                 end) = Ok n) as [n [-> Hn]].
    { destruct (find_ent c es).
      - destruct (makedirs umask q n) eqn:E; [|discriminate].
        injection H as <-. eauto.
      - destruct (makedirs umask q (Dir (new_dir_mode umask) [])) eqn:E;
          [|discriminate].
        injection H as <-. eauto. }
    destruct p as [|a p]; [reflexivity|].
    destruct (String.eqb a c) eqn:E.
    + apply String.eqb_eq in E. subst a.
      unfold stat at 1. simpl resolve. rewrite find_set_same.
      fold (stat n p). rewrite (IH _ _ p Hn).
      unfold stat at 2. simpl resolve. simpl is_prefix.
      rewrite String.eqb_refl. simpl.
      destruct (find_ent c es) as [child|] eqn:Ef.
      * fold (stat child p). reflexivity.
      * destruct p as [|b p]; [reflexivity|].
        unfold stat. simpl. reflexivity.
    + unfold stat. simpl resolve.
      apply String.eqb_neq in E.
      rewrite find_set_other by congruence.
      simpl is_prefix. apply String.eqb_neq in E. rewrite E. simpl.
      now destruct (match find_ent a es with
                    | Some n0 => resolve n0 p
                    | None => Err FileNotFoundError end).
Qed.

Lemma makedirs_view_prefix q fs fs' p :
  makedirs umask q fs = Ok fs' -> is_prefix p q = true ->
  view fs' p = Some IsDir.
Proof.
  revert fs fs' p. induction q as [|c q IH]; intros fs fs' p H Hp.
  - destruct p; [|discriminate]. simpl in H.
    destruct fs; [discriminate|]. now injection H as <-.
  - simpl in H. destruct fs as [|m es]; [discriminate|].
    assert (exists n n0, fs' = Dir m (set_ent c n es) /\
              makedirs umask q n0 = Ok n) as [n [n0 [-> Hn]]].
    { destruct (find_ent c es).
      - destruct (makedirs umask q n) eqn:E; [|discriminate].
        injection H as <-. eauto.
      - destruct (makedirs umask q (Dir (new_dir_mode umask) [])) eqn:E;
          [|discriminate].
        injection H as <-. eauto. }
    destruct p as [|a p]; [reflexivity|].
    simpl in Hp. apply andb_true_iff in Hp. destruct Hp as [Ea Hp].
    apply String.eqb_eq in Ea. subst a.
    unfold view. simpl. rewrite find_set_same.
    apply (IH _ _ _ Hn Hp).
Qed.

Lemma makedirs_isdir q fs fs' :
  makedirs umask q fs = Ok fs' -> isdir fs' q = true.
Proof.
  intros H. apply isdir_view. eapply makedirs_view_prefix; eauto.
  apply is_prefix_refl.
Qed.

(** [makedirs] fails only when a regular file is on the way. *)
Lemma makedirs_ok q fs :
  (forall p, is_prefix p q = true ->
     view fs p = None \/ view fs p = Some IsDir) ->
  exists fs', makedirs umask q fs = Ok fs'.
Proof.
  revert fs. induction q as [|c q IH]; intros fs H.
  - destruct (H [] eq_refl) as [H0|H0]; unfold view in H0; simpl in H0;
      [discriminate|].
    destruct fs; [discriminate|]. simpl. eauto.
  - destruct (H [] eq_refl) as [H0|H0]; unfold view in H0; simpl in H0;
      [discriminate|].
    destruct fs as [|m es]; [discriminate|]. simpl.
    destruct (find_ent c es) as [child|] eqn:Ef.
    + destruct (IH child) as [n Hn].
      { intros p Hp. specialize (H (c :: p)). simpl in H.
        rewrite String.eqb_refl in H. specialize (H Hp).
        unfold view in *. simpl in H. now rewrite Ef in H. }
      rewrite Hn. eauto.
    + destruct (IH (Dir (new_dir_mode umask) [])) as [n Hn].
      { intros p _. destruct p; [now right | now left]. }
      rewrite Hn. eauto.
Qed.

Lemma makedirs_wf q fs fs' :
  wf fs = true -> makedirs umask q fs = Ok fs' -> wf fs' = true.
Proof.
  revert fs fs'. induction q as [|c q IH]; intros fs fs' Hwf H.
  - simpl in H. destruct fs; [discriminate|]. now injection H as <-.
  - simpl in H. destruct fs as [|m es]; [discriminate|].
    pose proof Hwf as Hwf'. rewrite wf_Dir, andb_true_iff in Hwf'.
    destruct Hwf' as [Hnd Hall].
    assert (exists n, fs' = Dir m (set_ent c n es) /\ wf n = true)
      as [n [-> Hn]].
    { destruct (find_ent c es) eqn:Ef.
      - destruct (makedirs umask q n) eqn:E; [|discriminate].
        injection H as <-. eexists; split; [reflexivity|].
        eapply IH; [|eassumption]. eapply wf_find; eassumption.
      - destruct (makedirs umask q (Dir (new_dir_mode umask) [])) eqn:E;
          [|discriminate].
        injection H as <-. eexists; split; [reflexivity|].
        eapply IH; [|eassumption]. reflexivity. }
    rewrite wf_Dir, andb_true_iff. split.
    + now apply set_ent_nodup.
    + now apply set_ent_forallb.
Qed.

End MakedirsFacts.

(** ** Writing a file and changing a mode *)

Lemma lookup_resolve fs p n : lookup fs p = Some n <-> resolve fs p = Ok n.
Proof. unfold lookup. destruct (resolve fs p); split; congruence. Qed.

Lemma stat_lookup fs p :
  stat fs p = option_map (fun n => (item_of n, node_mode n)) (lookup fs p).
Proof. unfold stat, lookup. now destruct (resolve fs p). Qed.

Lemma stat_inside_file fs q r n :
  lookup fs q = Some n -> is_dir_node n = false -> r <> [] ->
  stat fs (q ++ r) = None.
Proof.
  intros Hq Hn Hr. apply lookup_resolve in Hq.
  unfold stat. rewrite resolve_app, Hq.
  destruct n; [|discriminate]. destruct r; [congruence | reflexivity].
Qed.

Lemma stat_inside_none fs q r :
  lookup fs q = None -> stat fs (q ++ r) = None.
Proof.
  unfold lookup, stat. rewrite resolve_app.
  now destruct (resolve fs q).
Qed.

Lemma write_file_stat q m t d fs fs' p :
  write_file q (File m t d) fs = Ok fs' ->
  stat fs' p =
  if path_eqb p q then Some (IsFile m t d, m) else stat fs p.
Proof.
  intros H. unfold write_file in H.
  destruct (is_prefix q p) eqn:Ep.
  - apply is_prefix_spec in Ep. destruct Ep as [r ->].
    match type of H with alter ?f _ _ = _ =>
      destruct (@alter_lookup f q fs fs') as [x [Hx1 Hx2]];
        [intros [[]|]; discriminate | exact H | cbv beta in Hx1]
    end.
    destruct (lookup fs q) as [[m0 t0 d0|m0 es0]|] eqn:El; try discriminate;
      injection Hx1 as <-.
    + destruct r as [|c r].
      * rewrite app_nil_r, path_eqb_refl, stat_lookup, Hx2. reflexivity.
      * replace (path_eqb (q ++ c :: r) q) with false.
        2:{ symmetry. destruct (path_eqb (q ++ c :: r) q) eqn:E; [|reflexivity].
            apply path_eqb_eq in E. rewrite <- (app_nil_r q) in E at 2.
            apply app_inv_head in E. discriminate. }
        rewrite (@stat_inside_file fs' q (c :: r) _ Hx2), (@stat_inside_file fs q (c :: r) _ El);
          auto; discriminate.
    + destruct r as [|c r].
      * rewrite app_nil_r, path_eqb_refl, stat_lookup, Hx2. reflexivity.
      * replace (path_eqb (q ++ c :: r) q) with false.
        2:{ symmetry. destruct (path_eqb (q ++ c :: r) q) eqn:E; [|reflexivity].
            apply path_eqb_eq in E. rewrite <- (app_nil_r q) in E at 2.
            apply app_inv_head in E. discriminate. }
        rewrite (@stat_inside_file fs' q (c :: r) _ Hx2), (@stat_inside_none fs q (c :: r) El);
          auto; discriminate.
  - rewrite (alter_stat_outside _ _ _ _ H Ep).
    destruct (path_eqb p q) eqn:E; [|reflexivity].
    apply path_eqb_eq in E. subst. now rewrite is_prefix_refl in Ep.
Qed.

Lemma write_file_ok d c new fs :
  isdir fs d = true -> view fs (d ++ [c]) <> Some IsDir ->
  exists fs', write_file (d ++ [c]) new fs = Ok fs'.
Proof.
  unfold write_file. revert fs. induction d as [|a d IH]; intros fs Hd Hv.
  - unfold isdir in Hd. simpl in Hd. destruct fs as [|m es]; [discriminate|].
    simpl. unfold view in Hv. simpl in Hv.
    destruct (find_ent c es) as [[|]|]; eauto. now elim Hv.
  - unfold isdir in Hd. simpl in Hd. destruct fs as [|m es]; [discriminate|].
    destruct (find_ent a es) as [child|] eqn:Ef; [|discriminate].
    destruct (IH child) as [n Hn].
    + exact Hd.
    + unfold view in *. simpl in Hv. now rewrite Ef in Hv.
    + simpl. rewrite Ef. destruct (d ++ [c]) eqn:E.
      * destruct d; discriminate.
      * rewrite Hn. eauto.
Qed.

Lemma write_file_wf q m t d fs fs' :
  wf fs = true -> write_file q (File m t d) fs = Ok fs' -> wf fs' = true.
Proof.
  intros Hwf H. eapply alter_wf; [|eassumption|exact H].
  intros [[|]|] n; try discriminate; intros [= <-]; reflexivity.
Qed.

Lemma chmod_lookup q mode fs fs' :
  chmod q mode fs = Ok fs' ->
  exists n, lookup fs q = Some n /\ lookup fs' q = Some (set_mode mode n).
Proof.
  intros H. unfold chmod in H.
  match type of H with alter ?f _ _ = _ =>
    destruct (@alter_lookup f q fs fs') as [x [Hx1 Hx2]];
      [intros [[]|]; discriminate | exact H | cbv beta in Hx1]
  end.
  destruct (lookup fs q) as [[m0 t0 d0|m0 es0]|] eqn:El; try discriminate;
    injection Hx1 as <-; eauto.
Qed.

Lemma chmod_mode_at q mode fs fs' p :
  chmod q mode fs = Ok fs' ->
  mode_at fs' p = if path_eqb p q then Some mode else mode_at fs p.
Proof.
  intros H. destruct (chmod_lookup _ _ _ H) as [n [Hn Hn']].
  destruct (is_prefix q p) eqn:Ep.
  - apply is_prefix_spec in Ep. destruct Ep as [r ->].
    apply lookup_resolve in Hn, Hn'.
    unfold mode_at. rewrite !resolve_app, Hn, Hn'.
    destruct r as [|c r].
    + rewrite app_nil_r, path_eqb_refl. now destruct n.
    + replace (path_eqb (q ++ c :: r) q) with false.
      2:{ symmetry. destruct (path_eqb (q ++ c :: r) q) eqn:E; [|reflexivity].
          apply path_eqb_eq in E. rewrite <- (app_nil_r q) in E at 2.
          apply app_inv_head in E. discriminate. }
      now destruct n.
  - rewrite !mode_at_stat. unfold chmod in H.
    rewrite (alter_stat_outside _ _ _ _ H Ep).
    destruct (path_eqb p q) eqn:E; [|reflexivity].
    apply path_eqb_eq in E. subst. now rewrite is_prefix_refl in Ep.
Qed.

Lemma chmod_ok q mode fs n :
  lookup fs q = Some n -> exists fs', chmod q mode fs = Ok fs'.
Proof.
  unfold chmod, lookup. revert fs. induction q as [|c q IH]; intros fs H.
  - simpl. destruct fs; eauto.
  - simpl in *. destruct fs as [|m es]; [discriminate|].
    destruct (find_ent c es) as [child|] eqn:Ef; [|discriminate].
    destruct q as [|c' q].
    + destruct child; eauto.
    + destruct (IH _ H) as [n' Hn']. rewrite Hn'. eauto.
Qed.

Lemma chmod_wf q mode fs fs' :
  wf fs = true -> chmod q mode fs = Ok fs' -> wf fs' = true.
Proof.
  intros Hwf H. eapply alter_wf; [|eassumption|exact H].
  intros [[|]|] n; try discriminate; intros [= <-]; auto.
Qed.

(** ** Loops *)

Lemma for_each_app {S A X} (body : X -> A -> M S A) l1 l2 acc s :
  for_each body (l1 ++ l2) acc s =
  (acc' <- for_each body l1 acc ;; for_each body l2 acc') s.
Proof.
  revert acc s. induction l1 as [|x l1 IH]; intros acc s; simpl.
  - reflexivity.
  - unfold bind in *. destruct (body x acc s) as [a' s'| |]; auto.
Qed.

Lemma for_each_cons {S A X} (body : X -> A -> M S A) x xs acc s :
  for_each body (x :: xs) acc s =
  match body x acc s with
  | Ret a s' => for_each body xs a s'
  | Exc e s' => Exc e s'
  | Timeout => Timeout
  end.
Proof. reflexivity. Qed.

Lemma filter_cons_app {X} (f : X -> bool) x l :
  filter f (x :: l) = (if f x then [x] else []) ++ filter f l.
Proof. simpl. now destruct (f x). Qed.

Lemma bind_stops_in {S A B} (P : S -> Prop) (m : M S A) (k : A -> M S B) s :
  stops_in P (m s) -> (forall a s', P s' -> stops_in P (k a s')) ->
  stops_in P ((x <- m ;; k x) s).
Proof.
  unfold bind. destruct (m s); simpl; auto.
Qed.

Lemma for_each_stops_in {S A X} (P : S -> Prop) (body : X -> A -> M S A) :
  (forall x a s, P s -> stops_in P (body x a s)) ->
  forall xs acc s, P s -> stops_in P (for_each body xs acc s).
Proof.
  intros Hb. induction xs as [|x xs IH]; intros acc s Hs; simpl.
  - exact Hs.
  - apply bind_stops_in; auto.
Qed.

Lemma syscall_stops_in {S} (P : S -> Prop) (op : S -> res S) s :
  P s -> (forall s', op s = Ok s' -> P s') -> stops_in P (syscall op s).
Proof.
  unfold syscall. intros Hs H. destruct (op s); simpl; auto.
Qed.

Lemma os_walk_stops_in {A} (P : node -> Prop) (body : entry -> A -> M node A) :
  (forall x a s, P s -> stops_in P (body x a s)) ->
  forall fuel stack acc fs, P fs -> stops_in P (os_walk body fuel stack acc fs).
Proof.
  intros Hb. induction fuel as [|fuel IH]; intros stack acc fs Hfs.
  - destruct stack; simpl; auto.
  - destruct stack as [|top rest]; simpl; auto.
    destruct (scandir fs top) as [es|]; [|auto].
    pose proof (for_each_stops_in P body Hb (yields top es) acc fs Hfs) as K.
    destruct (for_each body (yields top es) acc fs); simpl in *; auto.
Qed.

(** ** A walk over a tree that the loop body leaves alone *)

Lemma list_sum_filter_dirs (es : list (string * node)) :
  list_sum (map (fun e => ndirs (snd e)) es) =
  list_sum (map (fun e => ndirs (snd e))
              (filter (fun e => is_dir_node (snd e)) es)).
Proof.
  induction es as [|[c [|]] es IH]; simpl; auto.
Qed.

Lemma forest_dirs_cons r m es ts :
  forest_dirs ((r, Dir m es) :: ts) =
  S (list_sum (map (fun e => ndirs (snd e)) es) + forest_dirs ts).
Proof.
  unfold forest_dirs. rewrite map_cons. cbn [snd].
  rewrite ndirs_Dir. reflexivity.
Qed.

Lemma forest_dirs_subdirs r es :
  forest_dirs (subdirs r es) = list_sum (map (fun e => ndirs (snd e)) es).
Proof.
  unfold forest_dirs, subdirs. rewrite map_map. simpl.
  symmetry. apply list_sum_filter_dirs.
Qed.

Lemma forest_walk_subdirs src r es :
  forest_walk src (subdirs r es) =
  flat_map (fun e => walk_list ((src ++ r) ++ [fst e]) (snd e)) es.
Proof.
  unfold forest_walk, subdirs.
  induction es as [|[c n] es IH]; [reflexivity|].
  cbn [filter snd fst]. destruct n as [m t d|m es'];
    cbn [is_dir_node map flat_map fst snd].
  - rewrite IH. reflexivity.
  - rewrite IH, app_assoc. reflexivity.
Qed.

Lemma subdirs_paths src r es :
  map (fun t => src ++ fst t) (subdirs r es) =
  map (fun d => (src ++ r) ++ [d]) (dirnames es).
Proof.
  unfold subdirs, dirnames. rewrite !map_map. apply map_ext.
  intros e. simpl. now rewrite app_assoc.
Qed.

Section Eager.

Variable A : Type.
Variable body : entry -> A -> M node A.
Variable src : path.
Variable tree : node.

Hypothesis body_keeps :
  forall e acc fs acc' fs',
    resolve fs src = Ok tree -> body e acc fs = Ret acc' fs' ->
    resolve fs' src = Ok tree.

Lemma for_each_keeps es acc fs acc' fs' :
  resolve fs src = Ok tree -> for_each body es acc fs = Ret acc' fs' ->
  resolve fs' src = Ok tree.
Proof.
  revert acc fs. induction es as [|e es IH]; intros acc fs Hfs; simpl.
  - now intros [= _ <-].
  - unfold bind. destruct (body e acc fs) as [a1 s1| |] eqn:E; try discriminate.
    apply IH. eapply body_keeps; eassumption.
Qed.

Lemma subdirs_in_tree r m es :
  in_tree tree (r, Dir m es) -> Forall (in_tree tree) (subdirs r es).
Proof.
  intros [Hr [_ Hwf]]. cbn [fst snd] in *. apply Forall_forall. intros [p n] Hin.
  unfold subdirs in Hin. apply in_map_iff in Hin.
  destruct Hin as [[c ch] [Heq Hin]]. simpl in Heq. injection Heq as <- <-.
  apply filter_In in Hin. destruct Hin as [Hin Hd]. simpl in Hd.
  pose proof Hwf as Hwf'. rewrite wf_Dir, andb_true_iff in Hwf'.
  destruct Hwf' as [Hnd Hall].
  assert (find_ent c es = Some ch) as Hf.
  { apply In_find_ent; [now apply nodupb_NoDup | assumption]. }
  repeat split; simpl.
  - rewrite resolve_app, Hr. simpl. now rewrite Hf.
  - assumption.
  - eapply wf_find; eassumption.
Qed.

(** With fuel for every directory of the forest on the stack, the lazy walk
    does what a loop over the listed entries does. *)
Lemma os_walk_forest n :
  forall ts k rest acc fs,
    forest_dirs ts = n -> Forall (in_tree tree) ts ->
    resolve fs src = Ok tree ->
    os_walk body (n + k) (map (fun t => src ++ fst t) ts ++ rest) acc fs =
    (acc' <- for_each body (forest_walk src ts) acc ;;
     os_walk body k rest acc') fs.
Proof.
  induction n as [|n IH]; intros ts k rest acc fs Hn Hts Hfs.
  - destruct ts as [|[r t] ts].
    + reflexivity.
    + exfalso. inversion Hts as [|? ? [_ [Hd _]] _]; subst. simpl in Hd.
      destruct t; [discriminate|]. rewrite forest_dirs_cons in Hn.
      discriminate.
  - destruct ts as [|[r t] ts]; [discriminate|].
    inversion Hts as [|? ? Ht Hts']; subst.
    pose proof Ht as [Hr [Hd Hwf]]. simpl in Hr, Hd, Hwf.
    destruct t as [|m es]; [discriminate|].
    rewrite forest_dirs_cons in Hn. injection Hn as Hn.
    cbn [map app fst]. cbn [os_walk Nat.add].
    unfold scandir. rewrite resolve_app, Hfs, Hr.
    unfold forest_walk. cbn [flat_map fst snd]. rewrite walk_list_Dir.
    unfold bind. rewrite <- !app_assoc. rewrite for_each_app. unfold bind.
    destruct (for_each body (yields (src ++ r) es) acc fs) as [a1 s1| |] eqn:E;
      try reflexivity.
    assert (resolve s1 src = Ok tree) as Hs1
      by (eapply for_each_keeps; eassumption).
    rewrite <- subdirs_paths, app_assoc, <- map_app.
    etransitivity.
    { apply (IH (subdirs r es ++ ts) k rest a1 s1).
      - unfold forest_dirs. rewrite map_app, list_sum_app.
        fold (forest_dirs (subdirs r es)). rewrite forest_dirs_subdirs.
        exact Hn.
      - apply Forall_app. split; [|assumption].
        eapply subdirs_in_tree; eassumption.
      - assumption. }
    unfold bind. rewrite <- forest_walk_subdirs.
    unfold forest_walk. rewrite flat_map_app. reflexivity.
Qed.

Lemma for_recursive_iglob_eager fuel acc fs :
  resolve fs src = Ok tree -> is_dir_node tree = true -> wf tree = true ->
  ndirs tree <= fuel ->
  for_recursive_iglob body fuel src acc fs =
  for_each body (walk_list src tree) acc fs.
Proof.
  intros Hfs Hd Hwf Hfuel. unfold for_recursive_iglob.
  rewrite (isdir_resolve _ _ Hfs Hd).
  replace fuel with (ndirs tree + (fuel - ndirs tree)) by lia.
  pose proof (@os_walk_forest (ndirs tree) [([], tree)]
                (fuel - ndirs tree) [] acc fs) as K.
  cbn [map app fst] in K. rewrite app_nil_r in K.
  etransitivity; [apply K|]; clear K.
  - unfold forest_dirs. simpl. lia.
  - constructor; [|constructor]. repeat split; assumption.
  - assumption.
  - unfold forest_walk. cbn [flat_map fst snd]. rewrite !app_nil_r.
    unfold bind.
    destruct (for_each body (walk_list src tree) acc fs); auto.
    now destruct (fuel - ndirs tree).
Qed.

End Eager.

(** ** The entries of a walk *)

Lemma yields_In top es k p :
  In (k, p) (yields top es) <->
  exists c ch, In (c, ch) es /\ p = top ++ [c] /\ k = kind_of ch.
Proof.
  unfold yields, dirnames, filenames. rewrite in_app_iff, !map_map, !in_map_iff.
  split.
  - intros [[[c ch] [Heq Hin]]|[[c ch] [Heq Hin]]];
      apply filter_In in Hin; destruct Hin as [Hin Hd]; simpl in *;
      injection Heq as <- <-; exists c, ch; destruct ch; try discriminate; auto.
  - intros [c [ch [Hin [-> ->]]]]. destruct ch as [m t d|m es'].
    + right. exists (c, File m t d). split; [reflexivity|].
      apply filter_In. auto.
    + left. exists (c, Dir m es'). split; [reflexivity|].
      apply filter_In. auto.
Qed.

Lemma walk_list_sound n :
  forall top k p,
    wf n = true -> In (k, p) (walk_list top n) ->
    exists r n', r <> [] /\ p = top ++ r /\ resolve n r = Ok n'
                 /\ k = kind_of n'.
Proof.
  induction n as [m t d|m es IH] using node_induction; intros top k p Hwf Hin.
  - destruct Hin.
  - rewrite walk_list_Dir in Hin. apply in_app_iff in Hin.
    pose proof Hwf as Hwf'. rewrite wf_Dir, andb_true_iff in Hwf'.
    destruct Hwf' as [Hnd Hall]. apply nodupb_NoDup in Hnd.
    destruct Hin as [Hin|Hin].
    + apply yields_In in Hin. destruct Hin as [c [ch [Hin [-> ->]]]].
      exists [c], ch. repeat split; [discriminate|].
      simpl. now rewrite (In_find_ent _ _ _ Hnd Hin).
    + apply in_flat_map in Hin. destruct Hin as [[c ch] [Hin Hw]].
      rewrite Forall_forall in IH. simpl in Hw.
      rewrite forallb_forall in Hall.
      destruct (IH _ Hin _ _ _ (Hall _ Hin) Hw) as [r [n' [Hr [-> [Hres ->]]]]].
      exists (c :: r), n'. repeat split; [discriminate | now rewrite <- app_assoc |].
      simpl. now rewrite (In_find_ent _ _ _ Hnd Hin).
Qed.

Lemma walk_list_complete r :
  forall n top n',
    r <> [] -> resolve n r = Ok n' ->
    In (kind_of n', top ++ r) (walk_list top n).
Proof.
  induction r as [|c r IH]; intros n top n' Hr Hres; [congruence|].
  simpl in Hres. destruct n as [|m es]; [discriminate|].
  destruct (find_ent c es) as [ch|] eqn:Ef; [|discriminate].
  apply find_ent_In in Ef. rewrite walk_list_Dir. apply in_app_iff.
  destruct r as [|c' r].
  - left. simpl in Hres. injection Hres as <-. apply yields_In. eauto.
  - right. apply in_flat_map. exists (c, ch). split; [assumption|].
    simpl. replace (top ++ c :: c' :: r) with ((top ++ [c]) ++ c' :: r)
      by now rewrite <- app_assoc.
    apply IH; [discriminate | assumption].
Qed.

Lemma walk_list_under n top p :
  wf n = true -> In p (map snd (walk_list top n)) ->
  exists r, r <> [] /\ p = top ++ r.
Proof.
  intros Hwf Hin. apply in_map_iff in Hin. destruct Hin as [[k p'] [<- Hin]].
  destruct (walk_list_sound _ _ _ _ Hwf Hin) as [r [n' [Hr [-> _]]]]. eauto.
Qed.

Lemma partition_names (es : list (string * node)) :
  Permutation (dirnames es ++ filenames es) (map fst es).
Proof.
  unfold dirnames, filenames.
  induction es as [|[c ch] es IH]; simpl; [constructor|].
  destruct (is_dir_node ch); simpl.
  - now constructor.
  - apply Permutation_sym. eapply Permutation_trans;
      [|apply Permutation_middle]. constructor. now apply Permutation_sym.
Qed.

Lemma snoc_inj (top : path) c c' : top ++ [c] = top ++ [c'] -> c = c'.
Proof. intros H. apply app_inv_head in H. congruence. Qed.

Lemma NoDup_map_snoc (top : path) (l : list string) :
  NoDup l -> NoDup (map (fun c => top ++ [c]) l).
Proof.
  induction 1 as [|c l Hc Hl IH]; simpl; constructor; [|assumption].
  intros Hin. apply in_map_iff in Hin. destruct Hin as [c' [Heq Hin]].
  apply snoc_inj in Heq. congruence.
Qed.

Lemma yields_paths top es :
  map snd (yields top es) =
  map (fun c => top ++ [c]) (dirnames es ++ filenames es).
Proof. unfold yields. now rewrite !map_app, !map_map. Qed.

Lemma yields_nodup top es :
  NoDup (map fst es) -> NoDup (map snd (yields top es)).
Proof.
  intros H. rewrite yields_paths. apply NoDup_map_snoc.
  eapply Permutation_NoDup; [|exact H].
  apply Permutation_sym, partition_names.
Qed.

Lemma flat_walk_nodup top es :
  NoDup (map fst es) ->
  (forall e, In e es ->
     wf (snd e) = true /\
     forall top, NoDup (map snd (walk_list top (snd e)))) ->
  NoDup (map snd
           (flat_map (fun e => walk_list (top ++ [fst e]) (snd e)) es)).
Proof.
  induction es as [|[c ch] es IH]; intros Hnd H; simpl; [constructor|].
  inversion Hnd as [|? ? Hc Hnd']; subst.
  rewrite map_app. apply NoDup_app.
  - apply (H (c, ch)). now left.
  - apply IH; [assumption|]. intros e He. apply H. now right.
  - intros p Hp Hp'.
    destruct (walk_list_under ch (top ++ [c]) p) as [r [Hr ->]];
      [apply (H (c, ch)); now left | assumption |].
    apply in_map_iff in Hp'. destruct Hp' as [[k p'] [Heq Hp']].
    simpl in Heq. subst p'. apply in_flat_map in Hp'.
    destruct Hp' as [[c' ch'] [Hin Hw]]. simpl in Hw.
    destruct (walk_list_under ch' (top ++ [c']) ((top ++ [c]) ++ r))
      as [r' [Hr' Heq]].
    + apply (H (c', ch')). now right.
    + apply in_map_iff. now exists (k, (top ++ [c]) ++ r).
    + rewrite <- !app_assoc in Heq. apply app_inv_head in Heq.
      simpl in Heq. injection Heq as -> _.
      apply Hc. apply in_map_iff. now exists (c', ch').
Qed.

(** No path is listed twice. *)
Lemma walk_list_nodup n :
  forall top, wf n = true -> NoDup (map snd (walk_list top n)).
Proof.
  induction n as [m t d|m es IH] using node_induction; intros top Hwf.
  - constructor.
  - pose proof Hwf as Hwf'. rewrite wf_Dir, andb_true_iff in Hwf'.
    destruct Hwf' as [Hnd Hall]. apply nodupb_NoDup in Hnd.
    rewrite forallb_forall in Hall. rewrite Forall_forall in IH.
    rewrite walk_list_Dir, map_app. apply NoDup_app.
    + now apply yields_nodup.
    + apply flat_walk_nodup; [assumption|].
      intros e He. split; [now apply Hall|].
      intros top'. apply IH; auto.
    + intros p Hp Hp'. rewrite yields_paths in Hp.
      apply in_map_iff in Hp. destruct Hp as [c [<- _]].
      apply in_map_iff in Hp'. destruct Hp' as [[k p'] [Heq Hp']].
      simpl in Heq. subst p'. apply in_flat_map in Hp'.
      destruct Hp' as [[c' ch'] [Hin Hw]]. simpl in Hw.
      destruct (walk_list_under ch' (top ++ [c']) (top ++ [c]))
        as [r' [Hr' Heq]].
      * now apply (Hall (c', ch')).
      * apply in_map_iff. now exists (k, top ++ [c]).
      * rewrite <- app_assoc in Heq. apply app_inv_head in Heq.
        simpl in Heq. injection Heq as _ Heq. destruct r'; congruence.
Qed.






(** ** The copy leaves its source alone *)

Lemma is_prefix_removelast (p q : path) :
  is_prefix p (removelast q) = true -> is_prefix p q = true.
Proof.
  intros H. apply is_prefix_spec in H. destruct H as [r Hr].
  apply is_prefix_spec. destruct q as [|a q] using rev_ind.
  - simpl in Hr. exists r. now rewrite Hr.
  - rewrite removelast_last in Hr. subst q. exists (r ++ [a]).
    now rewrite app_assoc.
Qed.

Section CopyFrame.

Variable umask : Z.

Lemma makedirs_keeps q fs fs' p n :
  makedirs umask q fs = Ok fs' -> resolve fs p = Ok n ->
  is_prefix p q = false -> resolve fs' p = Ok n.
Proof.
  revert fs fs' p. induction q as [|c q IH]; intros fs fs' p H Hp Hpre.
  - simpl in H. destruct fs; [discriminate|]. now injection H as <-.
  - destruct p as [|a p]; [discriminate|].
    simpl in H, Hp, Hpre. destruct fs as [|m es]; [discriminate|].
    destruct (find_ent a es) as [pa|] eqn:Ea; [|discriminate].
    destruct (String.eqb a c) eqn:E.
    + apply String.eqb_eq in E. subst a. rewrite Ea in H. simpl in Hpre.
      destruct (makedirs umask q pa) as [child'|] eqn:Em; [|discriminate].
      injection H as <-. simpl. rewrite find_set_same.
      apply (IH _ _ _ Em Hp Hpre).
    + apply String.eqb_neq in E.
      assert (exists x, fs' = Dir m (set_ent c x es)) as [x ->].
      { destruct (find_ent c es).
        - destruct (makedirs umask q n0); [|discriminate].
          injection H as <-. eauto.
        - destruct (makedirs umask q (Dir (new_dir_mode umask) []));
            [|discriminate].
          injection H as <-. eauto. }
      simpl. rewrite find_set_other by congruence. now rewrite Ea.
Qed.

Lemma copy2_writes a b fs fs' :
  copy2 a b fs = Ok fs' ->
  exists m t d x,
    resolve fs a = Ok (File m t d) /\
    (x = [] \/ x = [basename a]) /\
    write_file (b ++ x) (File m t d) fs = Ok fs'.
Proof.
  unfold copy2. intros H.
  destruct (resolve fs a) as [[m t d|m es]|] eqn:Ea; try discriminate.
  - destruct (isdir fs b).
    + destruct (path_eqb a (b ++ [basename a])); [discriminate|].
      exists m, t, d, [basename a]. auto.
    + destruct (path_eqb a b); [discriminate|].
      exists m, t, d, []. rewrite app_nil_r. auto.
  - destruct (path_eqb a _); discriminate.
Qed.

Variables src dst : path.
Variable exclude : list path.
Hypothesis apart : overlap src dst = false.

Lemma copy_tree_body_keeps tree e acc fs :
  resolve fs src = Ok tree ->
  stops_in (fun fs' => resolve fs' src = Ok tree)
    (copy_tree_body umask src dst exclude e acc fs).
Proof.
  intros Hfs. destruct e as [fd file_or_dir]. unfold copy_tree_body.
  destruct (in_dec path_eq_dec (relpath file_or_dir src) exclude);
    [exact Hfs|].
  set (x := relpath file_or_dir src).
  assert (is_prefix src (dst ++ x) = false) as Hx.
  { pose proof (proj1 (overlap_false _ _) apart) as [Ha Hb].
    now apply is_prefix_false_app. }
  apply bind_stops_in; [|intros; assumption].
  destruct fd.
  - apply syscall_stops_in; [assumption|].
    intros fs' H. eapply makedirs_keeps; eassumption.
  - apply bind_stops_in.
    + apply syscall_stops_in; [assumption|].
      intros fs' H. eapply makedirs_keeps; try eassumption.
      destruct (is_prefix src (dirname (dst ++ x))) eqn:E; [|reflexivity].
      apply is_prefix_removelast in E. congruence.
    + intros _ fs1 Hfs1. apply syscall_stops_in; [assumption|].
      intros fs' H. apply copy2_writes in H.
      destruct H as [m [t [d [y [_ [_ H]]]]]].
      unfold write_file in H.
      rewrite (alter_resolve_other _ _ _ src H); [assumption|].
      rewrite <- app_assoc. now apply overlap_app.
Qed.

(** The record of a copy: the targets of the entries that are not excluded,
    in the order of the walk. *)
Lemma copy_tree_body_record entries :
  forall acc fs acc' fs',
    for_each (copy_tree_body umask src dst exclude) entries acc fs
    = Ret acc' fs' ->
    acc' = acc ++ map (target src dst)
                    (filter (not_excluded src exclude) entries).
Proof.
  induction entries as [|[fd p] es IH]; intros acc fs acc' fs' H; simpl in *.
  - injection H as <- _. now rewrite app_nil_r.
  - unfold bind in H at 1. unfold copy_tree_body in H at 1.
    unfold not_excluded at 1. simpl snd.
    destruct (in_dec path_eq_dec (relpath p src) exclude).
    + simpl in H. now apply IH in H.
    + unfold bind at 1 in H.
      match type of H with
        match match ?X with _ => _ end with _ => _ end = _ =>
          destruct X as [u s1| |]; try discriminate
      end.
      simpl in H. apply IH in H. rewrite H. simpl.
      now rewrite <- app_assoc.
Qed.

End CopyFrame.

(** ** The copy as seen from its destination *)

Lemma is_prefix_app_app (d r q : path) :
  is_prefix (d ++ r) (d ++ q) = is_prefix r q.
Proof.
  induction d as [|a d IH]; simpl; [reflexivity|].
  now rewrite String.eqb_refl.
Qed.

Lemma path_eqb_app (d r q : path) : path_eqb (d ++ r) (d ++ q) = path_eqb r q.
Proof.
  unfold path_eqb. destruct (path_eq_dec r q) as [->|H].
  - now destruct (path_eq_dec (d ++ q) (d ++ q)).
  - destruct (path_eq_dec (d ++ r) (d ++ q)) as [E|E]; [|reflexivity].
    apply app_inv_head in E. contradiction.
Qed.

Lemma is_prefix_split (p d q : path) :
  is_prefix p (d ++ q) = true ->
  is_prefix p d = true \/
  exists r, r <> [] /\ p = d ++ r /\ is_prefix r q = true.
Proof.
  revert p. induction d as [|a d IH]; intros p H.
  - destruct p as [|b p]; [now left|]. right. exists (b :: p).
    repeat split; [discriminate | assumption].
  - destruct p as [|b p]; [now left|]. simpl in H.
    apply andb_true_iff in H. destruct H as [Hb H].
    apply String.eqb_eq in Hb. subst b.
    destruct (IH _ H) as [H'|[r [Hr [-> H']]]].
    + left. simpl. now rewrite String.eqb_refl.
    + right. exists r. auto.
Qed.

Lemma view_prefix_dir t (r x : path) :
  view t (r ++ x) <> None -> x <> [] -> view t r = Some IsDir.
Proof.
  unfold view. rewrite resolve_app. intros H Hx.
  destruct (resolve t r) as [[|]|]; try reflexivity; try (now elim H).
  destruct x; [congruence | now elim H].
Qed.

Lemma view_below_removelast t (r rel : path) :
  rel <> [] -> view t rel <> None -> is_prefix r (removelast rel) = true ->
  view t r = Some IsDir.
Proof.
  intros Hrel Hv Hr. destruct rel as [|a rel _] using rev_ind; [congruence|].
  rewrite removelast_last in Hr. apply is_prefix_spec in Hr.
  destruct Hr as [y ->]. rewrite <- app_assoc in Hv.
  eapply view_prefix_dir; [exact Hv|]. now destruct y.
Qed.

Lemma is_prefix_last (r rel : path) :
  rel <> [] ->
  is_prefix r rel = is_prefix r (removelast rel) || path_eqb r rel.
Proof.
  intros Hrel. destruct rel as [|a rel _] using rev_ind; [congruence|].
  rewrite removelast_last.
  destruct (is_prefix r (rel ++ [a])) eqn:E.
  - apply is_prefix_spec in E. destruct E as [y Hy].
    destruct y as [|b y _] using rev_ind.
    + rewrite app_nil_r in Hy. subst r. rewrite path_eqb_refl.
      now rewrite orb_true_r.
    + rewrite app_assoc in Hy. apply app_inj_tail in Hy.
      destruct Hy as [-> _]. now rewrite is_prefix_app.
  - symmetry. apply orb_false_iff. split.
    + destruct (is_prefix r rel) eqn:E'; [|reflexivity].
      apply is_prefix_spec in E'. destruct E' as [y ->].
      rewrite <- app_assoc in E. now rewrite is_prefix_app in E.
    + destruct (path_eqb r (rel ++ [a])) eqn:E'; [|reflexivity].
      apply path_eqb_eq in E'. subst r. now rewrite is_prefix_refl in E.
Qed.

Lemma removelast_app_ne (d rel : path) :
  rel <> [] -> removelast (d ++ rel) = d ++ removelast rel.
Proof. intros H. now apply removelast_app. Qed.

Section CopyInto.

Variable umask : Z.
Variables src dst : path.
Variable tree : node.
Hypothesis apart : overlap src dst = false.

Lemma view_makedirs q fs fs' p :
  makedirs umask q fs = Ok fs' ->
  view fs' p =
  match view fs p with
  | Some v => Some v
  | None => if is_prefix p q then Some IsDir else None
  end.
Proof.
  intros H. rewrite !view_stat, (makedirs_stat _ _ _ p H).
  destruct (stat fs p) as [[v md]|]; [reflexivity|].
  now destruct (is_prefix p q).
Qed.

Lemma view_write_file q m t d fs fs' p :
  write_file q (File m t d) fs = Ok fs' ->
  view fs' p = if path_eqb p q then Some (IsFile m t d) else view fs p.
Proof.
  intros H. rewrite !view_stat, (write_file_stat _ _ _ _ _ p H).
  now destruct (path_eqb p q).
Qed.

Lemma copy_inv_ext cov cov' fs :
  (forall r, r <> [] -> cov r = cov' r) ->
  copy_inv src dst tree cov fs -> copy_inv src dst tree cov' fs.
Proof.
  intros He [H1 [H2 [H3 H4]]]. repeat split; auto.
  - intros r Hr. rewrite <- He by assumption. auto.
  - intros r Hr Hc. rewrite <- He in Hc by assumption. auto.
Qed.

(** Creating the directories down to [dst ++ rel]. *)
Lemma makedirs_step cov fs rel :
  copy_inv src dst tree cov fs ->
  (forall r, r <> [] -> is_prefix r rel = true -> view tree r = Some IsDir) ->
  exists fs',
    makedirs umask (dst ++ rel) fs = Ok fs' /\
    copy_inv src dst tree (fun r => cov r || is_prefix r rel) fs'.
Proof.
  intros [H1 [H2 [H3 H4]]] Hrel.
  destruct (makedirs_ok umask (dst ++ rel) fs) as [fs' Hfs'].
  { intros p Hp. apply is_prefix_split in Hp.
    destruct Hp as [Hp|[r [Hr [-> Hp]]]]; [auto|].
    rewrite (H3 _ Hr). destruct (cov r); [|now left].
    right. auto. }
  exists fs'. split; [assumption|]. repeat split.
  - eapply makedirs_keeps; try eassumption.
    pose proof (proj1 (overlap_false _ _) apart) as [Ha Hb].
    now apply is_prefix_false_app.
  - intros p Hp. rewrite (view_makedirs _ _ p Hfs').
    destruct (H2 _ Hp) as [->| ->]; [|now right].
    destruct (is_prefix p (dst ++ rel)); auto.
  - intros r Hr. rewrite (view_makedirs _ _ (dst ++ r) Hfs'), (H3 _ Hr).
    rewrite is_prefix_app_app.
    destruct (cov r) eqn:Ec; simpl.
    + destruct (view tree r) eqn:Ev; [reflexivity|]. now elim (H4 _ Hr Ec).
    + destruct (is_prefix r rel) eqn:Ep; [|reflexivity].
      now rewrite (Hrel _ Hr Ep).
  - intros r Hr Hc. apply orb_true_iff in Hc. destruct Hc as [Hc|Hc]; [auto|].
    rewrite (Hrel _ Hr Hc). discriminate.
Qed.

(** Copying the file at [src ++ rel] to [dst ++ rel]. *)
Lemma copy2_step cov fs rel m t d :
  copy_inv src dst tree cov fs -> rel <> [] ->
  resolve tree rel = Ok (File m t d) ->
  isdir fs (dirname (dst ++ rel)) = true ->
  exists fs',
    copy2 (src ++ rel) (dst ++ rel) fs = Ok fs' /\
    copy_inv src dst tree (fun r => cov r || path_eqb r rel) fs'.
Proof.
  intros [H1 [H2 [H3 H4]]] Hrel Hres Hparent.
  assert (view tree rel = Some (IsFile m t d)) as Hv
    by (unfold view; now rewrite Hres).
  assert (view fs (dst ++ rel) <> Some IsDir) as Hnd.
  { rewrite (H3 _ Hrel). destruct (cov rel); [rewrite Hv|]; discriminate. }
  assert (isdir fs (dst ++ rel) = false) as Hnd'.
  { destruct (isdir fs (dst ++ rel)) eqn:E; [|reflexivity].
    apply isdir_view in E. contradiction. }
  destruct rel as [|c rel0 _] using rev_ind; [congruence|].
  destruct (write_file_ok (dst ++ rel0) c (File m t d) fs) as [fs' Hfs'].
  { unfold dirname in Hparent. rewrite app_assoc, removelast_last in Hparent.
    exact Hparent. }
  { now rewrite <- app_assoc. }
  rewrite <- app_assoc in Hfs'.
  exists fs'. split.
  - unfold copy2. rewrite Hnd', resolve_app, H1, Hres.
    replace (path_eqb (src ++ rel0 ++ [c]) (dst ++ rel0 ++ [c])) with false;
      [assumption|].
    symmetry. destruct (path_eqb _ _) eqn:E; [|reflexivity].
    apply path_eqb_eq in E.
    pose proof (proj1 (overlap_false _ _) apart) as [Ha Hb].
    assert (is_prefix src (dst ++ rel0 ++ [c]) = true) as K
      by (rewrite <- E; apply is_prefix_app).
    rewrite is_prefix_false_app in K; [discriminate| |]; assumption.
  - repeat split.
    + unfold write_file in Hfs'.
      rewrite (alter_resolve_other _ _ _ src Hfs'); [assumption|].
      now apply overlap_app.
    + intros p Hp. rewrite (view_write_file _ _ _ _ _ p Hfs').
      destruct (path_eqb p (dst ++ rel0 ++ [c])) eqn:E; [|auto].
      apply path_eqb_eq in E. subst p. apply is_prefix_spec in Hp.
      destruct Hp as [y Hy]. rewrite <- app_assoc in Hy.
      rewrite <- (app_nil_r dst) in Hy at 1. apply app_inv_head in Hy.
      destruct rel0; discriminate.
    + intros r Hr. rewrite (view_write_file _ _ _ _ _ (dst ++ r) Hfs').
      rewrite path_eqb_app.
      destruct (path_eqb r (rel0 ++ [c])) eqn:E.
      * apply path_eqb_eq in E. subst r. now rewrite orb_true_r, Hv.
      * rewrite orb_false_r. auto.
    + intros r Hr Hc. apply orb_true_iff in Hc. destruct Hc as [Hc|Hc]; [auto|].
      apply path_eqb_eq in Hc. subst r. rewrite Hv. discriminate.
Qed.

End CopyInto.

Lemma covered_app kept rel r :
  covered (kept ++ [rel]) r = covered kept r || is_prefix r rel.
Proof.
  unfold covered. rewrite existsb_app. simpl. now rewrite orb_false_r.
Qed.

Lemma vacant_copy_inv src dst tree fs :
  resolve fs src = Ok tree -> vacant fs dst = true ->
  copy_inv src dst tree (covered []) fs.
Proof.
  intros Hsrc Hv. unfold vacant in Hv. repeat split; auto.
  - intros p Hp. apply is_prefix_spec in Hp. destruct Hp as [x ->].
    rewrite resolve_app in Hv. unfold view.
    destruct (resolve fs p) as [[m t d|m es]|]; auto.
    destruct x; discriminate.
  - intros r Hr. simpl. unfold view. rewrite resolve_app.
    destruct (resolve fs dst) as [[m t d|m [|e es]]|]; try discriminate; auto.
    destruct r; [congruence|reflexivity].
  - intros r _ H. discriminate.
Qed.

Section CopyLoop.

Variable umask : Z.
Variables src dst : path.
Variable exclude : list path.
Variable tree : node.
Hypothesis apart : overlap src dst = false.

Lemma copy_tree_body_step kept acc fs rel n :
  copy_inv src dst tree (covered kept) fs -> rel <> [] ->
  resolve tree rel = Ok n ->
  exists fs',
    copy_tree_body umask src dst exclude (kind_of n, src ++ rel) acc fs
    = Ret (acc ++ if in_dec path_eq_dec rel exclude then []
                  else [(kind_of n, dst ++ rel)]) fs' /\
    copy_inv src dst tree
      (covered (if in_dec path_eq_dec rel exclude then kept
                else kept ++ [rel])) fs'.
Proof.
  intros Hinv Hrel Hres. unfold copy_tree_body. rewrite relpath_app.
  destruct (in_dec path_eq_dec rel exclude) as [Hex|Hex].
  - exists fs. now rewrite app_nil_r.
  - assert (view tree rel <> None) as Hv
      by (unfold view; rewrite Hres; discriminate).
    destruct n as [m t d|m es]; unfold kind_of.
    + destruct (makedirs_step umask apart (removelast rel) Hinv)
        as [fs1 [Hmk Hinv1]].
      { intros r _ Hr. eapply view_below_removelast; eassumption. }
      assert (isdir fs1 (dirname (dst ++ rel)) = true) as Hpar.
      { unfold dirname. rewrite removelast_app_ne by assumption.
        eapply makedirs_isdir; eassumption. }
      destruct (copy2_step apart Hinv1 Hrel Hres Hpar) as [fs2 [Hcp Hinv2]].
      exists fs2. split.
      * unfold bind, syscall, dirname.
        rewrite removelast_app_ne by assumption. now rewrite Hmk, Hcp.
      * eapply copy_inv_ext; [|exact Hinv2].
        intros r _. cbv beta. rewrite covered_app, <- orb_assoc.
        now rewrite <- is_prefix_last.
    + destruct (makedirs_step umask apart rel Hinv) as [fs1 [Hmk Hinv1]].
      { intros r _ Hr. rewrite is_prefix_last in Hr by assumption.
        apply orb_true_iff in Hr. destruct Hr as [Hr|Hr].
        - eapply view_below_removelast; eassumption.
        - apply path_eqb_eq in Hr. subst r. unfold view. now rewrite Hres. }
      exists fs1. split.
      * unfold bind, syscall. now rewrite Hmk.
      * eapply copy_inv_ext; [|exact Hinv1].
        intros r _. cbv beta. now rewrite covered_app.
Qed.

Lemma not_excluded_app (k : kind) rel :
  not_excluded src exclude (k, src ++ rel) =
  if in_dec path_eq_dec rel exclude then false else true.
Proof. unfold not_excluded. cbn [snd]. now rewrite relpath_app. Qed.

Lemma copy_tree_loop entries :
  Forall (listed src tree) entries ->
  forall kept acc fs,
    copy_inv src dst tree (covered kept) fs ->
    exists fs',
      for_each (copy_tree_body umask src dst exclude) entries acc fs
      = Ret (acc ++ map (target src dst)
                      (filter (not_excluded src exclude) entries)) fs' /\
      copy_inv src dst tree
        (covered (kept ++ map (fun e => relpath (snd e) src)
                            (filter (not_excluded src exclude) entries)))
        fs'.
Proof.
  induction 1 as [|[k p] es [rel [n [Hrel [Hp [Hres Hk]]]]] _ IH];
    intros kept acc fs Hinv.
  - exists fs. simpl. now rewrite !app_nil_r.
  - simpl in Hp, Hk. subst p k.
    destruct (copy_tree_body_step acc Hinv Hrel Hres) as [fs1 [Hb Hinv1]].
    rewrite for_each_cons.
    match goal with
    | |- context [copy_tree_body ?a ?b ?c ?d ?e ?f ?g] =>
        match type of Hb with
        | _ = ?rhs =>
            replace (copy_tree_body a b c d e f g) with rhs
              by (symmetry; exact Hb)
        end
    end.
    rewrite !filter_cons_app.
    repeat match goal with
    | |- context [not_excluded ?a ?b ?e] =>
        lazymatch e with
        | (_, _) =>
            replace (not_excluded a b e)
              with (if in_dec path_eq_dec rel exclude then false else true)
              by (symmetry; apply not_excluded_app)
        end
    end.
    destruct (in_dec path_eq_dec rel exclude) as [Hex|Hex].
    + rewrite app_nil_r in *. cbn [app]. apply IH. exact Hinv1.
    + destruct (IH _ (acc ++ [(kind_of n, dst ++ rel)]) _ Hinv1)
        as [fs' [Hl Hinv']].
      exists fs'. split.
      * rewrite Hl. cbn [map app]. unfold target at 2. cbn [fst snd].
        rewrite relpath_app. now rewrite <- app_assoc.
      * cbn [map app snd]. rewrite relpath_app.
        now rewrite <- app_assoc in Hinv'.
Qed.

Lemma walk_list_listed :
  wf tree = true -> Forall (listed src tree) (walk_list src tree).
Proof.
  intros Hwf. apply Forall_forall. intros [k p] Hin.
  destruct (walk_list_sound _ _ _ _ Hwf Hin) as [r [n [Hr [-> [Hres ->]]]]].
  exists r, n. auto.
Qed.

(** A copy into a destination outside the source, where nothing is in the
    way, returns, records the targets of the entries it keeps, and leaves
    below the destination the kept entries with the directories on the way
    to them. *)
Lemma copy_tree_from fuel fs :
  copy_inv src dst tree (covered []) fs ->
  is_dir_node tree = true -> wf tree = true -> ndirs tree <= fuel ->
  exists fs',
    copy_tree umask fuel src dst exclude fs
    = Ret (map (target src dst)
             (filter (not_excluded src exclude) (walk_list src tree))) fs' /\
    copy_inv src dst tree (covered (kept_paths src exclude tree)) fs'.
Proof.
  intros Hinv Hd Hwf Hfuel. unfold copy_tree.
  pose proof Hinv as [Hsrc _].
  rewrite (@for_recursive_iglob_eager _ _ src tree); auto.
  - destruct (copy_tree_loop (walk_list_listed Hwf) [] Hinv)
      as [fs' [Hl Hinv']].
    exists fs'. split; assumption.
  - intros e acc s acc' s' Hs Hb.
    pose proof (@copy_tree_body_keeps umask src dst exclude apart
                  tree e acc s Hs) as K.
    rewrite Hb in K. exact K.
Qed.

Lemma copy_tree_spec fuel fs :
  resolve fs src = Ok tree -> is_dir_node tree = true -> wf tree = true ->
  vacant fs dst = true -> ndirs tree <= fuel ->
  exists fs',
    copy_tree umask fuel src dst exclude fs
    = Ret (map (target src dst)
             (filter (not_excluded src exclude) (walk_list src tree))) fs' /\
    copy_inv src dst tree (covered (kept_paths src exclude tree)) fs'.
Proof.
  intros Hsrc Hd Hwf Hvac Hfuel. apply copy_tree_from; auto.
  now apply vacant_copy_inv.
Qed.

End CopyLoop.

(** ** Deletion *)

Unset Implicit Arguments.

Lemma alter_remove_resolve p fs fs' :
  wf fs = true -> alter (fun _ => Ok None) p fs = Ok fs' ->
  resolve fs' p = Err FileNotFoundError.
Proof.
  revert fs fs'. induction p as [|c p IH]; intros fs fs' Hwf H.
  - discriminate.
  - simpl in H. destruct fs as [|m es]; [discriminate|].
    destruct p as [|c' p].
    + injection H as <-. simpl. rewrite find_del_same; [reflexivity|].
      rewrite wf_Dir in Hwf. now apply andb_true_iff in Hwf.
    + destruct (find_ent c es) as [child|] eqn:Ef; [|discriminate].
      destruct (alter _ (c' :: p) child) as [child'|] eqn:Ea; [|discriminate].
      injection H as <-. simpl resolve at 1. rewrite find_set_same.
      apply (IH _ _ (@wf_find c child m es Hwf Ef) Ea).
Qed.

Lemma alter_const_ok left p fs n :
  resolve fs p = Ok n -> p <> [] \/ left <> None ->
  exists fs', alter (fun _ => Ok left) p fs = Ok fs'.
Proof.
  revert fs. induction p as [|c p IH]; intros fs H Hl.
  - simpl. destruct left; eauto. destruct Hl; congruence.
  - simpl in *. destruct fs as [|m es]; [discriminate|].
    destruct (find_ent c es) as [child|] eqn:Ef; [|discriminate].
    destruct p as [|c' p].
    + destruct left; eauto.
    + destruct (IH child H) as [x Hx]; [left; discriminate|].
      rewrite Hx. eauto.
Qed.

Section RmtreeFacts.

Variable fault : path -> option exn.

Lemma fault_at_cons p : p <> [] -> fault_at fault p = fault p.
Proof. destruct p; [congruence | reflexivity]. Qed.

Lemma rm_entry_Dir h p m es :
  rm_entry fault h p (Dir m es) =
  match fault_at fault p with
  | Some FileNotFoundError => (None, h os_open p FileNotFoundError)
  | flt =>
      let (es', raised) := rm_children (rm_entry fault h) p es in
      match raised with
      | Some e => (Some (Dir m es'), Some e)
      | None =>
          match es', flt with
          | _ :: _, _ => (Some (Dir m es'), h os_rmdir p DirectoryNotEmpty)
          | [], Some e => (Some (Dir m []), h os_rmdir p e)
          | [], None => (None, None)
          end
      end
  end.
Proof. reflexivity. Qed.

(** Without failures of the environment everything goes. *)
Lemma rm_entry_clean h n :
  forall p, p <> [] -> (forall r, fault (p ++ r) = None) ->
  rm_entry fault h p n = (None, None).
Proof.
  induction n as [m t d|m es IH] using node_induction; intros p Hp Hf.
  - simpl. rewrite (fault_at_cons _ Hp).
    specialize (Hf []). rewrite app_nil_r in Hf. now rewrite Hf.
  - rewrite rm_entry_Dir, (fault_at_cons _ Hp).
    pose proof (Hf []) as Hf0. rewrite app_nil_r in Hf0. rewrite Hf0.
    assert (rm_children (rm_entry fault h) p es = ([], None)) as ->.
    { induction es as [|[c ch] es IHes]; [reflexivity|].
      inversion IH as [|? ? Hc Hes]; subst. cbn [snd] in Hc.
      cbn [rm_children]. rewrite (Hc (p ++ [c])).
      - now apply IHes.
      - now destruct p.
      - intros r. rewrite <- app_assoc. apply Hf. }
    reflexivity.
Qed.

Lemma ignore_settles f p e :
  e <> FileNotFoundError -> ignore_missing_dir_error f p e = Some e.
Proof.
  unfold ignore_missing_dir_error. now destruct (exn_eq_dec e FileNotFoundError).
Qed.

Lemma rm_children_settled p es :
  Forall (fun e => forall p, settled
            (rm_entry fault ignore_missing_dir_error p (snd e))) es ->
  rm_children (rm_entry fault ignore_missing_dir_error) p es = ([], None) \/
  exists es' e,
    rm_children (rm_entry fault ignore_missing_dir_error) p es
    = (es', Some e) /\ e <> FileNotFoundError /\ es' <> [].
Proof.
  induction 1 as [|[c ch] es Hc _ IH]; [now left|].
  cbn [snd] in Hc. cbn [rm_children]. unfold settled in Hc.
  destruct (Hc (p ++ [c])) as [->|[n [e [-> He]]]].
  - exact IH.
  - right. exists ((c, n) :: es), e. repeat split; [assumption | discriminate].
Qed.

Lemma rm_entry_settled n :
  forall p, settled (rm_entry fault ignore_missing_dir_error p n).
Proof.
  induction n as [m t d|m es IH] using node_induction; intros p.
  - simpl. destruct (fault_at fault p) as [e|]; [|now left].
    destruct e; try (right; eexists; eexists; split;
                     [reflexivity | discriminate]).
    now left.
  - rewrite rm_entry_Dir.
    assert (forall flt,
      settled
        (let (es', raised) :=
           rm_children (rm_entry fault ignore_missing_dir_error) p es in
         match raised with
         | Some e => (Some (Dir m es'), Some e)
         | None =>
             match es', flt with
             | _ :: _, _ =>
                 (Some (Dir m es'),
                  ignore_missing_dir_error os_rmdir p DirectoryNotEmpty)
             | [], Some e =>
                 (Some (Dir m []), ignore_missing_dir_error os_rmdir p e)
             | [], None => (None, None)
             end
         end) \/ flt = Some FileNotFoundError) as K.
    { intros flt.
      destruct (rm_children_settled p es IH) as [->|[es' [e [-> [He Hes]]]]].
      - destruct flt as [e|]; [|left; now left].
        destruct (exn_eq_dec e FileNotFoundError) as [->|He]; [now right|].
        left. right. exists (Dir m []), e. rewrite (ignore_settles _ _ _ He).
        auto.
      - left. right. exists (Dir m es'), e. auto. }
    destruct (fault_at fault p) as [e|].
    + destruct (K (Some e)) as [K'|K'].
      * destruct e; try exact K'. now left.
      * injection K' as ->. now left.
    + destruct (K None) as [K'|K']; [exact K' | discriminate].
Qed.

End RmtreeFacts.

Section RmtreeWorld.

Variable fault : path -> option exn.
Variable h : rmfunc -> path -> exn -> option exn.

Lemma rm_children_wf p es :
  Forall (fun e => forall p n' r,
            wf (snd e) = true ->
            rm_entry fault h p (snd e) = (Some n', r) -> wf n' = true) es ->
  forall es' r,
    NoDup (map fst es) -> forallb (fun e => wf (snd e)) es = true ->
    rm_children (rm_entry fault h) p es = (es', r) ->
    NoDup (map fst es') /\ incl (map fst es') (map fst es) /\
    forallb (fun e => wf (snd e)) es' = true.
Proof.
  induction 1 as [|[c ch] es Hc _ IH]; intros es' r Hnd Hall H.
  - injection H as <- _. repeat split; auto. apply incl_refl.
  - cbn [snd] in Hc. cbn [rm_children] in H.
    simpl in Hnd, Hall. inversion Hnd as [|? ? Hcn Hnd']; subst.
    apply andb_true_iff in Hall. destruct Hall as [Hch Hall].
    destruct (rm_entry fault h (p ++ [c]) ch) as [[n'|] [e|]] eqn:E.
    + injection H as <- _. simpl. rewrite Hall, (Hc _ _ _ Hch E).
      repeat split; auto. apply incl_refl.
    + destruct (rm_children (rm_entry fault h) p es) as [rest' r'] eqn:Er.
      injection H as <- _.
      destruct (IH _ _ Hnd' Hall eq_refl) as [H1 [H2 H3]].
      simpl. rewrite H3, (Hc _ _ _ Hch E). repeat split; auto.
      * constructor; [|assumption]. intros Hin. apply Hcn. now apply H2.
      * intros x [<-|Hx]; [now left | right; now apply H2].
    + injection H as <- _. repeat split; auto. now apply incl_tl, incl_refl.
    + destruct (IH _ _ Hnd' Hall H) as [H1 [H2 H3]].
      repeat split; auto. now apply incl_tl.
Qed.

Lemma rm_entry_wf n :
  forall p n' r,
    wf n = true -> rm_entry fault h p n = (Some n', r) -> wf n' = true.
Proof.
  induction n as [m t d|m es IH] using node_induction; intros p n' r Hwf H.
  - simpl in H. destruct (fault_at fault p) as [[]|]; try discriminate;
      now injection H as <- _.
  - rewrite rm_entry_Dir in H.
    rewrite wf_Dir, andb_true_iff in Hwf. destruct Hwf as [Hnd Hall].
    apply nodupb_NoDup in Hnd.
    destruct (rm_children (rm_entry fault h) p es) as [es' raised] eqn:Er.
    destruct (rm_children_wf p es IH es' raised Hnd Hall Er) as [H1 [_ H3]].
    assert (wf (Dir m es') = true) as Hes'.
    { rewrite wf_Dir, H3, andb_true_r. now apply nodupb_NoDup. }
    assert (n' = Dir m es' \/ n' = Dir m []) as [->| ->]; [|assumption|reflexivity].
    destruct (fault_at fault p) as [e|].
    + destruct e; try discriminate;
        (destruct raised; [injection H as <- _; now left|];
         destruct es'; injection H as <- _; auto).
    + destruct raised; [injection H as <- _; now left|].
      destruct es'; [discriminate|]. injection H as <- _. now left.
Qed.

Lemma rmtree_stops p fs (P : node -> Prop) :
  P fs ->
  (forall left fs', alter (fun _ => Ok left) p fs = Ok fs' ->
     (forall n, left = Some n ->
        exists n0 r, resolve fs p = Ok n0 /\ is_dir_node n0 = true /\
                     rm_entry fault h p n0 = (Some n, r)) ->
     P fs') ->
  stops_in P (rmtree fault h p fs).
Proof.
  intros HP Halt. unfold rmtree.
  destruct (resolve fs p) as [[m t d|m es]|e] eqn:Er.
  - destruct (h os_scandir p NotADirectoryError); [exact HP|].
    destruct (h os_rmdir p NotADirectoryError); exact HP.
  - destruct (rm_entry fault h p (Dir m es)) as [left raised] eqn:E.
    destruct (alter (fun _ => Ok left) p fs) as [fs'|] eqn:Ea.
    + assert (P fs') as HP'.
      { apply (Halt left fs' Ea). intros n ->. exists (Dir m es), raised. auto. }
      destruct raised; exact HP'.
    + destruct raised; exact HP.
  - destruct (h os_lstat p e); exact HP.
Qed.

(** Deletion touches nothing outside the tree it deletes. *)
Lemma rmtree_outside p fs :
  stops_in (fun fs' => forall q, is_prefix p q = false ->
                                 stat fs' q = stat fs q)
    (rmtree fault h p fs).
Proof.
  apply rmtree_stops; [reflexivity|].
  intros left fs' Ha _ q Hq. eapply alter_stat_outside; eassumption.
Qed.

Lemma rmtree_wf p fs :
  wf fs = true -> stops_in (fun fs' => wf fs' = true) (rmtree fault h p fs).
Proof.
  intros Hwf. apply rmtree_stops; [assumption|].
  intros left fs' Ha Hleft. eapply alter_wf; [|exact Hwf|exact Ha].
  intros o n [= ->] _. destruct (Hleft n eq_refl) as [n0 [r [Hr [_ Hrm]]]].
  eapply rm_entry_wf; [|exact Hrm]. eapply wf_resolve; eassumption.
Qed.

End RmtreeWorld.

Section RmtreeIgnore.

Variable fault : path -> option exn.

Lemma rmtree_absent p fs :
  resolve fs p = Err FileNotFoundError ->
  rmtree fault ignore_missing_dir_error p fs = Ret tt fs.
Proof. intros H. unfold rmtree. now rewrite H. Qed.

Lemma rmtree_returns p fs fs' :
  wf fs = true ->
  rmtree fault ignore_missing_dir_error p fs = Ret tt fs' ->
  resolve fs' p = Err FileNotFoundError.
Proof.
  intros Hwf H. unfold rmtree in H.
  destruct (resolve fs p) as [[m t d|m es]|e] eqn:Er.
  - discriminate.
  - destruct (rm_entry_settled fault (Dir m es) p) as [E|[n [e [E He]]]];
      rewrite E in H.
    + destruct (alter (fun _ => Ok None) p fs) as [x|] eqn:Ea.
      * injection H as <-. eapply alter_remove_resolve; eassumption.
      * exfalso. destruct p as [|c p].
        -- rewrite rm_entry_Dir in E. cbn [fault_at] in E.
           destruct (rm_children _ [] es) as [es' [e'|]];
             [discriminate|].
           destruct es'; discriminate.
        -- destruct (alter_const_ok None (c :: p) fs _ Er) as [x Hx];
             [left; discriminate | congruence].
    + destruct (alter _ p fs); discriminate.
  - unfold ignore_missing_dir_error in H.
    destruct (exn_eq_dec e FileNotFoundError) as [->|]; [|discriminate].
    now injection H as <-.
Qed.

Lemma rmtree_raises p fs e fs' :
  rmtree fault ignore_missing_dir_error p fs = Exc e fs' ->
  e <> FileNotFoundError.
Proof.
  intros H. unfold rmtree in H.
  destruct (resolve fs p) as [[m t d|m es]|e0] eqn:Er.
  - simpl in H. injection H as <- _. discriminate.
  - destruct (rm_entry_settled fault (Dir m es) p) as [E|[n [e1 [E He]]]];
      rewrite E in H.
    + destruct (alter _ p fs); discriminate.
    + destruct (alter _ p fs); injection H as <- _; assumption.
  - unfold ignore_missing_dir_error in H.
    destruct (exn_eq_dec e0 FileNotFoundError) as [->|]; [discriminate|].
    now injection H as <- _.
Qed.

Lemma rmtree_clean p fs m es :
  wf fs = true -> resolve fs p = Ok (Dir m es) -> p <> [] ->
  (forall r, fault (p ++ r) = None) ->
  exists fs',
    rmtree fault ignore_missing_dir_error p fs = Ret tt fs' /\
    resolve fs' p = Err FileNotFoundError.
Proof.
  intros Hwf Hr Hp Hf. unfold rmtree. rewrite Hr.
  rewrite (rm_entry_clean fault _ (Dir m es) p Hp Hf).
  destruct (alter_const_ok None p fs _ Hr) as [fs' Hfs']; [now left|].
  rewrite Hfs'. exists fs'. split; [reflexivity|].
  eapply alter_remove_resolve; eassumption.
Qed.

End RmtreeIgnore.

(** ** Well-formed trees stay well-formed *)

Lemma copy2_wf src dst fs fs' :
  wf fs = true -> copy2 src dst fs = Ok fs' -> wf fs' = true.
Proof.
  intros Hwf H. apply copy2_writes in H.
  destruct H as [m [t [d [x [_ [_ H]]]]]].
  eapply write_file_wf; eassumption.
Qed.

Lemma copy_tree_body_wf umask src dst exclude e acc fs :
  wf fs = true ->
  stops_in (fun fs' => wf fs' = true)
    (copy_tree_body umask src dst exclude e acc fs).
Proof.
  intros Hwf. destruct e as [fd p]. unfold copy_tree_body.
  destruct (in_dec path_eq_dec (relpath p src) exclude); [exact Hwf|].
  apply bind_stops_in; [|intros; assumption].
  destruct fd.
  - apply syscall_stops_in; [assumption|].
    intros fs' H. eapply makedirs_wf; eassumption.
  - apply bind_stops_in.
    + apply syscall_stops_in; [assumption|].
      intros fs' H. eapply makedirs_wf; eassumption.
    + intros _ fs1 Hfs1. apply syscall_stops_in; [assumption|].
      intros fs' H. eapply copy2_wf; eassumption.
Qed.

Lemma copy_tree_wf umask fuel src dst exclude fs :
  wf fs = true ->
  stops_in (fun fs' => wf fs' = true) (copy_tree umask fuel src dst exclude fs).
Proof.
  intros Hwf. unfold copy_tree, for_recursive_iglob.
  destruct (isdir fs src); [|exact Hwf].
  apply os_walk_stops_in; [|assumption].
  intros x a s Hs. now apply copy_tree_body_wf.
Qed.

Lemma for_each_no_timeout {S A X} (body : X -> A -> M S A) :
  (forall x a s, body x a s <> Timeout) ->
  forall xs acc s, for_each body xs acc s <> Timeout.
Proof.
  intros Hb. induction xs as [|x xs IH]; intros acc s; simpl.
  - discriminate.
  - unfold bind. specialize (Hb x acc s).
    destruct (body x acc s); [apply IH | discriminate | congruence].
Qed.

Lemma copy_tree_body_no_timeout umask src dst exclude e acc fs :
  copy_tree_body umask src dst exclude e acc fs <> Timeout.
Proof.
  destruct e as [fd p]. unfold copy_tree_body.
  destruct (in_dec path_eq_dec (relpath p src) exclude); [discriminate|].
  unfold bind, syscall, ret. destruct fd.
  - destruct (makedirs umask _ fs); discriminate.
  - destruct (makedirs umask _ fs) as [fs1|]; [|discriminate].
    destruct (copy2 p _ fs1); discriminate.
Qed.

(** ** Claims about the copy *)

(** C5 (amended).  When the destination lies outside the source and the
    source outside the destination, [copy_tree] never changes the source
    tree: whether it returns or raises, the tree found at [src] afterwards
    (its entries, their order, modes and file contents) is the tree found
    there before; and with fuel for the directories of the source it does
    stop. *)
Theorem copy_tree_keeps_source umask fuel src dst exclude fs :
  overlap src dst = false ->
  stops_in (fun fs' => resolve fs' src = resolve fs src)
    (copy_tree umask fuel src dst exclude fs)
  /\ (forall tree,
        resolve fs src = Ok tree -> wf tree = true -> ndirs tree <= fuel ->
        copy_tree umask fuel src dst exclude fs <> Timeout).
Proof.
  intros Hap. split.
  - unfold copy_tree, for_recursive_iglob.
    destruct (isdir fs src) eqn:Ed; [|reflexivity].
    destruct (resolve fs src) as [tree|e] eqn:Er.
    + apply os_walk_stops_in; [|assumption].
      intros x a s Hs. now apply copy_tree_body_keeps.
    + unfold isdir in Ed. rewrite Er in Ed. discriminate.
  - intros tree Hr Hwf Hfuel. unfold copy_tree.
    destruct (is_dir_node tree) eqn:Ed.
    + rewrite (@for_recursive_iglob_eager _ _ src tree); auto.
      * apply for_each_no_timeout. intros.
        apply copy_tree_body_no_timeout.
      * intros e acc s acc' s' Hs Hb.
        pose proof (@copy_tree_body_keeps umask src dst exclude Hap
                      tree e acc s Hs) as K.
        rewrite Hb in K. exact K.
    + unfold for_recursive_iglob, isdir. rewrite Hr.
      destruct tree; discriminate.
Qed.

Lemma copy_tree_keeps_source_witness :
  stops_in (fun fs' => resolve fs' ["sub"%string]
                       = resolve staging_fs ["sub"%string])
    (copy_tree 18 2 ["sub"%string] ["tmp"%string; "w"%string] [] staging_fs)
  /\ (forall tree,
        resolve staging_fs ["sub"%string] = Ok tree -> wf tree = true ->
        ndirs tree <= 2 ->
        copy_tree 18 2 ["sub"%string] ["tmp"%string; "w"%string] []
          staging_fs <> Timeout).
Proof.
  apply (copy_tree_keeps_source 18 2 ["sub"%string]
           ["tmp"%string; "w"%string] [] staging_fs).
  reflexivity.
Defined.

(** C5, as stated, fails when the destination lies inside the source: the
    copy creates the destination, and what it copies, inside the source. *)
Lemma copy_tree_into_source_changes_source :
  exists copied fs',
    copy_tree 18 2 ["sub"%string] ["sub"%string; "w"%string] [] staging_fs
    = Ret copied fs'
    /\ view staging_fs ["sub"%string; "w"%string] = None
    /\ view fs' ["sub"%string; "w"%string] = Some IsDir
    /\ resolve fs' ["sub"%string] <> resolve staging_fs ["sub"%string].
Proof.
  eexists. eexists. split; [vm_compute; reflexivity|].
  split; [reflexivity|]. split; [reflexivity|]. vm_compute. discriminate.
Defined.

Lemma kept_paths_In src exclude tree r n :
  r <> [] -> resolve tree r = Ok n -> ~ In r exclude ->
  In r (kept_paths src exclude tree).
Proof.
  intros Hr Hres Hex. unfold kept_paths. apply in_map_iff.
  exists (kind_of n, src ++ r). split; [apply relpath_app|].
  apply filter_In. split.
  - now apply walk_list_complete.
  - unfold not_excluded. cbn [snd]. rewrite relpath_app.
    now destruct (in_dec path_eq_dec r exclude).
Qed.

Lemma covered_prefix kept r x : In (r ++ x) kept -> covered kept r = true.
Proof.
  intros H. unfold covered. apply existsb_exists. exists (r ++ x).
  split; [assumption | apply is_prefix_app].
Qed.

Lemma record_not_excluded src dst exclude entries k r :
  In (k, dst ++ r)
    (map (target src dst) (filter (not_excluded src exclude) entries)) ->
  ~ In r exclude.
Proof.
  intros H. apply in_map_iff in H. destruct H as [[k' p] [Heq H]].
  apply filter_In in H. destruct H as [_ H].
  unfold target in Heq. cbn [fst snd] in Heq. injection Heq as _ Heq.
  apply app_inv_head in Heq. unfold not_excluded in H. cbn [snd] in H.
  rewrite Heq in H. now destruct (in_dec path_eq_dec r exclude).
Qed.

(** C10.  When a directory [d] of the source is excluded but a file
    [d ++ x] below it is not, [copy_tree] (into a vacant destination outside
    the source) still copies the file: the file is at its place below the
    destination and in the record, the excluded directory exists below the
    destination as the parent of the file, and the record does not list the
    excluded directory. *)
Theorem copy_tree_excluded_directory
  umask fuel src dst exclude fs tree d x m t data :
  resolve fs src = Ok tree -> is_dir_node tree = true -> wf tree = true ->
  overlap src dst = false -> vacant fs dst = true -> ndirs tree <= fuel ->
  In d exclude -> d <> [] -> x <> [] ->
  resolve tree (d ++ x) = Ok (File m t data) -> ~ In (d ++ x) exclude ->
  exists copied fs',
    copy_tree umask fuel src dst exclude fs = Ret copied fs'
    /\ view fs' (dst ++ d ++ x) = Some (IsFile m t data)
    /\ In (F, dst ++ d ++ x) copied
    /\ view fs' (dst ++ d) = Some IsDir
    /\ (forall k, ~ In (k, dst ++ d) copied).
Proof.
  intros Hsrc Hdir Hwf Hap Hvac Hfuel Hd Hdne Hx Hres Hnex.
  destruct (@copy_tree_spec umask src dst exclude tree Hap fuel fs
              Hsrc Hdir Hwf Hvac Hfuel) as [fs' [Hc [_ [_ [Hb _]]]]].
  assert (d ++ x <> []) as Hdx by (destruct d; [congruence | discriminate]).
  pose proof (kept_paths_In src exclude tree (d ++ x) _ Hdx Hres Hnex) as Hk.
  assert (view tree (d ++ x) = Some (IsFile m t data)) as Hv
    by (unfold view; now rewrite Hres).
  eexists. exists fs'. split; [exact Hc|]. repeat split.
  - rewrite (Hb _ Hdx).
    replace (covered (kept_paths src exclude tree) (d ++ x)) with true;
      [assumption|].
    symmetry. apply (covered_prefix _ (d ++ x) []). now rewrite app_nil_r.
  - apply in_map_iff. exists (F, src ++ d ++ x). split.
    + unfold target. cbn [fst snd]. now rewrite relpath_app.
    + apply filter_In. split.
      * apply (@walk_list_complete (d ++ x) tree src (File m t data) Hdx Hres).
      * unfold not_excluded. cbn [snd]. rewrite relpath_app.
        now destruct (in_dec path_eq_dec (d ++ x) exclude).
  - rewrite (Hb _ Hdne), (covered_prefix _ d x Hk).
    eapply view_prefix_dir; [|exact Hx]. rewrite Hv. discriminate.
  - intros k Hin. apply record_not_excluded in Hin. contradiction.
Qed.

Lemma copy_tree_excluded_directory_witness :
  exists copied fs',
    copy_tree 18 2 ["sub"%string] ["tmp"%string; "w"%string]
      [["b"%string]] staging_fs = Ret copied fs'
    /\ view fs' (["tmp"%string; "w"%string] ++ ["b"%string] ++ ["c.txt"%string])
       = Some (IsFile (octal [6; 0; 0]) 2 "C"%string)
    /\ In (F, ["tmp"%string; "w"%string] ++ ["b"%string] ++ ["c.txt"%string])
         copied
    /\ view fs' (["tmp"%string; "w"%string] ++ ["b"%string]) = Some IsDir
    /\ (forall k, ~ In (k, ["tmp"%string; "w"%string] ++ ["b"%string]) copied).
Proof.
  apply (copy_tree_excluded_directory 18 2 ["sub"%string]
           ["tmp"%string; "w"%string] [["b"%string]] staging_fs submission
           ["b"%string] ["c.txt"%string]).
  - reflexivity.
  - reflexivity.
  - reflexivity.
  - reflexivity.
  - reflexivity.
  - simpl. lia.
  - simpl. tauto.
  - discriminate.
  - discriminate.
  - reflexivity.
  - simpl. intros [H|[]]. discriminate.
Defined.

(** C4 at its failing input: with [b] excluded and [b/c.txt] not, the copy
    of [sub] into the empty workspace creates the excluded directory [b]
    below the destination, and its record lists [b/c.txt] only: it neither
    creates exactly the entries that are not excluded nor records all it
    created. *)
Theorem copy_tree_creates_excluded_directory :
  exists fs',
    copy_tree 18 2 ["sub"%string] ["tmp"%string; "w"%string]
      [["b"%string]] staging_fs
    = Ret [(F, ["tmp"%string; "w"%string; "a.txt"%string]);
           (F, ["tmp"%string; "w"%string; "b"%string; "c.txt"%string])] fs'
    /\ view staging_fs ["tmp"%string; "w"%string; "b"%string] = None
    /\ view fs' ["tmp"%string; "w"%string; "b"%string] = Some IsDir.
Proof.
  eexists. split; [vm_compute; reflexivity|]. split; reflexivity.
Qed.

(** ** Claims about deletion *)

(** C7.  [shutil.rmtree] with [ignore_missing_dir_error]: deleting a tree
    that is absent returns and changes nothing; after a deletion that
    returned the tree is absent, so deleting it again returns too; the
    handler re-raises every failure other than [FileNotFoundError], and an
    exception that leaves the deletion is never [FileNotFoundError]: a
    failure of another kind is never swallowed. *)
Theorem rmtree_ignores_only_missing fault fs p :
  wf fs = true ->
  (resolve fs p = Err FileNotFoundError ->
   rmtree fault ignore_missing_dir_error p fs = Ret tt fs)
  /\ (forall fs1,
        rmtree fault ignore_missing_dir_error p fs = Ret tt fs1 ->
        resolve fs1 p = Err FileNotFoundError
        /\ rmtree fault ignore_missing_dir_error p fs1 = Ret tt fs1)
  /\ (forall f q e,
        e <> FileNotFoundError -> ignore_missing_dir_error f q e = Some e)
  /\ (forall e fs1,
        rmtree fault ignore_missing_dir_error p fs = Exc e fs1 ->
        e <> FileNotFoundError)
  /\ (forall m t d,
        resolve fs p = Ok (File m t d) ->
        rmtree fault ignore_missing_dir_error p fs
        = Exc NotADirectoryError fs).
Proof.
  intros Hwf. repeat split.
  - apply rmtree_absent.
  - eapply rmtree_returns; eassumption.
  - apply rmtree_absent. eapply rmtree_returns; eassumption.
  - intros f q e. apply ignore_settles.
  - intros e fs1. apply rmtree_raises.
  - intros m t d H. unfold rmtree. now rewrite H.
Qed.

Lemma rmtree_ignores_only_missing_witness :
  (resolve staging_fs ["gone"%string] = Err FileNotFoundError ->
   rmtree no_fault ignore_missing_dir_error ["gone"%string] staging_fs
   = Ret tt staging_fs)
  /\ (forall fs1,
        rmtree no_fault ignore_missing_dir_error ["gone"%string] staging_fs
        = Ret tt fs1 ->
        resolve fs1 ["gone"%string] = Err FileNotFoundError
        /\ rmtree no_fault ignore_missing_dir_error ["gone"%string] fs1
           = Ret tt fs1)
  /\ (forall f q e,
        e <> FileNotFoundError -> ignore_missing_dir_error f q e = Some e)
  /\ (forall e fs1,
        rmtree no_fault ignore_missing_dir_error ["gone"%string] staging_fs
        = Exc e fs1 ->
        e <> FileNotFoundError)
  /\ (forall m t d,
        resolve staging_fs ["gone"%string] = Ok (File m t d) ->
        rmtree no_fault ignore_missing_dir_error ["gone"%string] staging_fs
        = Exc NotADirectoryError staging_fs).
Proof.
  apply (rmtree_ignores_only_missing no_fault staging_fs ["gone"%string]).
  reflexivity.
Defined.

(** Deleting an existing directory twice, as the tests do. *)
Lemma rmtree_twice fault fs p m es :
  wf fs = true -> resolve fs p = Ok (Dir m es) -> p <> [] ->
  (forall r, fault (p ++ r) = None) ->
  exists fs1,
    rmtree fault ignore_missing_dir_error p fs = Ret tt fs1
    /\ isdir fs1 p = false
    /\ rmtree fault ignore_missing_dir_error p fs1 = Ret tt fs1.
Proof.
  intros Hwf Hr Hp Hf.
  destruct (rmtree_clean fault p fs m es Hwf Hr Hp Hf) as [fs1 [H1 H2]].
  exists fs1. repeat split; [assumption| |now apply rmtree_absent].
  unfold isdir. now rewrite H2.
Qed.

(** ** Claims about the traversal *)

Lemma for_each_collect {S X} (l : list X) :
  forall acc (s : S),
    for_each (fun e acc => ret (acc ++ [e])) l acc s = Ret (acc ++ l) s.
Proof.
  induction l as [|x l IH]; intros acc s; simpl.
  - now rewrite app_nil_r.
  - unfold bind, ret. rewrite IH. now rewrite <- app_assoc.
Qed.

(** With fuel for the directories of the tree, the walk returns the entries
    of [walk_list] and leaves the tree as it is. *)
Lemma recursive_iglob_walk_list fuel root fs tree :
  resolve fs root = Ok tree -> is_dir_node tree = true -> wf tree = true ->
  ndirs tree <= fuel ->
  recursive_iglob fuel root fs = Ret (walk_list root tree) fs.
Proof.
  intros Hr Hd Hwf Hfuel. unfold recursive_iglob.
  rewrite (@for_recursive_iglob_eager _ _ root tree); auto.
  - apply (for_each_collect (walk_list root tree) []).
  - intros e acc s acc' s' Hs Hb. unfold ret in Hb. now injection Hb as _ <-.
Qed.



(** C2 at its failing input: on the tree [r/{a/{x/{deep.txt}}, b/{y.txt}}]
    [recursive_iglob] yields [r/a/x/deep.txt], three levels below the root,
    before [r/b/y.txt], two levels below it.  The levels do not grow along
    the sequence: the walk is the top-down walk of [os.walk], directory by
    directory, and not the breadth-first walk that the docstring of the
    function announces. *)
Theorem recursive_iglob_not_breadth_first :
  let root := ["r"%string] in
  let deep := ["r"; "a"; "x"; "deep.txt"]%string in
  let shallow := ["r"; "b"; "y.txt"]%string in
  exists l,
    recursive_iglob 4 root deep_fs = Ret l deep_fs
    /\ l = [(D, ["r"; "a"]); (D, ["r"; "b"]); (D, ["r"; "a"; "x"]);
            (F, deep); (F, shallow)]%string
    /\ before (F, deep) (F, shallow) l
    /\ List.length (relpath deep root) = 3
    /\ List.length (relpath shallow root) = 2
    /\ ~ (forall e1 e2,
            before e1 e2 l ->
            List.length (relpath (snd e1) root)
            <= List.length (relpath (snd e2) root)).
Proof.
  cbv zeta. eexists. split; [vm_compute; reflexivity|].
  assert (before (F, ["r"; "a"; "x"; "deep.txt"]%string)
            (F, ["r"; "b"; "y.txt"]%string)
            [(D, ["r"; "a"]); (D, ["r"; "b"]); (D, ["r"; "a"; "x"]);
             (F, ["r"; "a"; "x"; "deep.txt"]);
             (F, ["r"; "b"; "y.txt"])]%string) as Hb.
  { exists [(D, ["r"; "a"]); (D, ["r"; "b"]); (D, ["r"; "a"; "x"])]%string,
      [], []. reflexivity. }
  split; [reflexivity|]. split; [exact Hb|].
  split; [reflexivity|]. split; [reflexivity|].
  intros H. specialize (H _ _ Hb). simpl in H. lia.
Qed.

(** ** Claims about the move *)

Lemma write_file_not_dir q new fs fs' :
  write_file q new fs = Ok fs' -> isdir fs q = false.
Proof.
  intros H. unfold write_file in H.
  match type of H with alter ?f _ _ = _ =>
    destruct (@alter_lookup f q fs fs') as [x [Hx1 Hx2]];
      [intros [[]|]; discriminate | exact H | cbv beta in Hx1]
  end.
  unfold isdir. unfold lookup in Hx1.
  destruct (resolve fs q) as [[|]|]; try reflexivity. discriminate.
Qed.

(** A copy never replaces a directory. *)
Lemma copy_tree_keeps_dirs umask fuel src dst exclude fs p :
  isdir fs p = true ->
  stops_in (fun fs' => isdir fs' p = true)
    (copy_tree umask fuel src dst exclude fs).
Proof.
  intros Hp. unfold copy_tree, for_recursive_iglob.
  destruct (isdir fs src); [|exact Hp].
  apply os_walk_stops_in; [|assumption].
  clear fs Hp. intros [fd q] acc fs Hp. unfold copy_tree_body.
  destruct (in_dec path_eq_dec (relpath q src) exclude); [exact Hp|].
  assert (forall t s s', isdir s p = true -> makedirs umask t s = Ok s' ->
                         isdir s' p = true) as Hmk.
  { intros t s s' Hs H. apply isdir_view. apply isdir_view in Hs.
    rewrite view_stat in *. rewrite (@makedirs_stat umask t s s' p H).
    destruct (stat s p); [assumption | discriminate]. }
  apply bind_stops_in; [|intros; assumption].
  destruct fd.
  - apply syscall_stops_in; [assumption|]. intros fs'. now apply Hmk.
  - apply bind_stops_in.
    + apply syscall_stops_in; [assumption|]. intros fs'. now apply Hmk.
    + intros _ fs1 Hfs1. apply syscall_stops_in; [assumption|].
      intros fs' H. apply copy2_writes in H.
      destruct H as [m [t [d [x [_ [_ H]]]]]].
      apply isdir_view. rewrite view_stat.
      rewrite (@write_file_stat _ m t d fs1 fs' p H).
      destruct (path_eqb p _) eqn:E.
      * apply path_eqb_eq in E. subst p.
        apply write_file_not_dir in H. congruence.
      * rewrite <- view_stat. now apply isdir_view.
Qed.

Lemma filter_not_excluded_nil src l : filter (not_excluded src []) l = l.
Proof.
  induction l as [|e l IH]; simpl; [reflexivity|]. now rewrite IH.
Qed.

Lemma covered_all src tree r :
  r <> [] -> view tree r <> None -> covered (kept_paths src [] tree) r = true.
Proof.
  intros Hr Hv. unfold view in Hv.
  destruct (resolve tree r) as [n|] eqn:E; [|now elim Hv].
  apply (covered_prefix _ r []). rewrite app_nil_r.
  eapply kept_paths_In; eauto.
Qed.

(** C3 (amended).  When the source is an existing tree, the destination and
    the source lie outside each other, the destination is missing or empty
    (and no regular file is on the way to it) and the environment lets
    every entry of the source be removed, [move_tree] returns the record of
    an unfiltered copy; afterwards the destination is a directory that holds
    exactly what the source held (the same entries, and for every file the
    same bytes, permission bits and modification time) and the source no
    longer exists. *)
Theorem move_tree_moves umask fault fuel src dst fs tree :
  wf fs = true -> resolve fs src = Ok tree -> is_dir_node tree = true ->
  overlap src dst = false -> vacant fs dst = true ->
  (forall r, fault (src ++ r) = None) -> ndirs tree <= fuel ->
  exists fs',
    move_tree umask fault fuel src dst fs
    = Ret (map (target src dst) (walk_list src tree)) fs'
    /\ isdir fs' dst = true
    /\ (forall r, r <> [] -> view fs' (dst ++ r) = view tree r)
    /\ resolve fs' src = Err FileNotFoundError.
Proof.
  intros Hwf Hsrc Hd Hap Hvac Hfault Hfuel.
  assert (wf tree = true) as Hwft by (eapply wf_resolve; eassumption).
  pose proof (vacant_copy_inv src dst fs Hsrc Hvac) as Hinv0.
  destruct (@makedirs_step umask src dst tree Hap (covered []) fs [] Hinv0)
    as [fs1 [Hmk Hinv1]].
  { intros [|a r] Hr Hp; [congruence | simpl in Hp; discriminate Hp]. }
  rewrite app_nil_r in Hmk.
  assert (copy_inv src dst tree (covered []) fs1) as Hinv1'.
  { eapply copy_inv_ext; [|exact Hinv1]. intros [|a r] Hr; [congruence|].
    reflexivity. }
  destruct (@copy_tree_from umask src dst [] tree Hap fuel fs1
              Hinv1' Hd Hwft Hfuel) as [fs2 [Hc Hinv2]].
  rewrite filter_not_excluded_nil in Hc.
  assert (wf fs1 = true) as Hwf1 by apply (@makedirs_wf umask dst fs fs1 Hwf Hmk).
  assert (wf fs2 = true) as Hwf2.
  { pose proof (copy_tree_wf umask fuel src dst [] fs1 Hwf1) as K.
    rewrite Hc in K. exact K. }
  assert (isdir fs2 dst = true) as Hdst2.
  { pose proof (copy_tree_keeps_dirs umask fuel src dst [] fs1 dst
                  (@makedirs_isdir umask dst fs fs1 Hmk)) as K.
    rewrite Hc in K. exact K. }
  destruct Hinv2 as [Hsrc2 [_ [Hb2 _]]].
  destruct tree as [|m es]; [discriminate|].
  assert (src <> []) as Hsne.
  { intros ->. unfold overlap in Hap. simpl in Hap. discriminate. }
  destruct (rmtree_clean fault src fs2 m es Hwf2 Hsrc2 Hsne Hfault)
    as [fs3 [Hrm Hgone]].
  pose proof (rmtree_outside fault ignore_missing_dir_error src fs2) as Hout.
  rewrite Hrm in Hout. simpl in Hout.
  pose proof (proj1 (overlap_false _ _) Hap) as [Ha Hb].
  exists fs3. repeat split.
  - unfold move_tree, bind, syscall, ret. now rewrite Hmk, Hc, Hrm.
  - apply isdir_view. rewrite view_stat, Hout by assumption.
    rewrite <- view_stat. now apply isdir_view.
  - intros r Hr. rewrite view_stat, Hout, <- view_stat
      by (now apply is_prefix_false_app).
    rewrite (Hb2 r Hr).
    destruct (covered _ r) eqn:Ec; [reflexivity|].
    destruct (view (Dir m es) r) eqn:Ev; [|reflexivity].
    rewrite covered_all in Ec; [discriminate | assumption |].
    rewrite Ev. discriminate.
  - exact Hgone.
Qed.

Lemma move_tree_moves_witness :
  exists fs',
    move_tree 18 no_fault 2 ["sub"%string] ["tmp"%string; "w"%string]
      staging_fs
    = Ret (map (target ["sub"%string] ["tmp"%string; "w"%string])
             (walk_list ["sub"%string] submission)) fs'
    /\ isdir fs' ["tmp"%string; "w"%string] = true
    /\ (forall r, r <> [] ->
          view fs' (["tmp"%string; "w"%string] ++ r) = view submission r)
    /\ resolve fs' ["sub"%string] = Err FileNotFoundError.
Proof.
  apply (move_tree_moves 18 no_fault 2 ["sub"%string]
           ["tmp"%string; "w"%string] staging_fs submission).
  - reflexivity.
  - reflexivity.
  - reflexivity.
  - reflexivity.
  - reflexivity.
  - reflexivity.
  - simpl. lia.
Defined.

(** C3, as stated, fails when the destination holds a regular file where
    the source holds a directory: [os.makedirs] raises [FileExistsError] in
    the middle of the copy, so the move raises and the source is still
    there. *)
Lemma move_tree_conflict_raises :
  exists fs',
    move_tree 18 no_fault 2 ["sub"%string] ["tmp"%string; "w"%string]
      conflict_fs = Exc FileExistsError fs'
    /\ is_prefix ["sub"%string] ["tmp"%string; "w"%string] = false
    /\ isdir fs' ["sub"%string] = true
    /\ view fs' ["tmp"%string; "w"%string; "b"%string]
       = Some (IsFile (octal [6; 4; 4]) 0 ""%string).
Proof.
  eexists. split; [vm_compute; reflexivity|]. repeat split.
Defined.

(** ** Descriptors, locks and the with-blocks of the script copy *)

Lemma handle_eqb_eq a b : handle_eqb a b = true <-> a = b.
Proof.
  unfold handle_eqb. destruct a as [a1 a2], b as [b1 b2]. simpl.
  rewrite andb_true_iff, !Nat.eqb_eq. split; [intros [-> ->] | intros [= -> ->]];
    auto.
Qed.

Lemma handle_eqb_refl a : handle_eqb a a = true.
Proof. now apply handle_eqb_eq. Qed.

Lemma fresh_fd_bound pid fds fd p :
  In ((pid, fd), p) fds -> fd < fresh_fd pid fds.
Proof.
  unfold fresh_fd. induction fds as [|[[q g] r] fds IH]; simpl; [tauto|].
  intros [H|H].
  - injection H as -> -> ->. rewrite Nat.eqb_refl. lia.
  - specialize (IH H). destruct (Nat.eqb q pid); lia.
Qed.

Lemma file_of_In h fds p : file_of h fds = Some p -> In (h, p) fds.
Proof.
  induction fds as [|[h' q] fds IH]; simpl; [discriminate|].
  destruct (handle_eqb h h') eqn:E.
  - apply handle_eqb_eq in E. subst. intros [= ->]. now left.
  - intros H. right. auto.
Qed.

Lemma fresh_fd_unused pid fds : file_of (pid, fresh_fd pid fds) fds = None.
Proof.
  destruct (file_of (pid, fresh_fd pid fds) fds) eqn:E; [|reflexivity].
  apply file_of_In, fresh_fd_bound in E. lia.
Qed.

Lemma drop_unused {X} h (l : list (handle * X)) :
  (forall e, In e l -> fst e <> h) -> drop_handle h l = l.
Proof.
  unfold drop_handle. induction l as [|e l IH]; intros H; simpl; [reflexivity|].
  destruct (handle_eqb h (fst e)) eqn:E.
  - apply handle_eqb_eq in E. exfalso. apply (H e); [now left | congruence].
  - simpl. rewrite IH; [reflexivity|]. intros x Hx. apply H. now right.
Qed.

Lemma unlock_unused h ls :
  (forall l, In l ls -> fst (fst l) <> h) -> unlock h ls = ls.
Proof.
  unfold unlock. induction ls as [|l ls IH]; intros H; simpl; [reflexivity|].
  destruct (handle_eqb h (fst (fst l))) eqn:E.
  - apply handle_eqb_eq in E. exfalso. apply (H l); [now left | congruence].
  - simpl. rewrite IH; [reflexivity|]. intros x Hx. apply H. now right.
Qed.

Lemma unlock_twice h ls : unlock h (unlock h ls) = unlock h ls.
Proof.
  apply unlock_unused. intros l Hl. unfold unlock in Hl.
  apply filter_In in Hl. destruct Hl as [_ Hl]. apply negb_true_iff in Hl.
  intros E. subst h. now rewrite handle_eqb_refl in Hl.
Qed.

(** A computation on the file system touches neither descriptors nor
    locks. *)
Lemma zoom_keeps {A} (m : M node A) w :
  stops_in (fun w' => w_fds w' = w_fds w /\ w_locks w' = w_locks w)
    (zoom m w).
Proof. unfold zoom. destruct (m (w_fs w)); simpl; auto. Qed.

(** The with-blocks of [copy_test_script_files], seen from outside: the
    copy runs in the world [locked], and the call ends as the copy does,
    with the descriptors and the locks from before the call. *)
Lemma copy_test_script_files_brackets
  umask pid test_script_directory files_dirname fuel address assignment
  tests_path w :
  let dir := test_script_directory address assignment ++ [files_dirname] in
  let fd := fresh_fd pid (w_fds w) in
  let locked :=
    World (w_fs w) (((pid, fd), dir) :: w_fds w)
      (((pid, fd), dir, false) :: w_locks w) in
  locks_open w = true ->
  (isdir (w_fs w) dir = false ->
   copy_test_script_files umask pid test_script_directory files_dirname
     fuel address assignment tests_path w = Ret [] w)
  /\ (isdir (w_fs w) dir = true ->
      conflicts (pid, fd) dir false (w_locks w) = false ->
      file_of (pid, fd) (w_fds locked) = Some dir
      /\ In ((pid, fd), dir, false) (w_locks locked)
      /\ stops_in (fun w' => w_fds w' = w_fds locked
                             /\ w_locks w' = w_locks locked)
           (zoom (copy_tree umask fuel dir tests_path []) locked)
      /\ copy_test_script_files umask pid test_script_directory
           files_dirname fuel address assignment tests_path w
         = match zoom (copy_tree umask fuel dir tests_path []) locked with
           | Ret copied w' =>
               Ret copied (World (w_fs w') (w_fds w) (w_locks w))
           | Exc e w' => Exc e (World (w_fs w') (w_fds w) (w_locks w))
           | Timeout => Timeout
           end).
Proof.
  intros dir fd locked Hopen. split.
  - intros Hd. unfold copy_test_script_files. fold dir. now rewrite Hd.
  - intros Hd Hfree.
    assert (forall l, In l (w_locks w) -> fst (fst l) <> (pid, fd)) as Hl.
    { intros l Hin E. unfold locks_open in Hopen.
      rewrite forallb_forall in Hopen. specialize (Hopen l Hin).
      rewrite E in Hopen. unfold fd in Hopen.
      now rewrite fresh_fd_unused in Hopen. }
    assert (forall e, In e (w_fds w) -> fst e <> (pid, fd)) as Hf.
    { intros [h p] Hin E. simpl in E. subst h.
      apply fresh_fd_bound in Hin. unfold fd in Hin. lia. }
    split; [|split; [|split]].
    + simpl. now rewrite handle_eqb_refl.
    + now left.
    + apply zoom_keeps.
    + pose proof (zoom_keeps (copy_tree umask fuel dir tests_path []) locked)
        as K.
      remember (zoom (copy_tree umask fuel dir tests_path [])) as body.
      assert (exists n, resolve (w_fs w) dir = Ok n) as [n Hn].
      { unfold isdir in Hd. destruct (resolve (w_fs w) dir); [eauto|discriminate]. }
      unfold copy_test_script_files. fold dir. rewrite Hd.
      rewrite <- Heqbody.
      unfold fd_open, fd_lock, fd_lock_enter, fd_lock_exit, fcntl_flock,
        os_open_call, os_close_call, finally, bind.
      rewrite Hn. fold fd. cbn [w_fds w_fs w_locks set_fds set_locks file_of flock].
      rewrite handle_eqb_refl. rewrite Hfree, (unlock_unused _ _ Hl).
      change (set_locks (set_fds w ((pid, fd, dir) :: w_fds w))
                ((pid, fd, dir, false) :: w_locks w)) with locked.
      assert (unlock (pid, fd) ((pid, fd, dir, false) :: w_locks w)
              = w_locks w) as Hu.
      { unfold unlock. cbn [filter fst]. rewrite handle_eqb_refl. cbn [negb].
        apply (unlock_unused _ _ Hl). }
      assert (drop_handle (pid, fd) ((pid, fd, dir) :: w_fds w) = w_fds w)
        as Hdrop.
      { unfold drop_handle. cbn [filter fst]. rewrite handle_eqb_refl.
        cbn [negb]. apply (drop_unused _ _ Hf). }
      destruct (body locked) as [copied w'|e w'|]; [| |reflexivity];
        simpl in K; destruct K as [K1 K2]; rewrite K1;
        cbn [file_of]; rewrite handle_eqb_refl;
        cbn [flock set_locks w_fds w_fs w_locks]; rewrite K1, K2;
        cbn [file_of]; rewrite handle_eqb_refl;
        (f_equal; f_equal;
         [exact Hdrop | rewrite Hu; apply (unlock_unused _ _ Hl)]).
Qed.

(** ** Calls of [flock], taken apart *)

Lemma fd_lock_enter_inv pid fd excl w w' :
  fd_lock_enter pid fd excl w = Ret tt w' ->
  exists file,
    file_of (pid, fd) (w_fds w) = Some file
    /\ conflicts (pid, fd) file excl (w_locks w) = false
    /\ w' = set_locks w (((pid, fd), file, excl)
                          :: unlock (pid, fd) (w_locks w)).
Proof.
  unfold fd_lock_enter, fcntl_flock. intros H.
  destruct (file_of (pid, fd) (w_fds w)) as [file|]; [|discriminate].
  exists file. destruct excl; simpl in H;
    destruct (conflicts (pid, fd) file _ (w_locks w)); try discriminate;
    injection H as <-; auto.
Qed.

Lemma fd_lock_exit_inv pid fd w w' :
  fd_lock_exit pid fd w = Ret tt w' ->
  w' = set_locks w (unlock (pid, fd) (w_locks w)).
Proof.
  unfold fd_lock_exit, fcntl_flock. intros H.
  destruct (file_of (pid, fd) (w_fds w)); [|discriminate].
  simpl in H. now injection H as <-.
Qed.

Lemma unlock_In h ls l :
  In l (unlock h ls) <-> In l ls /\ fst (fst l) <> h.
Proof.
  unfold unlock. rewrite filter_In, negb_true_iff. split; intros [H1 H2];
    split; auto.
  - intros <-. now rewrite handle_eqb_refl in H2.
  - destruct (handle_eqb h (fst (fst l))) eqn:E; [|reflexivity].
    apply handle_eqb_eq in E. congruence.
Qed.

Lemma fd_lock_enter_ok pid fd excl w file :
  file_of (pid, fd) (w_fds w) = Some file ->
  conflicts (pid, fd) file excl (w_locks w) = false ->
  fd_lock_enter pid fd excl w
  = Ret tt (set_locks w (((pid, fd), file, excl)
                         :: unlock (pid, fd) (w_locks w))).
Proof.
  intros Hf Hc. unfold fd_lock_enter, fcntl_flock. rewrite Hf.
  destruct excl; simpl; rewrite Hc; reflexivity.
Qed.

(** ** Fuel *)

Lemma os_walk_mono {A} (body : entry -> A -> M node A) fuel :
  forall stack acc fs r fs',
    os_walk body fuel stack acc fs = Ret r fs' ->
    forall k, os_walk body (fuel + k) stack acc fs = Ret r fs'.
Proof.
  induction fuel as [|fuel IH]; intros stack acc fs r fs' H k.
  - destruct stack; [|discriminate]. simpl in H. now destruct k.
  - destruct stack as [|top rest]; [exact H|].
    simpl in *. destruct (scandir fs top) as [es|].
    + destruct (for_each body (yields top es) acc fs); try discriminate.
      now apply IH.
    + now apply IH.
Qed.

(** What a copy that returned has recorded. *)
Lemma copy_tree_ret umask fuel src dst exclude fs copied fs' :
  wf fs = true -> overlap src dst = false ->
  copy_tree umask fuel src dst exclude fs = Ret copied fs' ->
  exists tree,
    resolve fs src = Ok tree /\ is_dir_node tree = true /\ wf tree = true
    /\ copied = map (target src dst)
                  (filter (not_excluded src exclude) (walk_list src tree))
    /\ for_each (copy_tree_body umask src dst exclude)
         (walk_list src tree) [] fs = Ret copied fs'.
Proof.
  intros Hwf Hap H. unfold copy_tree, for_recursive_iglob in H.
  destruct (isdir fs src) eqn:Ed; [|discriminate].
  unfold isdir in Ed.
  destruct (resolve fs src) as [[|m es]|] eqn:Er; try discriminate.
  set (tree := Dir m es) in *.
  assert (wf tree = true) as Hwft by (eapply wf_resolve; eassumption).
  pose proof (os_walk_mono _ _ _ _ _ _ _ H (ndirs tree)) as H'.
  assert (for_each (copy_tree_body umask src dst exclude)
            (walk_list src tree) [] fs = Ret copied fs') as Hf.
  { assert (forall e acc s acc' s',
              resolve s src = Ok tree ->
              copy_tree_body umask src dst exclude e acc s = Ret acc' s' ->
              resolve s' src = Ok tree) as Hkeeps.
    { intros e acc s acc' s' Hs Hb.
      pose proof (@copy_tree_body_keeps umask src dst exclude Hap
                    tree e acc s Hs) as K.
      rewrite Hb in K. exact K. }
    assert (ndirs tree <= fuel + ndirs tree) as Hle by lia.
    pose proof (@for_recursive_iglob_eager _
                  (copy_tree_body umask src dst exclude) src tree Hkeeps
                  (fuel + ndirs tree) [] fs Er eq_refl Hwft Hle) as E.
    unfold for_recursive_iglob, isdir in E. rewrite Er in E.
    fold tree in H'. rewrite H' in E. now symmetry. }
  exists tree. repeat split; auto.
  apply (@copy_tree_body_record umask src dst exclude) in Hf. exact Hf.
Qed.

Lemma NoDup_map_filter {X Y} (g : X -> Y) (f : X -> bool) l :
  NoDup (map g l) -> NoDup (map g (filter f l)).
Proof.
  induction l as [|x l IH]; simpl; [auto|]. intros H.
  inversion H as [|? ? Hx Hl]; subst. destruct (f x); simpl; [|auto].
  constructor; [|auto]. intros Hin. apply Hx.
  apply in_map_iff in Hin. destruct Hin as [y [Hy Hin]].
  apply filter_In in Hin. apply in_map_iff. exists y. tauto.
Qed.

Lemma NoDup_targets src dst (l : list entry) :
  NoDup (map snd l) ->
  (forall e, In e l -> exists rel, snd e = src ++ rel) ->
  NoDup (map snd (map (target src dst) l)).
Proof.
  induction l as [|e l IH]; intros Hnd Hsh; simpl; [constructor|].
  inversion Hnd as [|? ? He Hl]; subst. constructor.
  - intros Hin. apply He. rewrite map_map in Hin. apply in_map_iff in Hin.
    destruct Hin as [e' [Heq Hin]]. unfold target in Heq. simpl in Heq.
    apply app_inv_head in Heq.
    destruct (Hsh e (or_introl eq_refl)) as [r Hr].
    destruct (Hsh e' (or_intror Hin)) as [r' Hr'].
    rewrite Hr, Hr', !relpath_app in Heq. subst r'.
    apply in_map_iff. exists e'. split; [congruence | assumption].
  - apply IH; [assumption|]. intros x Hx. apply Hsh. now right.
Qed.

Lemma record_shape src dst exclude tree :
  wf tree = true ->
  let copied := map (target src dst)
                  (filter (not_excluded src exclude) (walk_list src tree)) in
  NoDup (map snd copied)
  /\ (forall k p, In (k, p) copied ->
        exists rel, rel <> [] /\ p = dst ++ rel
                    /\ In (k, src ++ rel) (walk_list src tree)).
Proof.
  intros Hwf copied. split.
  - unfold copied. rewrite map_map.
    pose proof (NoDup_map_filter snd (not_excluded src exclude) _
                  (walk_list_nodup tree src Hwf)) as Hnd.
    assert (forall e, In e (filter (not_excluded src exclude)
                              (walk_list src tree)) ->
                      exists rel, snd e = src ++ rel) as Hsh.
    { intros [k p] He. apply filter_In in He. destruct He as [He _].
      destruct (walk_list_sound _ _ _ _ Hwf He) as [r [n [_ [-> _]]]].
      now exists r. }
    rewrite <- map_map. now apply NoDup_targets.
  - intros k p Hin. unfold copied in Hin. apply in_map_iff in Hin.
    destruct Hin as [[k' q] [Heq Hin]]. apply filter_In in Hin.
    destruct Hin as [Hin _]. unfold target in Heq. simpl in Heq.
    injection Heq as -> <-.
    destruct (walk_list_sound _ _ _ _ Hwf Hin) as [r [n [Hr [-> _]]]].
    exists r. rewrite relpath_app. auto.
Qed.

(** ** Permission stamping *)

Lemma chmod_stat_other q mode fs fs' p :
  chmod q mode fs = Ok fs' -> p <> q -> stat fs' p = stat fs p.
Proof.
  intros H Hne. destruct (chmod_lookup _ _ _ H) as [n [Hn Hn']].
  destruct (is_prefix q p) eqn:Ep.
  - apply is_prefix_spec in Ep. destruct Ep as [r ->].
    apply lookup_resolve in Hn, Hn'.
    unfold stat. rewrite !resolve_app, Hn, Hn'.
    destruct r as [|c r]; [now rewrite app_nil_r in Hne|].
    now destruct n.
  - unfold chmod in H. now apply (alter_stat_outside _ _ _ p H).
Qed.

Lemma for_each_ext {S A X} (b1 b2 : X -> A -> M S A) :
  (forall x a s, b1 x a s = b2 x a s) ->
  forall l a s, for_each b1 l a s = for_each b2 l a s.
Proof.
  intros He. induction l as [|x l IH]; intros a s; simpl; [reflexivity|].
  unfold bind. rewrite He. destruct (b2 x a s); auto.
Qed.

Lemma chmod_student_eq e u :
  chmod_student e u = syscall (chmod (snd e) (student_mode (fst e))).
Proof. destruct e as [[|] p]; reflexivity. Qed.

Lemma chmod_script_eq e u :
  chmod_script e u = syscall (chmod (snd e) (script_mode (fst e))).
Proof. destruct e as [[|] p]; reflexivity. Qed.

Section ChmodLoop.

Variable f : kind -> Z.

Lemma chmod_all_cons e entries fs fs' :
  for_each (chmod_all f) (e :: entries) tt fs = Ret tt fs' ->
  exists fs1, chmod (snd e) (f (fst e)) fs = Ok fs1
              /\ for_each (chmod_all f) entries tt fs1 = Ret tt fs'.
Proof.
  rewrite for_each_cons. unfold chmod_all at 1, syscall.
  destruct (chmod (snd e) (f (fst e)) fs) as [fs1|]; [|discriminate].
  eauto.
Qed.

Lemma chmod_all_other entries :
  forall fs fs' p,
    for_each (chmod_all f) entries tt fs = Ret tt fs' ->
    ~ In p (map snd entries) -> stat fs' p = stat fs p.
Proof.
  induction entries as [|e entries IH]; intros fs fs' p H Hp.
  - simpl in H. now injection H as <-.
  - apply chmod_all_cons in H. destruct H as [fs1 [H1 H2]].
    rewrite (IH _ _ p H2) by (intros Hin; apply Hp; now right).
    apply (chmod_stat_other _ _ _ _ p H1). intros ->. apply Hp. now left.
Qed.

Lemma chmod_all_set entries :
  forall fs fs' k p,
    for_each (chmod_all f) entries tt fs = Ret tt fs' ->
    NoDup (map snd entries) -> In (k, p) entries ->
    mode_at fs' p = Some (f k).
Proof.
  induction entries as [|e entries IH]; intros fs fs' k p H Hnd Hin.
  - destruct Hin.
  - apply chmod_all_cons in H. destruct H as [fs1 [H1 H2]].
    inversion Hnd as [|? ? He Hl]; subst. destruct Hin as [->|Hin].
    + rewrite mode_at_stat, (chmod_all_other _ _ _ p H2 He), <- mode_at_stat.
      simpl in H1. rewrite (chmod_mode_at _ _ _ p H1).
      now rewrite path_eqb_refl.
    + eapply IH; eassumption.
Qed.

Lemma chmod_all_wf entries :
  forall fs fs',
    wf fs = true -> for_each (chmod_all f) entries tt fs = Ret tt fs' ->
    wf fs' = true.
Proof.
  induction entries as [|e entries IH]; intros fs fs' Hwf H.
  - simpl in H. now injection H as <-.
  - apply chmod_all_cons in H. destruct H as [fs1 [H1 H2]].
    apply (IH _ _ (@chmod_wf _ _ fs fs1 Hwf H1) H2).
Qed.

End ChmodLoop.

(** ** What a copy leaves as it is *)

Lemma copy_tree_body_keeps_stat umask src dst exclude fd q acc fs p s :
  stat fs p = Some s ->
  fst s = IsDir \/
  (p <> dst ++ relpath q src /\
   p <> (dst ++ relpath q src) ++ [basename q]) ->
  stops_in (fun fs' => stat fs' p = Some s)
    (copy_tree_body umask src dst exclude (fd, q) acc fs).
Proof.
  intros Hs Hc. unfold copy_tree_body.
  destruct (in_dec path_eq_dec (relpath q src) exclude); [exact Hs|].
  assert (forall t x x', stat x p = Some s -> makedirs umask t x = Ok x' ->
                         stat x' p = Some s) as Hmk.
  { intros t x x' Hx H. rewrite (@makedirs_stat umask t x x' p H).
    now rewrite Hx. }
  apply bind_stops_in; [|intros; assumption].
  destruct fd.
  - apply syscall_stops_in; [assumption|]. intros fs'. now apply Hmk.
  - apply bind_stops_in.
    + apply syscall_stops_in; [assumption|]. intros fs'. now apply Hmk.
    + intros _ fs1 Hfs1. apply syscall_stops_in; [assumption|].
      intros fs' H. apply copy2_writes in H.
      destruct H as [m [t [d [x [_ [Hx H]]]]]].
      rewrite (@write_file_stat _ m t d fs1 fs' p H).
      destruct (path_eqb p _) eqn:E; [|assumption].
      apply path_eqb_eq in E. exfalso. destruct Hc as [Hc|[Hc1 Hc2]].
      * apply write_file_not_dir in H. rewrite <- E in H.
        unfold isdir in H. unfold stat in Hfs1.
        destruct (resolve fs1 p) as [[|]|]; try discriminate.
        injection Hfs1 as <-. discriminate.
      * destruct Hx as [-> | ->]; [rewrite app_nil_r in E|]; contradiction.
Qed.

(** Directories keep their permission bits through a copy. *)
Lemma copy_tree_keeps_dir_stat umask fuel src dst exclude fs p m :
  stat fs p = Some (IsDir, m) ->
  stops_in (fun fs' => stat fs' p = Some (IsDir, m))
    (copy_tree umask fuel src dst exclude fs).
Proof.
  intros Hp. unfold copy_tree, for_recursive_iglob.
  destruct (isdir fs src); [|exact Hp].
  apply os_walk_stops_in; [|assumption].
  intros [fd q] acc s Hs. apply copy_tree_body_keeps_stat; auto.
Qed.

Lemma for_each_copy_keeps_stat umask src dst exclude entries p s :
  (forall e, In e entries ->
     p <> dst ++ relpath (snd e) src /\
     p <> (dst ++ relpath (snd e) src) ++ [basename (snd e)] \/ fst e = D) ->
  forall acc fs,
    stat fs p = Some s ->
    stops_in (fun fs' => stat fs' p = Some s)
      (for_each (copy_tree_body umask src dst exclude) entries acc fs).
Proof.
  induction entries as [|[fd q] entries IH]; intros He acc fs Hs; [exact Hs|].
  simpl for_each. apply bind_stops_in.
  - destruct (He (fd, q) (or_introl eq_refl)) as [Hq|Hq].
    + apply copy_tree_body_keeps_stat; auto.
    + simpl in Hq. subst fd. unfold copy_tree_body.
      destruct (in_dec path_eq_dec (relpath q src) exclude); [exact Hs|].
      apply bind_stops_in; [|intros; assumption].
      apply syscall_stops_in; [assumption|]. intros fs' H.
      rewrite (@makedirs_stat umask _ fs fs' p H). now rewrite Hs.
  - intros a s' Hs'. apply IH; [|assumption].
    intros e Hin. apply He. now right.
Qed.

(** ** Taking a returned computation apart *)

Lemma bind_ret_inv {S A B} (m : M S A) (k : A -> M S B) s b s'' :
  (x <- m ;; k x) s = Ret b s'' ->
  exists a s', m s = Ret a s' /\ k a s' = Ret b s''.
Proof.
  unfold bind. destruct (m s) as [a s'| |]; try discriminate. eauto.
Qed.

Lemma syscall_ret_inv {S} (op : S -> res S) s u s' :
  syscall op s = Ret u s' -> op s = Ok s'.
Proof.
  unfold syscall. destruct (op s); [|discriminate]. now intros [= _ <-].
Qed.

Lemma finally_ret_inv {S A} (m : M S A) (c : M S unit) s a s'' :
  finally m c s = Ret a s'' ->
  exists s', m s = Ret a s' /\ c s' = Ret tt s''.
Proof.
  unfold finally. destruct (m s) as [a' s'|e s'|]; try discriminate.
  - destruct (c s') as [[] x| |] eqn:E; try discriminate.
    intros [= <- <-]. eauto.
  - destruct (c s'); discriminate.
Qed.

Lemma zoom_ret_inv {A} (m : M node A) w a w' :
  zoom m w = Ret a w' -> m (w_fs w) = Ret a (w_fs w').
Proof.
  unfold zoom. destruct (m (w_fs w)); try discriminate.
  now intros [= <- <-].
Qed.

Lemma fcntl_flock_fs pid fd op w u w' :
  fcntl_flock pid fd op w = Ret u w' -> w_fs w' = w_fs w.
Proof.
  unfold fcntl_flock. destruct (file_of _ _); [|discriminate].
  destruct (flock _ _ _ _); [|discriminate]. now intros [= _ <-].
Qed.

Lemma os_open_call_fs pid p w fd w' :
  os_open_call pid p w = Ret fd w' -> w_fs w' = w_fs w.
Proof.
  unfold os_open_call. destruct (resolve _ _); [|discriminate].
  now intros [= _ <-].
Qed.

Lemma os_close_call_fs pid fd w u w' :
  os_close_call pid fd w = Ret u w' -> w_fs w' = w_fs w.
Proof.
  unfold os_close_call. destruct (file_of _ _); [|discriminate].
  now intros [= _ <-].
Qed.

Lemma copy_test_script_files_ret
  umask pid scripts files_dirname fuel address assignment tests_path w
  script w' :
  copy_test_script_files umask pid scripts files_dirname fuel address
    assignment tests_path w = Ret script w' ->
  (script = [] /\ w' = w) \/
  copy_tree umask fuel (scripts address assignment ++ [files_dirname])
    tests_path [] (w_fs w) = Ret script (w_fs w').
Proof.
  unfold copy_test_script_files.
  destruct (isdir (w_fs w) _); [|intros [= <- <-]; now left].
  intros H. right. unfold fd_open in H.
  apply bind_ret_inv in H. destruct H as [fd [w1 [Ho H]]].
  apply finally_ret_inv in H. destruct H as [w2 [H Hc]].
  unfold fd_lock in H.
  apply bind_ret_inv in H. destruct H as [u [w3 [He H]]].
  apply finally_ret_inv in H. destruct H as [w4 [H Hx]].
  apply zoom_ret_inv in H.
  apply os_open_call_fs in Ho. apply os_close_call_fs in Hc.
  apply fcntl_flock_fs in He. apply fcntl_flock_fs in Hx.
  rewrite Hc, Hx. rewrite He, Ho in H. exact H.
Qed.

Lemma move_tree_ret umask fault fuel src dst fs moved fs' :
  move_tree umask fault fuel src dst fs = Ret moved fs' ->
  exists fs1 fs2,
    makedirs umask dst fs = Ok fs1
    /\ copy_tree umask fuel src dst [] fs1 = Ret moved fs2
    /\ rmtree fault ignore_missing_dir_error src fs2 = Ret tt fs'.
Proof.
  unfold move_tree. intros H.
  apply bind_ret_inv in H. destruct H as [u [fs1 [H1 H]]].
  apply syscall_ret_inv in H1.
  apply bind_ret_inv in H. destruct H as [m [fs2 [H2 H]]].
  apply bind_ret_inv in H. destruct H as [[] [fs3 [H3 H]]].
  unfold ret in H. injection H as <- <-. eauto.
Qed.

Lemma setup_files_ret
  umask fault pid scripts files_dirname fuel files_path tests_path
  address assignment w student script w' :
  setup_files umask fault pid scripts files_dirname fuel files_path
    tests_path address assignment w = Ret (student, script) w' ->
  exists fs1 fs2 fs3 w4,
    chmod tests_path (octal [1; 7; 7; 0]) (w_fs w) = Ok fs1
    /\ move_tree umask fault fuel files_path tests_path fs1
       = Ret student fs2
    /\ for_each (chmod_all student_mode) student tt fs2 = Ret tt fs3
    /\ ((script = [] /\ w_fs w4 = fs3) \/
        copy_tree umask fuel (scripts address assignment ++ [files_dirname])
          tests_path [] fs3 = Ret script (w_fs w4))
    /\ for_each (chmod_all script_mode) script tt (w_fs w4)
       = Ret tt (w_fs w').
Proof.
  unfold setup_files. intros H.
  apply bind_ret_inv in H. destruct H as [u1 [w1 [H1 H]]].
  apply zoom_ret_inv, syscall_ret_inv in H1.
  apply bind_ret_inv in H. destruct H as [st [w2 [H2 H]]].
  apply zoom_ret_inv in H2.
  apply bind_ret_inv in H. destruct H as [u3 [w3 [H3 H]]].
  apply zoom_ret_inv in H3.
  apply bind_ret_inv in H. destruct H as [sc [w4 [H4 H]]].
  apply bind_ret_inv in H. destruct H as [u5 [w5 [H5 H]]].
  apply zoom_ret_inv in H5.
  unfold ret in H. injection H as <- <- <-.
  exists (w_fs w1), (w_fs w2), (w_fs w3), w4. repeat split; auto.
  - destruct u3. rewrite <- H3.
    apply for_each_ext. intros. unfold chmod_all.
    now rewrite chmod_student_eq.
  - apply copy_test_script_files_ret in H4.
    destruct H4 as [[-> ->]|H4]; [left; auto | right; exact H4].
  - destruct u5. rewrite <- H5.
    apply for_each_ext. intros. unfold chmod_all.
    now rewrite chmod_script_eq.
Qed.

(** ** Claims about the staging *)

Lemma mode_at_stat_ex fs p m :
  mode_at fs p = Some m -> exists it, stat fs p = Some (it, m).
Proof.
  rewrite mode_at_stat. destruct (stat fs p) as [[it m']|]; [|discriminate].
  intros [= <-]. eauto.
Qed.

Lemma stat_mode_at fs p it m : stat fs p = Some (it, m) -> mode_at fs p = Some m.
Proof. intros H. now rewrite mode_at_stat, H. Qed.

Lemma not_in_targets dst (l : list entry) :
  (forall k p, In (k, p) l -> exists rel, rel <> [] /\ p = dst ++ rel
                                          /\ True) ->
  ~ In dst (map snd l).
Proof.
  intros H Hin. apply in_map_iff in Hin. destruct Hin as [[k p] [Heq Hin]].
  simpl in Heq. subst p. destruct (H _ _ Hin) as [rel [Hr [Heq _]]].
  rewrite <- (app_nil_r dst) in Heq at 1. apply app_inv_head in Heq.
  congruence.
Qed.

(** What a script copy that returned leaves of the entries that were in the
    workspace before. *)
Lemma script_copy_keeps umask fuel src dst fs script fs' p s :
  wf fs = true -> overlap src dst = false ->
  copy_tree umask fuel src dst [] fs = Ret script fs' ->
  stat fs p = Some s ->
  fst s = IsDir \/ (~ In p (map snd script) /\ ~ In (F, dirname p) script) ->
  stat fs' p = Some s.
Proof.
  intros Hwf Hap Hc Hs [Hd|[Hp Hpar]].
  - destruct s as [it m]. simpl in Hd. subst it.
    pose proof (copy_tree_keeps_dir_stat umask fuel src dst [] fs p m Hs) as K.
    now rewrite Hc in K.
  - destruct (copy_tree_ret _ _ _ _ _ _ _ _ Hwf Hap Hc)
      as [tree [_ [_ [_ [Hrec Hfor]]]]].
    rewrite filter_not_excluded_nil in Hrec.
    pose proof (for_each_copy_keeps_stat umask src dst []
                  (walk_list src tree) p s) as K.
    specialize (fun H => K H [] fs Hs). rewrite Hfor in K. apply K.
    intros [k q] Hin. destruct k; [now right|]. left. cbn [snd].
    assert (In (F, dst ++ relpath q src) script) as Hin'.
    { rewrite Hrec. apply in_map_iff. exists (F, q). auto. }
    split.
    + intros ->. apply Hp. apply in_map_iff. now exists (F, dst ++ relpath q src).
    + intros ->. apply Hpar. now rewrite dirname_snoc.
Qed.

(** C1 (amended).  After [setup_files] has returned, with the submission
    directory and the script directory each lying outside the workspace and
    the workspace outside them: the workspace root has mode 01770; every
    entry of the script record has mode 0755 when recorded as a directory
    and 0644 when recorded as a file; and an entry of the student record
    has mode 0777 when recorded as a directory and 0666 when recorded as a
    file, unless the script copy, which runs afterwards, has put a script
    entry at the same path or copied a script file into it. *)
Theorem setup_files_modes
  umask fault pid scripts files_dirname fuel files_path tests_path
  address assignment w student script w' :
  wf (w_fs w) = true ->
  overlap files_path tests_path = false ->
  overlap (scripts address assignment ++ [files_dirname]) tests_path
  = false ->
  setup_files umask fault pid scripts files_dirname fuel files_path
    tests_path address assignment w = Ret (student, script) w' ->
  mode_at (w_fs w') tests_path = Some (octal [1; 7; 7; 0])
  /\ (forall k p, In (k, p) script ->
        mode_at (w_fs w') p = Some (script_mode k))
  /\ (forall k p,
        In (k, p) student ->
        ~ In p (map snd script) -> ~ In (F, dirname p) script ->
        mode_at (w_fs w') p = Some (student_mode k)).
Proof.
  intros Hwf Hap1 Hap2 H.
  apply setup_files_ret in H.
  destruct H as [fs1 [fs2 [fs3 [w4 [Hch [Hmv [Hst [Hsc Hfin]]]]]]]].
  apply move_tree_ret in Hmv. destruct Hmv as [fa [fb [Hmk [Hcp Hrm]]]].
  assert (wf fs1 = true) as Hwf1 by apply (@chmod_wf _ _ _ _ Hwf Hch).
  assert (wf fa = true) as Hwfa by apply (@makedirs_wf _ _ _ _ Hwf1 Hmk).
  assert (wf fb = true) as Hwfb.
  { pose proof (copy_tree_wf umask fuel files_path tests_path [] fa Hwfa) as K.
    now rewrite Hcp in K. }
  assert (wf fs2 = true) as Hwf2.
  { pose proof (rmtree_wf fault ignore_missing_dir_error files_path fb Hwfb)
      as K. now rewrite Hrm in K. }
  assert (wf fs3 = true) as Hwf3
    by apply (chmod_all_wf _ _ _ _ Hwf2 Hst).
  (* the student record *)
  destruct (copy_tree_ret _ _ _ _ _ _ _ _ Hwfa Hap1 Hcp)
    as [tf [_ [_ [Hwtf [Hstu _]]]]].
  destruct (record_shape files_path tests_path [] tf Hwtf) as [Hnd1 Hsh1].
  rewrite <- Hstu in Hnd1, Hsh1.
  (* the script record *)
  assert (NoDup (map snd script) /\
          (forall k p, In (k, p) script ->
             exists rel, rel <> [] /\ p = tests_path ++ rel /\ True) /\
          (forall p s, stat fs3 p = Some s ->
             fst s = IsDir \/
             (~ In p (map snd script) /\ ~ In (F, dirname p) script) ->
             stat (w_fs w4) p = Some s)) as [Hnd2 [Hsh2 Hkeep]].
  { destruct Hsc as [[-> ->]|Hsc].
    - repeat split; [constructor | intros k p [] | auto].
    - destruct (copy_tree_ret _ _ _ _ _ _ _ _ Hwf3 Hap2 Hsc)
        as [ts [_ [_ [Hwts [Hscr _]]]]].
      destruct (record_shape (scripts address assignment ++ [files_dirname])
                  tests_path [] ts Hwts) as [Hnd Hsh].
      rewrite <- Hscr in Hnd, Hsh. repeat split; [assumption| |].
      + intros k p Hin. destruct (Hsh k p Hin) as [rel [Hr [Hp _]]]. eauto.
      + intros p s Hs Hc.
        exact (script_copy_keeps umask fuel _ _ fs3 script (w_fs w4) p s
                 Hwf3 Hap2 Hsc Hs Hc). }
  pose proof (proj1 (overlap_false _ _) Hap1) as [Hpre1 _].
  repeat split.
  - (* the workspace root *)
    pose proof (chmod_mode_at _ _ _ tests_path Hch) as Hm1.
    rewrite path_eqb_refl in Hm1.
    destruct (mode_at_stat_ex _ _ _ Hm1) as [it Hs1].
    assert (stat fa tests_path = Some (IsDir, octal [1; 7; 7; 0])) as Hsa.
    { pose proof (@makedirs_stat umask tests_path fs1 fa tests_path Hmk) as E.
      rewrite Hs1 in E.
      pose proof (@makedirs_isdir umask tests_path fs1 fa Hmk) as Hd.
      apply isdir_view in Hd. rewrite view_stat, E in Hd. simpl in Hd.
      injection Hd as ->. exact E. }
    assert (stat fb tests_path = Some (IsDir, octal [1; 7; 7; 0])) as Hsb.
    { pose proof (copy_tree_keeps_dir_stat umask fuel files_path tests_path
                    [] fa tests_path _ Hsa) as K.
      now rewrite Hcp in K. }
    assert (stat fs2 tests_path = Some (IsDir, octal [1; 7; 7; 0])) as Hs2.
    { pose proof (rmtree_outside fault ignore_missing_dir_error files_path fb)
        as K. rewrite Hrm in K. simpl in K. now rewrite K. }
    assert (stat fs3 tests_path = Some (IsDir, octal [1; 7; 7; 0])) as Hs3.
    { rewrite (chmod_all_other _ _ _ _ tests_path Hst); [assumption|].
      apply not_in_targets. intros k p Hin.
      destruct (Hsh1 k p Hin) as [rel [Hr [Hp _]]]. eauto. }
    assert (stat (w_fs w4) tests_path = Some (IsDir, octal [1; 7; 7; 0]))
      as Hs4 by (apply Hkeep; [assumption | now left]).
    eapply stat_mode_at.
    rewrite (chmod_all_other _ _ _ _ tests_path Hfin); [exact Hs4|].
    now apply not_in_targets.
  - (* the script record *)
    intros k p Hin. eapply chmod_all_set; eassumption.
  - (* the student record *)
    intros k p Hin Hp Hpar.
    pose proof (chmod_all_set _ _ _ _ _ _ Hst Hnd1 Hin) as Hm3.
    destruct (mode_at_stat_ex _ _ _ Hm3) as [it Hs3].
    assert (stat (w_fs w4) p = Some (it, student_mode k)) as Hs4
      by (apply Hkeep; [assumption | now right]).
    eapply stat_mode_at.
    rewrite (chmod_all_other _ _ _ _ p Hfin); [exact Hs4 | assumption].
Qed.

Lemma setup_files_modes_witness :
  exists w',
    setup_files 18 no_fault 7 (fun _ _ => ["scripts"%string]) "files" 4
      ["sub"%string] ["tmp"%string; "w"%string] "addr" 3
      (World scripted_fs [] [])
    = Ret ([(D, ["tmp"; "w"; "b"]); (F, ["tmp"; "w"; "a.txt"]);
            (F, ["tmp"; "w"; "b"; "c.txt"])]%string,
           [(F, ["tmp"; "w"; "run.sh"])]%string) w'
    /\ mode_at (w_fs w') ["tmp"%string; "w"%string] = Some (octal [1; 7; 7; 0])
    /\ mode_at (w_fs w') ["tmp"; "w"; "run.sh"]%string = Some (octal [6; 4; 4])
    /\ mode_at (w_fs w') ["tmp"; "w"; "a.txt"]%string = Some (octal [6; 6; 6])
    /\ mode_at (w_fs w') ["tmp"; "w"; "b"]%string = Some (octal [7; 7; 7])
    /\ mode_at (w_fs w') ["tmp"; "w"; "b"; "c.txt"]%string
       = Some (octal [6; 6; 6]).
Proof.
  eexists. split; [vm_compute; reflexivity|].
  destruct (setup_files_modes 18 no_fault 7 (fun _ _ => ["scripts"%string])
              "files" 4 ["sub"%string] ["tmp"%string; "w"%string] "addr" 3
              (World scripted_fs [] []) _ _ _
              eq_refl eq_refl eq_refl eq_refl) as [Hroot [Hscr Hstu]].
  split; [exact Hroot|].
  split; [apply (Hscr F); simpl; auto|].
  split; [|split].
  - apply (Hstu F); simpl; [auto | |]; intros [E|[]]; discriminate E.
  - apply (Hstu D); simpl; [auto | |]; intros [E|[]]; discriminate E.
  - apply (Hstu F); simpl; [auto | |]; intros [E|[]]; discriminate E.
Defined.

(** C1, as stated, fails when the submission and the script directory hold
    an entry of the same name: the script copy runs after the student modes
    are set, [shutil.copy2] replaces the student file and its mode, and the
    path, still listed in the student record, ends with mode 0644. *)
Lemma setup_files_script_replaces_student :
  exists w',
    setup_files 18 no_fault 7 (fun _ _ => ["scripts"%string]) "files" 4
      ["sub"%string] ["tmp"%string; "w"%string] "addr" 3
      (World graded_fs [] [])
    = Ret ([(F, ["tmp"; "w"; "test.py"])]%string,
           [(F, ["tmp"; "w"; "test.py"])]%string) w'
    /\ mode_at (w_fs w') ["tmp"; "w"; "test.py"]%string
       = Some (octal [6; 4; 4])
    /\ octal [6; 4; 4] <> student_mode F.
Proof.
  eexists. split; [vm_compute; reflexivity|].
  split; [reflexivity | discriminate].
Defined.

(** ** Claim about the extraction of an archive *)

Lemma is_prefix_length (p q : path) :
  is_prefix p q = true -> List.length p <= List.length q.
Proof.
  intros H. apply is_prefix_spec in H. destruct H as [r ->].
  rewrite length_app. lia.
Qed.

Lemma dirname_length (q : path) :
  q <> [] -> S (List.length (dirname q)) = List.length q.
Proof.
  intros H. destruct (exists_last H) as [l [c ->]].
  rewrite dirname_snoc, length_app. simpl. lia.
Qed.

Lemma is_prefix_dirname (r q : path) :
  q <> [] ->
  (is_prefix r q = true <-> r = q \/ is_prefix r (dirname q) = true).
Proof.
  intros H. destruct (exists_last H) as [l [c ->]]. rewrite dirname_snoc.
  split.
  - intros Hp. apply is_prefix_spec in Hp. destruct Hp as [s Hs].
    destruct (list_eq_dec string_dec s []) as [->|Hne].
    + left. now rewrite app_nil_r in Hs.
    + right. destruct (exists_last Hne) as [s' [c' ->]].
      rewrite app_assoc in Hs. apply app_inj_tail in Hs.
      destruct Hs as [-> _]. apply is_prefix_app.
  - intros [->|Hp]; [apply is_prefix_refl|].
    apply is_prefix_spec in Hp. destruct Hp as [s ->].
    rewrite <- app_assoc. apply is_prefix_app.
Qed.

Lemma isdir_prefix fs (p s : path) :
  isdir fs (p ++ s) = true -> isdir fs p = true.
Proof.
  unfold isdir. rewrite resolve_app.
  destruct (resolve fs p) as [[m t d|m es]|e]; try discriminate; auto.
  destruct s; simpl; discriminate.
Qed.

Section ArchiveFacts.

Variables umask now : Z.
Variable dst : path.
Variable n : nat.

Lemma stripped_paths_In archive p :
  In p (stripped_paths n archive) <->
  exists e, In e archive /\ stripped n e = p /\ p <> [].
Proof.
  unfold stripped_paths. rewrite filter_In, in_map_iff, negb_true_iff.
  split.
  - intros [[e [He Hin]] Hp]. exists e. repeat split; auto.
    intros ->. now rewrite path_eqb_refl in Hp.
  - intros [e [Hin [He Hp]]]. split; [now exists e|].
    destruct (path_eqb p []) eqn:E; [|reflexivity].
    apply path_eqb_eq in E. contradiction.
Qed.

(** The directories on the way to a path that no file entry is a prefix
    of can be created. *)
Lemma extract_inv_way done fs q :
  extract_inv dst n done fs ->
  (forall e, In e done -> z_kind e = F -> stripped n e <> [] ->
             is_prefix (stripped n e) q = false) ->
  forall p, is_prefix p (dst ++ q) = true ->
            view fs p = None \/ view fs p = Some IsDir.
Proof.
  intros [Ha [_ Hd]] Hq p Hp.
  destruct (is_prefix_split _ _ _ Hp) as [H|[r [Hr [-> Hrq]]]].
  - right. now apply Ha.
  - destruct (view fs (dst ++ r)) as [[|m t d]|] eqn:E; auto.
    assert (is_file_item (view fs (dst ++ r)) = true) as Hf
      by now rewrite E.
    apply (Hd r Hr) in Hf. destruct Hf as [e [Hin [Hk Hs]]].
    rewrite <- Hs in Hr.
    pose proof (Hq e Hin Hk Hr) as K. rewrite Hs in K. congruence.
Qed.

Lemma extract_entry_step done e fs :
  extract_inv dst n done fs ->
  files_are_leaves n (done ++ [e]) ->
  escapes (stripped n e) = false ->
  exists fs',
    extract_entry umask now dst n e tt fs = Ret tt fs'
    /\ extract_inv dst n (done ++ [e]) fs'.
Proof.
  intros Hinv Hleaf Hesc. pose proof Hinv as [Ha [Hc Hd]].
  assert (forall e', In e' (done ++ [e]) <-> In e' done \/ e' = e) as Hin.
  { intros e'. rewrite in_app_iff. simpl. intuition congruence. }
  unfold extract_entry. destruct (stripped n e) as [|c0 rel0] eqn:Es.
  - (* skipped *)
    exists fs. split; [reflexivity|]. split; [exact Ha|]. split.
    + intros r Hr. rewrite (Hc r Hr). split.
      * intros [e' [H1 H2]]. exists e'. rewrite Hin. auto.
      * intros [e' [H1 [H2 H3]]]. exists e'. apply Hin in H1.
        destruct H1 as [H1| ->]; [auto | congruence].
    + intros r Hr. rewrite (Hd r Hr). split.
      * intros [e' [H1 H2]]. exists e'. rewrite Hin. auto.
      * intros [e' [H1 [H2 H3]]]. exists e'. apply Hin in H1.
        destruct H1 as [H1| ->]; [auto | congruence].
  - rewrite Hesc. set (rel := c0 :: rel0) in *.
    assert (rel <> []) as Hrel by discriminate.
    destruct (z_kind e) eqn:Ek.
    + (* a directory entry *)
      destruct (makedirs_ok umask (dst ++ rel) fs) as [fs1 Hmk].
      { apply (extract_inv_way done fs rel Hinv).
        intros e' H1 H2 H3. destruct (is_prefix (stripped n e') rel) eqn:E;
          [|reflexivity].
        destruct (Hleaf e' e) as [K _]; try (apply Hin; auto); try assumption.
        - now rewrite Es.
        - congruence. }
      exists fs1. split; [unfold syscall; now rewrite Hmk|].
      pose proof (fun p => @view_makedirs umask (dst ++ rel) fs fs1 p Hmk)
        as Hv.
      split; [|split].
      * intros p Hp. rewrite Hv, (Ha p Hp). reflexivity.
      * intros r Hr. rewrite Hv, is_prefix_app_app. split.
        -- intros Hne.
           destruct (view fs (dst ++ r)) eqn:E.
           ++ assert (view fs (dst ++ r) <> None) as K by congruence.
              apply (Hc r Hr) in K. destruct K as [e' [H1 H2]].
              exists e'. rewrite Hin. auto.
           ++ destruct (is_prefix r rel) eqn:E2; [|congruence].
              exists e. rewrite Hin, Es. repeat split; auto.
        -- intros [e' [H1 [H2 H3]]]. apply Hin in H1.
           destruct H1 as [H1| ->].
           ++ assert (view fs (dst ++ r) <> None) as K
                by (apply (Hc r Hr); eauto).
              destruct (view fs (dst ++ r)); congruence.
           ++ rewrite Es in H3. fold rel in H3. rewrite H3.
              destruct (view fs (dst ++ r)); discriminate.
      * intros r Hr. rewrite Hv, is_prefix_app_app.
        assert (is_file_item
                  match view fs (dst ++ r) with
                  | Some i => Some i
                  | None => if is_prefix r rel then Some IsDir else None
                  end = is_file_item (view fs (dst ++ r))) as ->.
        { destruct (view fs (dst ++ r)); [reflexivity|].
          now destruct (is_prefix r rel). }
        rewrite (Hd r Hr). split.
        -- intros [e' [H1 H2]]. exists e'. rewrite Hin. auto.
        -- intros [e' [H1 [H2 H3]]]. exists e'. apply Hin in H1.
           destruct H1 as [H1| ->]; [auto | congruence].
    + (* a file entry *)
      destruct (makedirs_ok umask (dst ++ dirname rel) fs) as [fs1 Hmk].
      { apply (extract_inv_way done fs (dirname rel) Hinv).
        intros e' H1 H2 H3.
        destruct (is_prefix (stripped n e') (dirname rel)) eqn:E;
          [|reflexivity].
        assert (is_prefix (stripped n e') rel = true) as E'
          by (apply (is_prefix_dirname _ _ Hrel); auto).
        destruct (Hleaf e' e) as [_ K]; try (apply Hin; auto); try assumption.
        - now rewrite Es.
        - rewrite Es in K. fold rel in K. rewrite <- K in E.
          apply is_prefix_length in E.
          pose proof (dirname_length rel Hrel). lia. }
      pose proof (fun p =>
                    @view_makedirs umask (dst ++ dirname rel) fs fs1 p Hmk)
        as Hv1.
      assert (is_prefix rel (dirname rel) = false) as Hnp.
      { destruct (is_prefix rel (dirname rel)) eqn:E; [|reflexivity].
        apply is_prefix_length in E.
        pose proof (dirname_length rel Hrel). lia. }
      destruct (exists_last Hrel) as [par [c Hpc]].
      assert (dirname rel = par) as Hpar by (rewrite Hpc; apply dirname_snoc).
      destruct (write_file_ok (dst ++ par) c
                  (File (new_file_mode umask) now (z_data e)) fs1)
        as [fs2 Hwr].
      { rewrite <- Hpar. apply (@makedirs_isdir umask _ fs fs1 Hmk). }
      { rewrite <- app_assoc, <- Hpc, Hv1, is_prefix_app_app, Hnp.
        destruct (view fs (dst ++ rel)) as [[|m t d]|] eqn:E; try discriminate.
        assert (view fs (dst ++ rel) <> None) as K by congruence.
        apply (Hc rel Hrel) in K. destruct K as [e' [H1 [H2 H3]]].
        destruct (Hleaf e e') as [K1 K2]; try (apply Hin; auto);
          try assumption.
        - now rewrite Es.
        - now rewrite Es.
        - assert (is_file_item (view fs (dst ++ rel)) = true) as K.
          { apply (Hd rel Hrel). exists e'. rewrite K2, Es. auto. }
          rewrite E in K. discriminate. }
      rewrite <- app_assoc, <- Hpc in Hwr.
      exists fs2. split.
      { unfold bind, syscall. now rewrite Hmk, Hwr. }
      pose proof (fun p =>
                    @view_write_file (dst ++ rel) _ _ _ fs1 fs2 p Hwr)
        as Hv2.
      assert (forall r, path_eqb (dst ++ r) (dst ++ rel) = path_eqb r rel)
        as Heq.
      { intros r. destruct (path_eqb r rel) eqn:E.
        - apply path_eqb_eq in E. subst r. apply path_eqb_refl.
        - destruct (path_eqb (dst ++ r) (dst ++ rel)) eqn:E2; [|reflexivity].
          apply path_eqb_eq, app_inv_head in E2. subst r.
          now rewrite path_eqb_refl in E. }
      split; [|split].
      * intros p Hp. rewrite Hv2.
        destruct (path_eqb p (dst ++ rel)) eqn:E.
        -- apply path_eqb_eq in E. subst p. apply is_prefix_length in Hp.
           rewrite length_app in Hp. destruct rel; [congruence|simpl in Hp; lia].
        -- rewrite Hv1, (Ha p Hp). reflexivity.
      * intros r Hr. rewrite Hv2, Heq, Hv1, is_prefix_app_app. split.
        -- intros Hne. destruct (path_eqb r rel) eqn:E.
           ++ apply path_eqb_eq in E. subst r. exists e.
              rewrite Hin, Es. repeat split; auto. apply is_prefix_refl.
           ++ destruct (view fs (dst ++ r)) eqn:E1.
              ** assert (view fs (dst ++ r) <> None) as K by congruence.
                 apply (Hc r Hr) in K. destruct K as [e' [H1 H2]].
                 exists e'. rewrite Hin. auto.
              ** destruct (is_prefix r (dirname rel)) eqn:E2; [|congruence].
                 exists e. rewrite Hin, Es. repeat split; auto.
                 apply (is_prefix_dirname _ _ Hrel). auto.
        -- intros [e' [H1 [H2 H3]]].
           destruct (path_eqb r rel) eqn:E; [discriminate|].
           apply Hin in H1. destruct H1 as [H1| ->].
           ++ assert (view fs (dst ++ r) <> None) as K
                by (apply (Hc r Hr); eauto).
              destruct (view fs (dst ++ r)); congruence.
           ++ rewrite Es in H3. fold rel in H3.
              apply (is_prefix_dirname _ _ Hrel) in H3.
              destruct H3 as [->|H3];
                [now rewrite path_eqb_refl in E|].
              rewrite H3. destruct (view fs (dst ++ r)); discriminate.
      * intros r Hr. rewrite Hv2, Heq, Hv1, is_prefix_app_app.
        destruct (path_eqb r rel) eqn:E.
        -- apply path_eqb_eq in E. subst r. split; [|reflexivity].
           intros _. exists e. rewrite Hin, Es. auto.
        -- assert (is_file_item
                     match view fs (dst ++ r) with
                     | Some i => Some i
                     | None =>
                         if is_prefix r (dirname rel) then Some IsDir
                         else None
                     end = is_file_item (view fs (dst ++ r))) as ->.
           { destruct (view fs (dst ++ r)); [reflexivity|].
             now destruct (is_prefix r (dirname rel)). }
           rewrite (Hd r Hr). split.
           ++ intros [e' [H1 H2]]. exists e'. rewrite Hin. auto.
           ++ intros [e' [H1 [H2 H3]]]. exists e'. apply Hin in H1.
              destruct H1 as [H1| ->]; [auto|].
              rewrite Es in H3. fold rel in H3. subst r.
              now rewrite path_eqb_refl in E.
Qed.

Lemma extract_loop rest :
  forall done fs,
    extract_inv dst n done fs ->
    files_are_leaves n (done ++ rest) ->
    (forall e, In e rest -> escapes (stripped n e) = false) ->
    exists fs',
      for_each (extract_entry umask now dst n) rest tt fs = Ret tt fs'
      /\ extract_inv dst n (done ++ rest) fs'.
Proof.
  induction rest as [|e rest IH]; intros done fs Hinv Hleaf Hesc.
  - exists fs. rewrite app_nil_r. split; [reflexivity | assumption].
  - destruct (extract_entry_step done e fs Hinv) as [fs1 [Hrun Hinv1]].
    + intros e1 e2 H1 H2. apply Hleaf.
      * rewrite in_app_iff in H1 |- *. simpl in H1 |- *. tauto.
      * rewrite in_app_iff in H2 |- *. simpl in H2 |- *. tauto.
    + apply Hesc. now left.
    + destruct (IH (done ++ [e]) fs1 Hinv1) as [fs' [Hrun' Hinv']].
      * now rewrite <- app_assoc.
      * intros e' H. apply Hesc. now right.
      * exists fs'. rewrite <- app_assoc in Hinv'. split; [|assumption].
        simpl. unfold bind. rewrite Hrun. exact Hrun'.
Qed.

End ArchiveFacts.

(** C9 (amended).  Extraction into an empty destination directory of an
    archive without escaping entries, in which no file entry lies on the
    way to another entry, returns, and the destination entry set is the set
    of the non-empty prefixes of the stripped entry paths: the stripped
    paths themselves and every intermediate directory on the way to them.
    It is exactly the set of the stripped, non-empty entry paths if and
    only if the archive lists the parents of each of them. *)
Theorem extract_zip_stream_entries umask now dst n archive fs :
  isdir fs dst = true ->
  (forall r, r <> [] -> view fs (dst ++ r) = None) ->
  (forall e, In e archive -> escapes (stripped n e) = false) ->
  files_are_leaves n archive ->
  exists fs',
    extract_zip_stream umask now dst n archive fs = Ret tt fs'
    /\ (forall r,
          extracted dst fs' r <->
          r <> [] /\
          exists p, In p (stripped_paths n archive) /\ is_prefix r p = true)
    /\ (parents_listed n archive <->
        forall r, extracted dst fs' r <-> In r (stripped_paths n archive)).
Proof.
  intros Hdir Hempty Hesc Hleaf.
  assert (extract_inv dst n [] fs) as Hinv.
  { split; [|split].
    - intros p Hp. apply is_prefix_spec in Hp. destruct Hp as [s ->].
      apply isdir_view. eapply isdir_prefix. exact Hdir.
    - intros r Hr. rewrite (Hempty r Hr). split; [congruence|].
      intros [e [[] _]].
    - intros r Hr. rewrite (Hempty r Hr). split; [discriminate|].
      intros [e [[] _]]. }
  destruct (extract_loop umask now dst n archive [] fs Hinv Hleaf Hesc)
    as [fs' [Hrun [_ [Hc _]]]].
  simpl in Hc. exists fs'. split; [exact Hrun|].
  assert (forall r,
            extracted dst fs' r <->
            r <> [] /\
            exists p, In p (stripped_paths n archive) /\ is_prefix r p = true)
    as Hset.
  { intros r. unfold extracted. split.
    - intros [Hr Hv]. split; [assumption|].
      apply (Hc r Hr) in Hv. destruct Hv as [e [H1 [H2 H3]]].
      exists (stripped n e). split; [|assumption].
      apply stripped_paths_In. eauto.
    - intros [Hr [p [Hp Hpre]]]. split; [assumption|].
      apply (Hc r Hr). apply stripped_paths_In in Hp.
      destruct Hp as [e [H1 [H2 H3]]]. exists e. subst p. auto. }
  split; [exact Hset|]. split.
  - intros Hpar r. rewrite Hset. split.
    + intros [Hr [p [Hp Hpre]]]. exact (Hpar p r Hp Hr Hpre).
    + intros Hin. split.
      * apply stripped_paths_In in Hin. destruct Hin as [e [_ [_ H]]].
        exact H.
      * exists r. split; [assumption | apply is_prefix_refl].
  - intros Heq p r Hp Hr Hpre. apply Heq, Hset. split; [assumption|].
    now exists p.
Qed.

Lemma extract_zip_stream_entries_witness :
  exists fs',
    extract_zip_stream 18 5 ["tmp"%string; "w"%string] 1 listed_archive
      staging_fs = Ret tt fs'
    /\ (forall r,
          extracted ["tmp"%string; "w"%string] fs' r <->
          r <> [] /\
          exists p, In p (stripped_paths 1 listed_archive)
                    /\ is_prefix r p = true)
    /\ (parents_listed 1 listed_archive <->
        forall r, extracted ["tmp"%string; "w"%string] fs' r <->
                  In r (stripped_paths 1 listed_archive)).
Proof.
  apply (extract_zip_stream_entries 18 5 ["tmp"%string; "w"%string] 1
           listed_archive staging_fs).
  - reflexivity.
  - intros [|c r] H; [congruence | reflexivity].
  - intros e H. simpl in H.
    destruct H as [<-|[<-|[<-|[<-|[]]]]]; reflexivity.
  - intros e1 e2 H1 H2 Hk Hne Hp. simpl in H1, H2.
    destruct H1 as [<-|[<-|[<-|[<-|[]]]]]; try discriminate Hk;
      destruct H2 as [<-|[<-|[<-|[<-|[]]]]]; try discriminate Hp;
      split; reflexivity.
Defined.

(** C9, as stated, fails for an archive that holds a file without an entry
    for its directory: the directory is created as an intermediate one, so
    the destination holds [a], which is not among the stripped entry
    paths. *)
Lemma extract_zip_stream_creates_unlisted_parent :
  exists fs',
    extract_zip_stream 18 5 ["tmp"%string; "w"%string] 0 bare_archive
      staging_fs = Ret tt fs'
    /\ extracted ["tmp"%string; "w"%string] fs' ["a"%string]
    /\ ~ In ["a"%string] (stripped_paths 0 bare_archive).
Proof.
  eexists. split; [vm_compute; reflexivity|]. split.
  - split; [discriminate | vm_compute; discriminate].
  - vm_compute. intros [H|[]]. discriminate H.
Defined.

(** * Further properties of the module *)

(** ** Directory names *)

(** X1.  [clean_dir_name] returns a name of the same length without any
    forward slash: every slash has become an underscore and every other
    character is kept at its place; a name without a slash is returned
    unchanged; and cleaning a clean name changes nothing. *)
Theorem clean_dir_name_unix name :
  (forall i, String.get i (clean_dir_name name) <> Some "/"%char)
  /\ String.length (clean_dir_name name) = String.length name
  /\ (forall i c,
        String.get i name = Some c ->
        String.get i (clean_dir_name name)
        = Some (if Ascii.eqb c "/"%char then "_"%char else c))
  /\ ((forall i, String.get i name <> Some "/"%char) ->
      clean_dir_name name = name)
  /\ clean_dir_name (clean_dir_name name) = clean_dir_name name.
Proof.
  induction name as [|c rest [IH1 [IH2 [IH3 [IH4 IH5]]]]]; simpl.
  - repeat split; try reflexivity; intros; discriminate.
  - split; [|split; [|split; [|split]]].
    + intros [|i]; simpl; [|apply IH1].
      destruct (Ascii.eqb c "/"%char) eqn:E; [discriminate|].
      intros [= ->]. discriminate E.
    + now rewrite IH2.
    + intros [|i] c'; simpl; [now intros [= ->] | apply IH3].
    + intros H. assert (Ascii.eqb c "/"%char = false) as ->.
      { destruct (Ascii.eqb c "/"%char) eqn:E; [|reflexivity].
        apply Ascii.eqb_eq in E. subst c. now destruct (H 0). }
      f_equal. apply IH4. intros i. apply (H (S i)).
    + rewrite IH5. f_equal.
      destruct (Ascii.eqb c "/"%char) eqn:E; [reflexivity | now rewrite E].
Qed.

(** ** Counting what the traversal yields *)

Lemma nfiles_Dir m es :
  nfiles (Dir m es) = list_sum (map (fun e => nfiles (snd e)) es).
Proof.
  simpl. induction es as [|[c n] es IH]; simpl; auto.
Qed.

Lemma count_kind_app k l1 l2 :
  count_kind k (l1 ++ l2) = count_kind k l1 + count_kind k l2.
Proof. unfold count_kind. now rewrite filter_app, length_app. Qed.

Lemma count_kind_yields top es :
  count_kind F (yields top es)
  = list_sum (map (fun e => if is_dir_node (snd e) then 0 else 1) es)
  /\ count_kind D (yields top es)
     = list_sum (map (fun e => if is_dir_node (snd e) then 1 else 0) es).
Proof.
  unfold yields, dirnames, filenames. rewrite !count_kind_app.
  induction es as [|[c [m t d|m es']] es [IH1 IH2]]; simpl.
  - split; reflexivity.
  - unfold count_kind in *. simpl in *. split; lia.
  - unfold count_kind in *. simpl in *. split; lia.
Qed.

Lemma walk_list_counts n :
  forall top,
    count_kind F (walk_list top n) + (if is_dir_node n then 0 else 1)
    = nfiles n
    /\ count_kind D (walk_list top n) + (if is_dir_node n then 1 else 0)
       = ndirs n.
Proof.
  induction n as [m t d|m es IH] using node_induction; intros top.
  - split; reflexivity.
  - rewrite walk_list_Dir, !count_kind_app, nfiles_Dir, ndirs_Dir.
    destruct (count_kind_yields top es) as [-> ->].
    cbn [is_dir_node].
    assert (count_kind F
              (flat_map (fun e => walk_list (top ++ [fst e]) (snd e)) es)
            + list_sum (map (fun e => if is_dir_node (snd e) then 0 else 1) es)
            = list_sum (map (fun e => nfiles (snd e)) es)
            /\ count_kind D
                 (flat_map (fun e => walk_list (top ++ [fst e]) (snd e)) es)
               + list_sum
                   (map (fun e => if is_dir_node (snd e) then 1 else 0) es)
               = list_sum (map (fun e => ndirs (snd e)) es)) as [H1 H2].
    { induction IH as [|[c ch] es Hch _ IHes]; [split; reflexivity|].
      cbn [flat_map map fst snd]. rewrite !count_kind_app.
      destruct (Hch (top ++ [c])) as [K1 K2]. cbn [snd] in K1, K2.
      destruct IHes as [J1 J2]. unfold list_sum in *. cbn [fold_right].
      destruct (is_dir_node ch); split; lia. }
    split; lia.
Qed.

(** X2.  Over a tree rooted at an existing directory, [recursive_iglob]
    yields as many files as the tree holds, and one directory less than the
    tree holds: every directory but the root. *)
Theorem recursive_iglob_counts fuel root fs tree :
  resolve fs root = Ok tree -> is_dir_node tree = true -> wf tree = true ->
  ndirs tree <= fuel ->
  exists l,
    recursive_iglob fuel root fs = Ret l fs
    /\ count_kind F l = nfiles tree
    /\ S (count_kind D l) = ndirs tree.
Proof.
  intros Hr Hd Hwf Hfuel. exists (walk_list root tree).
  split; [now apply recursive_iglob_walk_list|].
  destruct (walk_list_counts tree root) as [H1 H2]. rewrite Hd in H1, H2.
  split; lia.
Qed.

Lemma recursive_iglob_counts_witness :
  exists l,
    recursive_iglob 4 ["r"%string] deep_fs = Ret l deep_fs
    /\ count_kind F l = 2
    /\ S (count_kind D l) = 4.
Proof.
  apply (recursive_iglob_counts 4 ["r"%string] deep_fs
           (Dir (octal [7; 5; 5])
              [("a"%string,
                Dir (octal [7; 5; 5])
                  [("x"%string,
                    Dir (octal [7; 5; 5])
                      [("deep.txt"%string,
                        File (octal [6; 4; 4]) 0 ""%string)])]);
               ("b"%string,
                Dir (octal [7; 5; 5])
                  [("y.txt"%string, File (octal [6; 4; 4]) 0 ""%string)])]));
    reflexivity.
Defined.

(** ** A source that is not a directory *)

Lemma makedirs_isdir_other umask q fs fs' p :
  makedirs umask q fs = Ok fs' -> is_prefix p q = false ->
  isdir fs' p = isdir fs p.
Proof.
  intros H Hp.
  assert (view fs' p = view fs p) as Hv.
  { rewrite (@view_makedirs umask q fs fs' p H), Hp.
    now destruct (view fs p). }
  destruct (isdir fs' p) eqn:E1, (isdir fs p) eqn:E2; try reflexivity.
  - apply isdir_view in E1. rewrite Hv in E1. apply isdir_view in E1.
    congruence.
  - apply isdir_view in E2. rewrite <- Hv in E2. apply isdir_view in E2.
    congruence.
Qed.

(** X3.  When the source is not a directory (it is a regular file or it
    does not exist), [recursive_iglob] raises [ValueError]; [copy_tree]
    raises it too and has created nothing; [move_tree], which creates the
    destination before it copies, raises it with the destination created,
    unless the creation of the destination fails first. *)
Theorem source_not_a_directory umask fault fuel src dst exclude fs :
  isdir fs src = false -> is_prefix src dst = false ->
  recursive_iglob fuel src fs = Exc ValueError fs
  /\ copy_tree umask fuel src dst exclude fs = Exc ValueError fs
  /\ (forall fs1,
        makedirs umask dst fs = Ok fs1 ->
        move_tree umask fault fuel src dst fs = Exc ValueError fs1
        /\ isdir fs1 dst = true)
  /\ (forall e,
        makedirs umask dst fs = Err e ->
        move_tree umask fault fuel src dst fs = Exc e fs).
Proof.
  intros Hsrc Hpre. repeat split.
  - unfold recursive_iglob, for_recursive_iglob. now rewrite Hsrc.
  - unfold copy_tree, for_recursive_iglob. now rewrite Hsrc.
  - unfold move_tree, bind, syscall. rewrite H.
    unfold copy_tree, for_recursive_iglob.
    now rewrite (makedirs_isdir_other umask dst fs fs1 src H Hpre), Hsrc.
  - apply (@makedirs_isdir umask dst fs fs1 H).
  - intros e H. unfold move_tree, bind, syscall. now rewrite H.
Qed.

Lemma source_not_a_directory_witness :
  recursive_iglob 2 ["sub"%string; "a.txt"%string] staging_fs
  = Exc ValueError staging_fs
  /\ copy_tree 18 2 ["sub"%string; "a.txt"%string]
       ["tmp"%string; "w"%string; "new"%string] [] staging_fs
     = Exc ValueError staging_fs
  /\ (forall fs1,
        makedirs 18 ["tmp"%string; "w"%string; "new"%string] staging_fs
        = Ok fs1 ->
        move_tree 18 no_fault 2 ["sub"%string; "a.txt"%string]
          ["tmp"%string; "w"%string; "new"%string] staging_fs
        = Exc ValueError fs1
        /\ isdir fs1 ["tmp"%string; "w"%string; "new"%string] = true)
  /\ (forall e,
        makedirs 18 ["tmp"%string; "w"%string; "new"%string] staging_fs
        = Err e ->
        move_tree 18 no_fault 2 ["sub"%string; "a.txt"%string]
          ["tmp"%string; "w"%string; "new"%string] staging_fs
        = Exc e staging_fs).
Proof.
  apply (source_not_a_directory 18 no_fault 2 ["sub"%string; "a.txt"%string]
           ["tmp"%string; "w"%string; "new"%string] [] staging_fs);
    reflexivity.
Defined.

(** ** The record of a copy *)

(** X4.  Whenever [copy_tree] returns, its record is what
    [recursive_iglob] yields on the source, in that order, without the
    entries whose path relative to the source is excluded, each moved below
    the destination; no path is recorded twice, every recorded path lies
    strictly below the destination, and none is excluded. *)
Theorem copy_tree_record umask fuel src dst exclude fs copied fs' :
  wf fs = true -> overlap src dst = false ->
  copy_tree umask fuel src dst exclude fs = Ret copied fs' ->
  exists tree l,
    resolve fs src = Ok tree
    /\ recursive_iglob (ndirs tree) src fs = Ret l fs
    /\ copied = map (target src dst) (filter (not_excluded src exclude) l)
    /\ NoDup (map snd copied)
    /\ (forall k p,
          In (k, p) copied ->
          exists rel,
            rel <> [] /\ p = dst ++ rel /\ In (k, src ++ rel) l
            /\ ~ In rel exclude).
Proof.
  intros Hwf Hap H.
  destruct (copy_tree_ret umask fuel src dst exclude fs copied fs' Hwf Hap H)
    as [tree [Hr [Hd [Hwt [Hrec _]]]]].
  exists tree, (walk_list src tree). split; [assumption|].
  split; [now apply recursive_iglob_walk_list|]. split; [assumption|].
  destruct (record_shape src dst exclude tree Hwt) as [Hnd Hsh].
  rewrite <- Hrec in Hnd, Hsh. split; [assumption|].
  intros k p Hin. destruct (Hsh k p Hin) as [rel [Hrel [-> Hw]]].
  exists rel. repeat split; auto.
  rewrite Hrec in Hin. apply in_map_iff in Hin.
  destruct Hin as [[k' q] [Heq Hf]]. apply filter_In in Hf.
  destruct Hf as [_ Hne]. unfold target in Heq. cbn [fst snd] in Heq.
  injection Heq as -> Heq. apply app_inv_head in Heq.
  unfold not_excluded in Hne. cbn [snd] in Hne. rewrite Heq in Hne.
  now destruct (in_dec path_eq_dec rel exclude).
Qed.

Lemma copy_tree_record_witness :
  exists tree l,
    resolve staging_fs ["sub"%string] = Ok tree
    /\ recursive_iglob (ndirs tree) ["sub"%string] staging_fs
       = Ret l staging_fs
    /\ [(F, ["tmp"; "w"; "a.txt"]); (F, ["tmp"; "w"; "b"; "c.txt"])]%string
       = map (target ["sub"%string] ["tmp"%string; "w"%string])
           (filter (not_excluded ["sub"%string] [["b"%string]]) l)
    /\ NoDup
         (map snd
            [(F, ["tmp"; "w"; "a.txt"]); (F, ["tmp"; "w"; "b"; "c.txt"])]%string)
    /\ (forall k p,
          In (k, p)
            [(F, ["tmp"; "w"; "a.txt"]);
             (F, ["tmp"; "w"; "b"; "c.txt"])]%string ->
          exists rel,
            rel <> [] /\ p = ["tmp"%string; "w"%string] ++ rel
            /\ In (k, ["sub"%string] ++ rel) l
            /\ ~ In rel [["b"%string]]).
Proof.
  eapply (copy_tree_record 18 2 ["sub"%string] ["tmp"%string; "w"%string]
            [["b"%string]] staging_fs).
  - reflexivity.
  - reflexivity.
  - vm_compute. reflexivity.
Defined.

(** ** The destination after an unfiltered copy *)

Lemma kind_of_item n n' : item_of n = item_of n' -> kind_of n = kind_of n'.
Proof. destruct n, n'; simpl; congruence. Qed.

Lemma walk_list_below top tree k r :
  wf tree = true ->
  (In (k, top ++ r) (walk_list top tree) <->
   r <> [] /\ exists n, resolve tree r = Ok n /\ k = kind_of n).
Proof.
  intros Hwf. split.
  - intros H. destruct (walk_list_sound tree top k (top ++ r) Hwf H)
      as [r0 [n [Hr [Heq [Hres Hk]]]]].
    apply app_inv_head in Heq. subst r0. eauto.
  - intros [Hr [n [Hres ->]]]. now apply walk_list_complete.
Qed.

(** X5.  An unfiltered [copy_tree] of an existing tree into a destination
    that is missing or empty (and lies outside the source) returns; below
    the destination there is then exactly what the source holds (the same
    entries and, for every file, the same bytes, permission bits and
    modification time); the source is as it was; and a walk of the
    destination yields the entries that a walk of the source yields. *)
Theorem copy_tree_mirrors umask fuel src dst fs tree :
  wf fs = true -> resolve fs src = Ok tree -> is_dir_node tree = true ->
  overlap src dst = false -> vacant fs dst = true -> ndirs tree <= fuel ->
  exists fs',
    copy_tree umask fuel src dst [] fs
    = Ret (map (target src dst) (walk_list src tree)) fs'
    /\ resolve fs' src = Ok tree
    /\ (forall r, r <> [] -> view fs' (dst ++ r) = view tree r)
    /\ (forall tree',
          resolve fs' dst = Ok tree' ->
          forall k r,
            In (k, dst ++ r) (walk_list dst tree') <->
            In (k, src ++ r) (walk_list src tree)).
Proof.
  intros Hwf Hsrc Hd Hap Hvac Hfuel.
  assert (wf tree = true) as Hwft by (eapply wf_resolve; eassumption).
  destruct (@copy_tree_spec umask src dst [] tree Hap fuel fs
              Hsrc Hd Hwft Hvac Hfuel) as [fs' [Hc [Hs' [_ [Hb _]]]]].
  rewrite filter_not_excluded_nil in Hc.
  assert (forall r, r <> [] -> view fs' (dst ++ r) = view tree r) as Hview.
  { intros r Hr. rewrite (Hb r Hr).
    destruct (covered _ r) eqn:Ec; [reflexivity|].
    destruct (view tree r) eqn:Ev; [|reflexivity].
    rewrite covered_all in Ec; [discriminate | assumption |].
    rewrite Ev. discriminate. }
  exists fs'. split; [exact Hc|]. split; [exact Hs'|].
  split; [exact Hview|].
  intros tree' Hdst k r.
  assert (wf fs' = true) as Hwf'.
  { pose proof (copy_tree_wf umask fuel src dst [] fs Hwf) as K.
    now rewrite Hc in K. }
  assert (wf tree' = true) as Hwt' by (eapply wf_resolve; eassumption).
  rewrite (walk_list_below dst tree' k r Hwt'),
    (walk_list_below src tree k r Hwft).
  split; intros [Hr [n [Hres ->]]]; (split; [assumption|]);
    pose proof (Hview r Hr) as Hv; unfold view in Hv;
    rewrite resolve_app, Hdst in Hv; rewrite Hres in Hv.
  - destruct (resolve tree r) as [n'|]; [|discriminate].
    exists n'. split; [reflexivity|]. apply kind_of_item. congruence.
  - destruct (resolve tree' r) as [n'|]; [|discriminate].
    exists n'. split; [reflexivity|]. apply kind_of_item. congruence.
Qed.

Lemma copy_tree_mirrors_witness :
  exists fs',
    copy_tree 18 2 ["sub"%string] ["tmp"%string; "w"%string] [] staging_fs
    = Ret (map (target ["sub"%string] ["tmp"%string; "w"%string])
             (walk_list ["sub"%string] submission)) fs'
    /\ resolve fs' ["sub"%string] = Ok submission
    /\ (forall r, r <> [] ->
          view fs' (["tmp"%string; "w"%string] ++ r) = view submission r)
    /\ (forall tree',
          resolve fs' ["tmp"%string; "w"%string] = Ok tree' ->
          forall k r,
            In (k, ["tmp"%string; "w"%string] ++ r)
              (walk_list ["tmp"%string; "w"%string] tree') <->
            In (k, ["sub"%string] ++ r)
              (walk_list ["sub"%string] submission)).
Proof.
  apply (copy_tree_mirrors 18 2 ["sub"%string] ["tmp"%string; "w"%string]
           staging_fs submission); reflexivity.
Defined.

(** ** What a copy and a move leave alone *)

Section Outside.

Variable umask : Z.
Variables src dst : path.
Variable exclude : list path.

Lemma copy_tree_body_outside p n e acc fs :
  overlap p dst = false -> resolve fs p = Ok n ->
  stops_in (fun fs' => resolve fs' p = Ok n)
    (copy_tree_body umask src dst exclude e acc fs).
Proof.
  intros Hap Hfs. destruct e as [fd file_or_dir]. unfold copy_tree_body.
  destruct (in_dec path_eq_dec (relpath file_or_dir src) exclude);
    [exact Hfs|].
  set (x := relpath file_or_dir src).
  assert (is_prefix p (dst ++ x) = false) as Hx.
  { pose proof (proj1 (overlap_false _ _) Hap) as [Ha Hb].
    now apply is_prefix_false_app. }
  apply bind_stops_in; [|intros; assumption].
  destruct fd.
  - apply syscall_stops_in; [assumption|].
    intros fs' H. eapply makedirs_keeps; eassumption.
  - apply bind_stops_in.
    + apply syscall_stops_in; [assumption|].
      intros fs' H. eapply makedirs_keeps; try eassumption.
      destruct (is_prefix p (dirname (dst ++ x))) eqn:E; [|reflexivity].
      apply is_prefix_removelast in E. congruence.
    + intros _ fs1 Hfs1. apply syscall_stops_in; [assumption|].
      intros fs' H. apply copy2_writes in H.
      destruct H as [m [t [d [y [_ [_ H]]]]]].
      unfold write_file in H.
      rewrite (alter_resolve_other _ _ _ p H); [assumption|].
      rewrite <- app_assoc. now apply overlap_app.
Qed.

Lemma copy_tree_outside fuel p n fs :
  overlap p dst = false -> resolve fs p = Ok n ->
  stops_in (fun fs' => resolve fs' p = Ok n)
    (copy_tree umask fuel src dst exclude fs).
Proof.
  intros Hap Hfs. unfold copy_tree, for_recursive_iglob.
  destruct (isdir fs src); [|exact Hfs].
  apply os_walk_stops_in; [|exact Hfs].
  intros e a s Hs. now apply copy_tree_body_outside.
Qed.

End Outside.

(** X6.  However [copy_tree] ends, by a return or by an exception, every
    entry that existed outside the destination (neither below it nor on
    the way to it) is unchanged, with all that it holds; and every
    directory that existed anywhere, also below the destination, is still
    a directory with the permission bits it had. *)
Theorem copy_tree_frame umask fuel src dst exclude fs :
  stops_in
    (fun fs' =>
       (forall p n,
          overlap p dst = false -> resolve fs p = Ok n ->
          resolve fs' p = Ok n)
       /\ (forall p m,
             stat fs p = Some (IsDir, m) -> stat fs' p = Some (IsDir, m)))
    (copy_tree umask fuel src dst exclude fs).
Proof.
  assert (forall p n,
            overlap p dst = false -> resolve fs p = Ok n ->
            stops_in (fun fs' => resolve fs' p = Ok n)
              (copy_tree umask fuel src dst exclude fs)) as H1
    by (intros; now apply copy_tree_outside).
  pose proof (fun p m =>
                copy_tree_keeps_dir_stat umask fuel src dst exclude fs p m)
    as H2.
  destruct (copy_tree umask fuel src dst exclude fs) as [a fs'|e fs'|];
    simpl in *; auto.
Qed.

(** X7.  However [move_tree] ends, every entry that existed outside the
    source and outside the destination (neither below the source, nor
    below the destination, nor on the way to the destination) has the kind,
    contents and permission bits it had. *)
Theorem move_tree_frame umask fault fuel src dst fs :
  stops_in
    (fun fs' =>
       forall p s,
         is_prefix src p = false -> overlap p dst = false ->
         stat fs p = Some s -> stat fs' p = Some s)
    (move_tree umask fault fuel src dst fs).
Proof.
  assert (forall p s,
            is_prefix src p = false -> overlap p dst = false ->
            stat fs p = Some s ->
            stops_in (fun fs' => stat fs' p = Some s)
              (move_tree umask fault fuel src dst fs)) as H.
  { intros p s Hsrc Hap Hs. unfold move_tree.
    pose proof (proj1 (overlap_false _ _) Hap) as [Ha Hb].
    apply bind_stops_in.
    - apply syscall_stops_in; [assumption|]. intros fs1 Hmk.
      rewrite (@makedirs_stat umask dst fs fs1 p Hmk). now rewrite Hs.
    - intros _ fs1 Hs1. apply bind_stops_in.
      + unfold stat in Hs1.
        destruct (resolve fs1 p) as [n|] eqn:Hr; [|discriminate].
        pose proof (copy_tree_outside umask src dst [] fuel p n fs1 Hap Hr)
          as K.
        destruct (copy_tree umask fuel src dst [] fs1); simpl in *; auto;
          unfold stat; now rewrite K.
      + intros moved fs2 Hs2. apply bind_stops_in; [|intros; assumption].
        pose proof (rmtree_outside fault ignore_missing_dir_error src fs2)
          as K.
        destruct (rmtree fault ignore_missing_dir_error src fs2);
          simpl in *; auto; now rewrite K. }
  destruct (move_tree umask fault fuel src dst fs) as [a fs'|e fs'|];
    simpl in *; auto.
Qed.

(** ** Descriptors and locks on every exit path *)

Lemma zoom_keeps_others {A} h (m : M node A) : keeps_others h (zoom m).
Proof.
  intros w. pose proof (zoom_keeps m w) as K.
  destruct (zoom m w); simpl in *; auto; destruct K as [-> ->]; auto.
Qed.

Lemma unlock_own h file excl ls :
  unlock h ((h, file, excl) :: ls) = unlock h ls.
Proof. unfold unlock. cbn [filter fst]. now rewrite handle_eqb_refl. Qed.

Lemma conflicts_own h file x file' excl ls :
  conflicts h file x ((h, file', excl) :: ls) = conflicts h file x ls.
Proof. unfold conflicts. cbn [existsb]. now rewrite handle_eqb_refl. Qed.

Lemma conflicts_unlock h file x ls :
  conflicts h file x (unlock h ls) = conflicts h file x ls.
Proof.
  unfold conflicts, unlock. induction ls as [|[[h' f'] e'] ls IH]; simpl;
    [reflexivity|].
  destruct (handle_eqb h h') eqn:E; simpl; rewrite ?E; simpl; now rewrite IH.
Qed.

Lemma fresh_handle_free pid w :
  locks_open w = true ->
  drop_handle (pid, fresh_fd pid (w_fds w)) (w_fds w) = w_fds w
  /\ unlock (pid, fresh_fd pid (w_fds w)) (w_locks w) = w_locks w.
Proof.
  intros Hopen. split.
  - apply drop_unused. intros [h p] Hin E. simpl in E. subst h.
    apply fresh_fd_bound in Hin. lia.
  - apply unlock_unused. intros l Hin E. unfold locks_open in Hopen.
    rewrite forallb_forall in Hopen. specialize (Hopen l Hin).
    rewrite E in Hopen. now rewrite fresh_fd_unused in Hopen.
Qed.

Lemma fd_open_run {A} pid p (body : nat -> M world A) w n :
  locks_open w = true ->
  (forall fd, keeps_others (pid, fd) (body fd)) ->
  resolve (w_fs w) p = Ok n ->
  fd_open pid p body w
  = match body (fresh_fd pid (w_fds w))
            (set_fds w (((pid, fresh_fd pid (w_fds w)), p) :: w_fds w)) with
    | Ret a w' => Ret a (World (w_fs w') (w_fds w) (w_locks w))
    | Exc e w' => Exc e (World (w_fs w') (w_fds w) (w_locks w))
    | Timeout => Timeout
    end.
Proof.
  intros Hopen Hb Hn. destruct (fresh_handle_free pid w Hopen) as [Hd Hu].
  set (fd := fresh_fd pid (w_fds w)) in *.
  unfold fd_open, bind, os_open_call. rewrite Hn. fold fd.
  pose proof (Hb fd (set_fds w (((pid, fd), p) :: w_fds w))) as K.
  unfold finally, os_close_call.
  destruct (body fd _) as [a w'|e w'|]; [| |reflexivity];
    simpl in K; destruct K as [K1 K2]; rewrite K1; cbn [file_of];
    rewrite handle_eqb_refl; (f_equal; f_equal;
      [unfold drop_handle; cbn [filter fst]; rewrite handle_eqb_refl;
       exact Hd
      | now rewrite K2, Hu]).
Qed.

Lemma fd_lock_run {A} pid fd excl (body : M world A) w file :
  file_of (pid, fd) (w_fds w) = Some file ->
  keeps_others (pid, fd) body ->
  conflicts (pid, fd) file excl (w_locks w) = false ->
  fd_lock pid fd excl body w
  = match body (set_locks w (((pid, fd), file, excl)
                             :: unlock (pid, fd) (w_locks w))) with
    | Ret a w' =>
        Ret a (World (w_fs w') (w_fds w) (unlock (pid, fd) (w_locks w)))
    | Exc e w' =>
        Exc e (World (w_fs w') (w_fds w) (unlock (pid, fd) (w_locks w)))
    | Timeout => Timeout
    end.
Proof.
  intros Hf Hb Hfree. unfold fd_lock, bind.
  rewrite (fd_lock_enter_ok pid fd excl w file Hf Hfree).
  pose proof (Hb (set_locks w (((pid, fd), file, excl)
                               :: unlock (pid, fd) (w_locks w)))) as K.
  unfold finally, fd_lock_exit, fcntl_flock.
  destruct (body _) as [a w'|e w'|]; [| |reflexivity];
    cbn [stops_in set_locks w_fds w_locks] in K; destruct K as [K1 K2];
    rewrite unlock_own, unlock_twice in K2; rewrite K1, Hf; cbn [flock];
    unfold set_locks; now rewrite K1, K2.
Qed.

Lemma fd_lock_keeps_others {A} pid fd excl (body : M world A) :
  keeps_others (pid, fd) body -> keeps_others (pid, fd) (fd_lock pid fd excl body).
Proof.
  intros Hb w.
  destruct (file_of (pid, fd) (w_fds w)) as [file|] eqn:Hf.
  - destruct (conflicts (pid, fd) file excl (w_locks w)) eqn:Hc.
    + unfold fd_lock, bind, fd_lock_enter, fcntl_flock. rewrite Hf.
      destruct excl; cbn [flock]; rewrite Hc; exact I.
    + rewrite (fd_lock_run pid fd excl body w file Hf Hb Hc).
      destruct (body _); simpl; auto using unlock_twice.
  - unfold fd_lock, bind, fd_lock_enter, fcntl_flock. rewrite Hf. simpl. auto.
Qed.

(** X8.  [with fd_open(path) as fd: body]: when the path cannot be opened
    the error of [os.open] is raised and the body does not run; otherwise
    the body runs with a descriptor of this process open on the path, and
    however the body ends (as long as it leaves the descriptors alone, and
    the locks of other descriptors), the call ends the same way with the
    descriptor closed: the open descriptors and the locks are those from
    before the call, and closing the descriptor again fails. *)
Theorem fd_open_closes {A} pid p (body : nat -> M world A) w :
  locks_open w = true ->
  (forall fd, keeps_others (pid, fd) (body fd)) ->
  (forall e, resolve (w_fs w) p = Err e -> fd_open pid p body w = Exc e w)
  /\ (forall n,
        resolve (w_fs w) p = Ok n ->
        file_of (pid, fresh_fd pid (w_fds w))
          (w_fds (set_fds w (((pid, fresh_fd pid (w_fds w)), p) :: w_fds w)))
        = Some p
        /\ fd_open pid p body w
           = match body (fresh_fd pid (w_fds w))
                     (set_fds w
                        (((pid, fresh_fd pid (w_fds w)), p) :: w_fds w)) with
             | Ret a w' => Ret a (World (w_fs w') (w_fds w) (w_locks w))
             | Exc e w' => Exc e (World (w_fs w') (w_fds w) (w_locks w))
             | Timeout => Timeout
             end)
  /\ stops_in
       (fun w' =>
          w_fds w' = w_fds w /\ w_locks w' = w_locks w
          /\ os_close_call pid (fresh_fd pid (w_fds w)) w'
             = Exc BadFileDescriptor w')
       (fd_open pid p body w).
Proof.
  intros Hopen Hb.
  assert (forall w', w_fds w' = w_fds w ->
            os_close_call pid (fresh_fd pid (w_fds w)) w'
            = Exc BadFileDescriptor w') as Hclosed.
  { intros w' E. unfold os_close_call. now rewrite E, fresh_fd_unused. }
  split; [|split].
  - intros e He. unfold fd_open, bind, os_open_call. now rewrite He.
  - intros n Hn. split.
    + cbn [set_fds w_fds file_of]. now rewrite handle_eqb_refl.
    + now apply fd_open_run with (n := n).
  - destruct (resolve (w_fs w) p) as [n|e] eqn:Hr.
    + rewrite (fd_open_run pid p body w n Hopen Hb Hr).
      destruct (body _ _); simpl; auto.
    + unfold fd_open, bind, os_open_call. rewrite Hr. simpl. auto.
Qed.

Lemma fd_open_closes_witness :
  let w := World staging_fs [((7, 3), ["sub"%string])] [] in
  let body := fun (_ : nat) => zoom (syscall (chmod ["tmp"%string] 448)) in
  (forall e, resolve (w_fs w) ["tmp"%string] = Err e ->
             fd_open 7 ["tmp"%string] body w = Exc e w)
  /\ (forall n,
        resolve (w_fs w) ["tmp"%string] = Ok n ->
        file_of (7, fresh_fd 7 (w_fds w))
          (w_fds (set_fds w
                    (((7, fresh_fd 7 (w_fds w)), ["tmp"%string]) :: w_fds w)))
        = Some ["tmp"%string]
        /\ fd_open 7 ["tmp"%string] body w
           = match body (fresh_fd 7 (w_fds w))
                     (set_fds w
                        (((7, fresh_fd 7 (w_fds w)), ["tmp"%string])
                         :: w_fds w)) with
             | Ret a w' => Ret a (World (w_fs w') (w_fds w) (w_locks w))
             | Exc e w' => Exc e (World (w_fs w') (w_fds w) (w_locks w))
             | Timeout => Timeout
             end)
  /\ stops_in
       (fun w' =>
          w_fds w' = w_fds w /\ w_locks w' = w_locks w
          /\ os_close_call 7 (fresh_fd 7 (w_fds w)) w'
             = Exc BadFileDescriptor w')
       (fd_open 7 ["tmp"%string] body w).
Proof.
  intros w body. apply (fd_open_closes 7 ["tmp"%string] body w).
  - reflexivity.
  - intros fd. apply zoom_keeps_others.
Defined.

(** X9.  [with fd_lock(fd, exclusive): body] on an open descriptor: while
    another descriptor holds a conflicting lock on the file the call
    waits; otherwise the body runs with the lock held through the
    descriptor, and however the body ends (as long as it leaves the
    descriptors alone, and the locks of other descriptors), the call ends
    the same way with no lock held through the descriptor. *)
Theorem fd_lock_releases {A} pid fd excl (body : M world A) w file :
  file_of (pid, fd) (w_fds w) = Some file ->
  keeps_others (pid, fd) body ->
  (conflicts (pid, fd) file excl (w_locks w) = true ->
   fd_lock pid fd excl body w = Timeout)
  /\ (conflicts (pid, fd) file excl (w_locks w) = false ->
      In ((pid, fd), file, excl)
        (w_locks (set_locks w (((pid, fd), file, excl)
                               :: unlock (pid, fd) (w_locks w))))
      /\ fd_lock pid fd excl body w
         = match body (set_locks w (((pid, fd), file, excl)
                                    :: unlock (pid, fd) (w_locks w))) with
           | Ret a w' =>
               Ret a (World (w_fs w') (w_fds w)
                        (unlock (pid, fd) (w_locks w)))
           | Exc e w' =>
               Exc e (World (w_fs w') (w_fds w)
                        (unlock (pid, fd) (w_locks w)))
           | Timeout => Timeout
           end)
  /\ stops_in
       (fun w' => w_fds w' = w_fds w
                  /\ forall l, In l (w_locks w') -> fst (fst l) <> (pid, fd))
       (fd_lock pid fd excl body w).
Proof.
  intros Hf Hb.
  assert (forall l, In l (unlock (pid, fd) (w_locks w)) ->
                    fst (fst l) <> (pid, fd)) as Hnone.
  { intros l Hl E. unfold unlock in Hl. apply filter_In in Hl.
    destruct Hl as [_ Hl]. rewrite E, handle_eqb_refl in Hl. discriminate. }
  assert (conflicts (pid, fd) file excl (w_locks w) = true ->
          fd_lock pid fd excl body w = Timeout) as Hwait.
  { intros Hc. unfold fd_lock, bind, fd_lock_enter, fcntl_flock. rewrite Hf.
    destruct excl; cbn [flock]; now rewrite Hc. }
  split; [exact Hwait|]. split.
  - intros Hc. split; [now left|]. now apply fd_lock_run.
  - destruct (conflicts (pid, fd) file excl (w_locks w)) eqn:Hc.
    + now rewrite Hwait.
    + rewrite (fd_lock_run pid fd excl body w file Hf Hb Hc).
      destruct (body _); simpl; auto.
Qed.

Lemma fd_lock_releases_witness :
  let w := World staging_fs [((7, 3), ["sub"%string]); ((8, 3), ["sub"%string])]
             [((8, 3), ["sub"%string], false)] in
  let body := zoom (raise (S := node) (A := unit) PermissionError) in
  (conflicts (7, 3) ["sub"%string] false (w_locks w) = true ->
   fd_lock 7 3 false body w = Timeout)
  /\ (conflicts (7, 3) ["sub"%string] false (w_locks w) = false ->
      In ((7, 3), ["sub"%string], false)
        (w_locks (set_locks w (((7, 3), ["sub"%string], false)
                               :: unlock (7, 3) (w_locks w))))
      /\ fd_lock 7 3 false body w
         = match body (set_locks w (((7, 3), ["sub"%string], false)
                                    :: unlock (7, 3) (w_locks w))) with
           | Ret a w' =>
               Ret a (World (w_fs w') (w_fds w) (unlock (7, 3) (w_locks w)))
           | Exc e w' =>
               Exc e (World (w_fs w') (w_fds w) (unlock (7, 3) (w_locks w)))
           | Timeout => Timeout
           end)
  /\ stops_in
       (fun w' => w_fds w' = w_fds w
                  /\ forall l, In l (w_locks w') -> fst (fst l) <> (7, 3))
       (fd_lock 7 3 false body w).
Proof.
  intros w body. apply (fd_lock_releases 7 3 false body w ["sub"%string]).
  - reflexivity.
  - apply zoom_keeps_others.
Defined.

(** X10.  [fd_lock] is not re-entrant: when a [with fd_lock(fd, ...)] block
    is nested in another one on the same descriptor, the exit of the inner
    block releases the lock of the descriptor, so what follows it in the
    outer block runs with no lock held through the descriptor. *)
Theorem fd_lock_not_reentrant {A} pid fd outer inner (rest : M world A) w
  file :
  file_of (pid, fd) (w_fds w) = Some file ->
  conflicts (pid, fd) file outer (w_locks w) = false ->
  conflicts (pid, fd) file inner (w_locks w) = false ->
  fd_lock pid fd outer (fd_lock pid fd inner (ret tt) ;;; rest) w
  = finally rest (fd_lock_exit pid fd)
      (set_locks w (unlock (pid, fd) (w_locks w))).
Proof.
  intros Hf Ho Hi. unfold fd_lock at 1. unfold bind at 1.
  rewrite (fd_lock_enter_ok pid fd outer w file Hf Ho).
  set (w1 := set_locks w _).
  assert (fd_lock pid fd inner (ret tt) w1
          = Ret tt (set_locks w (unlock (pid, fd) (w_locks w)))) as Hin.
  { rewrite (fd_lock_run pid fd inner (ret tt) w1 file).
    - unfold ret, w1, set_locks. cbn [w_fs w_fds w_locks].
      now rewrite unlock_own, unlock_twice.
    - exact Hf.
    - intros w0. simpl. auto.
    - unfold w1. cbn [set_locks w_locks].
      now rewrite conflicts_own, conflicts_unlock. }
  unfold finally at 1. unfold bind at 1. rewrite Hin. reflexivity.
Qed.

Lemma fd_lock_not_reentrant_witness :
  let w := World staging_fs [((7, 3), ["sub"%string])] [] in
  fd_lock 7 3 true
    (fd_lock 7 3 false (ret tt) ;;; (fun w' => Ret (w_locks w') w')) w
  = finally (fun w' => Ret (w_locks w') w') (fd_lock_exit 7 3)
      (set_locks w (unlock (7, 3) (w_locks w))).
Proof.
  intros w.
  apply (fd_lock_not_reentrant 7 3 true false
           (fun w' => Ret (w_locks w') w') w ["sub"%string]); reflexivity.
Defined.

(** ** The staging as a whole *)

Lemma chmod_missing p mode fs e :
  resolve fs p = Err e -> chmod p mode fs = Err e.
Proof.
  unfold chmod. revert fs. induction p as [|c p IH]; intros fs; simpl.
  - discriminate.
  - destruct fs as [|m es]; [auto|].
    destruct (find_ent c es) as [child|] eqn:Ef.
    + destruct p as [|c' p]; [simpl; discriminate|].
      intros H. now rewrite (IH child H).
    + now destruct p.
Qed.

Lemma chmod_isdir q mode fs fs' p :
  chmod q mode fs = Ok fs' -> isdir fs' p = isdir fs p.
Proof.
  intros H. destruct (path_eq_dec p q) as [->|Hne].
  - destruct (@chmod_lookup q mode fs fs' H) as [n [H1 H2]].
    unfold lookup in H1, H2. unfold isdir.
    destruct (resolve fs q) as [n1|]; [|discriminate].
    destruct (resolve fs' q) as [n2|]; [|discriminate].
    injection H1 as ->. injection H2 as ->. now destruct n.
  - pose proof (chmod_stat_other q mode fs fs' p H Hne) as Hs.
    assert (view fs' p = view fs p) as Hv by now rewrite !view_stat, Hs.
    destruct (isdir fs' p) eqn:E1, (isdir fs p) eqn:E2; try reflexivity.
    + apply isdir_view in E1. rewrite Hv in E1. apply isdir_view in E1.
      congruence.
    + apply isdir_view in E2. rewrite <- Hv in E2. apply isdir_view in E2.
      congruence.
Qed.

Lemma set_ent_same c n es : find_ent c es = Some n -> set_ent c n es = es.
Proof.
  induction es as [|[c' n'] es IH]; simpl; [discriminate|].
  destruct (String.eqb c c') eqn:E.
  - apply String.eqb_eq in E. subst c'. now intros [= ->].
  - intros H. now rewrite (IH H).
Qed.

Lemma makedirs_existing umask p :
  forall fs, isdir fs p = true -> makedirs umask p fs = Ok fs.
Proof.
  unfold isdir. induction p as [|c p IH]; intros fs H.
  - simpl in H. destruct fs; [discriminate | reflexivity].
  - simpl in H. destruct fs as [|m es]; [discriminate|]. simpl.
    destruct (find_ent c es) as [child|] eqn:Ef; [|discriminate].
    rewrite (IH child H). now rewrite (set_ent_same c child es Ef).
Qed.

(** X11.  [setup_files] fails in the order of its steps and undoes nothing:
    when the workspace cannot be reached the error of the first [os.chmod]
    is raised and nothing has changed; when the move of the submission
    raises, the same exception is raised with the workspace mode already
    set and what the move had done left in place; in particular, when the
    workspace is a directory and the submission is not, [ValueError] is
    raised and the only change is the mode of the workspace. *)
Theorem setup_files_failure_order
  umask fault pid scripts files_dirname fuel files_path tests_path
  address assignment w :
  (forall e,
     resolve (w_fs w) tests_path = Err e ->
     setup_files umask fault pid scripts files_dirname fuel files_path
       tests_path address assignment w = Exc e w)
  /\ (forall fs1 e fs2,
        chmod tests_path (octal [1; 7; 7; 0]) (w_fs w) = Ok fs1 ->
        move_tree umask fault fuel files_path tests_path fs1 = Exc e fs2 ->
        setup_files umask fault pid scripts files_dirname fuel files_path
          tests_path address assignment w = Exc e (set_fs w fs2))
  /\ (isdir (w_fs w) tests_path = true ->
      isdir (w_fs w) files_path = false ->
      exists fs1,
        chmod tests_path (octal [1; 7; 7; 0]) (w_fs w) = Ok fs1
        /\ setup_files umask fault pid scripts files_dirname fuel files_path
             tests_path address assignment w
           = Exc ValueError (set_fs w fs1)).
Proof.
  assert (forall fs1 e fs2,
            chmod tests_path (octal [1; 7; 7; 0]) (w_fs w) = Ok fs1 ->
            move_tree umask fault fuel files_path tests_path fs1
            = Exc e fs2 ->
            setup_files umask fault pid scripts files_dirname fuel files_path
              tests_path address assignment w = Exc e (set_fs w fs2)) as Hmove.
  { intros fs1 e fs2 Hch Hmv. unfold setup_files.
    unfold bind at 1. unfold zoom at 1. unfold syscall. rewrite Hch.
    unfold bind at 1. unfold zoom at 1. cbn [set_fs w_fs]. now rewrite Hmv. }
  split; [|split].
  - intros e He. unfold setup_files. unfold bind at 1. unfold zoom at 1.
    unfold syscall. rewrite (chmod_missing tests_path _ (w_fs w) e He).
    destruct w; reflexivity.
  - exact Hmove.
  - intros Ht Hf.
    assert (exists n, lookup (w_fs w) tests_path = Some n) as [n Hn].
    { unfold isdir in Ht. unfold lookup.
      destruct (resolve (w_fs w) tests_path); [eauto | discriminate]. }
    destruct (@chmod_ok tests_path (octal [1; 7; 7; 0]) (w_fs w) n Hn)
      as [fs1 Hch].
    exists fs1. split; [exact Hch|]. apply (Hmove fs1 _ _ Hch).
    unfold move_tree, bind, syscall.
    rewrite (makedirs_existing umask tests_path fs1)
      by now rewrite (chmod_isdir _ _ _ _ tests_path Hch).
    unfold copy_tree, for_recursive_iglob.
    now rewrite (chmod_isdir _ _ _ _ files_path Hch), Hf.
Qed.

Lemma locks_open_ext w w' :
  w_fds w' = w_fds w -> w_locks w' = w_locks w ->
  locks_open w' = locks_open w.
Proof. unfold locks_open. now intros -> ->. Qed.

Lemma copy_test_script_files_keeps
  umask pid scripts files_dirname fuel address assignment tests_path w :
  locks_open w = true ->
  stops_in (fun w' => w_fds w' = w_fds w /\ w_locks w' = w_locks w)
    (copy_test_script_files umask pid scripts files_dirname fuel address
       assignment tests_path w).
Proof.
  intros Hopen. unfold copy_test_script_files.
  destruct (isdir (w_fs w) (scripts address assignment ++ [files_dirname]))
    eqn:Hd; [|simpl; auto].
  assert (exists n,
            resolve (w_fs w) (scripts address assignment ++ [files_dirname])
            = Ok n) as [n Hn].
  { unfold isdir in Hd. destruct (resolve (w_fs w) _); [eauto|discriminate]. }
  rewrite (fd_open_run pid _ _ w n Hopen); [|
    intros fd; apply fd_lock_keeps_others, zoom_keeps_others | exact Hn].
  destruct (fd_lock _ _ _ _ _); simpl; auto.
Qed.

(** X12.  [setup_files] leaks neither a descriptor nor a lock: however it
    ends, by a return or by an exception at any of its steps, the open
    descriptors and the locks are those from before the call. *)
Theorem setup_files_leaks_nothing
  umask fault pid scripts files_dirname fuel files_path tests_path
  address assignment w :
  locks_open w = true ->
  stops_in (fun w' => w_fds w' = w_fds w /\ w_locks w' = w_locks w)
    (setup_files umask fault pid scripts files_dirname fuel files_path
       tests_path address assignment w).
Proof.
  intros Hopen. unfold setup_files.
  assert (forall A (m : M node A) w1,
            (w_fds w1 = w_fds w /\ w_locks w1 = w_locks w) ->
            stops_in (fun w' => w_fds w' = w_fds w /\ w_locks w' = w_locks w)
              (zoom m w1)) as Hz.
  { intros A m w1 [H1 H2]. pose proof (zoom_keeps m w1) as K.
    destruct (zoom m w1); simpl in *; auto; destruct K as [-> ->]; auto. }
  apply bind_stops_in; [apply Hz; auto|]. intros _ w1 H1.
  apply bind_stops_in; [apply Hz; auto|]. intros student w2 H2.
  apply bind_stops_in; [apply Hz; auto|]. intros _ w3 H3.
  apply bind_stops_in.
  - destruct H3 as [E1 E2].
    pose proof (copy_test_script_files_keeps umask pid scripts files_dirname
                  fuel address assignment tests_path w3) as K.
    rewrite (locks_open_ext w w3 E1 E2) in K. specialize (K Hopen).
    destruct (copy_test_script_files _ _ _ _ _ _ _ _ w3); simpl in *; auto;
      destruct K as [-> ->]; auto.
  - intros script w4 H4.
    apply bind_stops_in; [apply Hz; auto|]. intros _ w5 H5. exact H5.
Qed.

Lemma setup_files_leaks_nothing_witness :
  let w := World graded_fs [((7, 3), ["sub"%string])]
             [((7, 3), ["sub"%string], true)] in
  stops_in (fun w' => w_fds w' = w_fds w /\ w_locks w' = w_locks w)
    (setup_files 18 no_fault 7 (fun _ _ => ["scripts"%string]) "files" 4
       ["sub"%string] ["tmp"%string; "w"%string] "addr" 3 w).
Proof.
  intros w.
  apply (setup_files_leaks_nothing 18 no_fault 7
           (fun _ _ => ["scripts"%string]) "files" 4 ["sub"%string]
           ["tmp"%string; "w"%string] "addr" 3 w).
  reflexivity.
Defined.

(** ** The generator, consumed lazily *)

(** X13.  A [for] loop over [recursive_iglob(src)] whose body, whenever it
    returns, leaves the tree at [src] as it was, runs its body on the
    entries that [list(recursive_iglob(src))] returns, in that order: it is
    the loop over the list made beforehand. *)
Theorem for_recursive_iglob_lazy
  {A} (body : entry -> A -> M node A) fuel src acc fs tree :
  (forall e a s a' s',
     resolve s src = Ok tree -> body e a s = Ret a' s' ->
     resolve s' src = Ok tree) ->
  resolve fs src = Ok tree -> is_dir_node tree = true -> wf tree = true ->
  ndirs tree <= fuel ->
  for_recursive_iglob body fuel src acc fs
  = (l <- recursive_iglob fuel src ;; for_each body l acc) fs.
Proof.
  intros Hb Hr Hd Hwf Hfuel.
  rewrite (@for_recursive_iglob_eager A body src tree Hb fuel acc fs
             Hr Hd Hwf Hfuel).
  unfold bind.
  now rewrite (recursive_iglob_walk_list fuel src fs tree Hr Hd Hwf Hfuel).
Qed.

Lemma for_recursive_iglob_lazy_witness :
  for_recursive_iglob (fun (e : entry) (n : nat) => ret (S := node) (S n)) 2
    ["sub"%string] 0 staging_fs
  = (l <- recursive_iglob 2 ["sub"%string] ;;
     for_each (fun (e : entry) (n : nat) => ret (S n)) l 0) staging_fs.
Proof.
  apply (for_recursive_iglob_lazy
           (fun (e : entry) (n : nat) => ret (S := node) (S n)) 2
           ["sub"%string] 0 staging_fs submission).
  - intros e a s a' s' H E. injection E as _ <-. exact H.
  - reflexivity.
  - reflexivity.
  - reflexivity.
  - simpl. lia.
Defined.

(** ** A move that returned *)

(** X14.  Whenever [move_tree] returns, whatever the destination held
    before: the source was an existing directory and no longer exists, the
    destination is a directory, and the record lists every entry of the
    source tree, in the order of the traversal, at its place below the
    destination. *)
Theorem move_tree_returned umask fault fuel src dst fs moved fs' :
  wf fs = true -> overlap src dst = false ->
  move_tree umask fault fuel src dst fs = Ret moved fs' ->
  resolve fs' src = Err FileNotFoundError
  /\ isdir fs' dst = true
  /\ exists tree,
       resolve fs src = Ok tree /\ is_dir_node tree = true
       /\ moved = map (target src dst) (walk_list src tree).
Proof.
  intros Hwf Hap H.
  destruct (move_tree_ret umask fault fuel src dst fs moved fs' H)
    as [fs1 [fs2 [Hmk [Hcp Hrm]]]].
  assert (wf fs1 = true) as Hwf1 by apply (@makedirs_wf umask dst fs fs1 Hwf Hmk).
  assert (wf fs2 = true) as Hwf2.
  { pose proof (copy_tree_wf umask fuel src dst [] fs1 Hwf1) as K.
    now rewrite Hcp in K. }
  pose proof (proj1 (overlap_false _ _) Hap) as [Ha Hb].
  split; [|split].
  - exact (rmtree_returns fault src fs2 fs' Hwf2 Hrm).
  - pose proof (copy_tree_keeps_dirs umask fuel src dst [] fs1 dst
                  (@makedirs_isdir umask dst fs fs1 Hmk)) as K.
    rewrite Hcp in K. simpl in K.
    pose proof (rmtree_outside fault ignore_missing_dir_error src fs2) as Hout.
    rewrite Hrm in Hout. simpl in Hout.
    apply isdir_view. rewrite view_stat, (Hout dst Ha), <- view_stat.
    now apply isdir_view.
  - destruct (copy_tree_ret umask fuel src dst [] fs1 moved fs2 Hwf1 Hap Hcp)
      as [tree [Hr [Hd [_ [Hrec _]]]]].
    exists tree. rewrite filter_not_excluded_nil in Hrec.
    rewrite (@makedirs_resolve_other umask dst fs fs1 src Hmk Hap) in Hr.
    auto.
Qed.

Lemma move_tree_returned_witness :
  exists moved fs',
    move_tree 18 no_fault 4 ["sub"%string] ["tmp"%string; "w"%string]
      graded_fs = Ret moved fs'
    /\ resolve fs' ["sub"%string] = Err FileNotFoundError
    /\ isdir fs' ["tmp"%string; "w"%string] = true
    /\ exists tree,
         resolve graded_fs ["sub"%string] = Ok tree
         /\ is_dir_node tree = true
         /\ moved = map (target ["sub"%string] ["tmp"%string; "w"%string])
                      (walk_list ["sub"%string] tree).
Proof.
  eexists. eexists. split; [vm_compute; reflexivity|].
  eapply (move_tree_returned 18 no_fault 4 ["sub"%string]
            ["tmp"%string; "w"%string] graded_fs).
  - reflexivity.
  - reflexivity.
  - vm_compute. reflexivity.
Defined.

(** ** The steps of a with-block *)

(** The steps of a process that runs alone are its with-blocks, as
    [fd_open] and [fd_lock] run them. *)
Lemma exec_with_block {A} (t : prog A) w :
  with_block t w = exec 5 t (init t) w.
Proof.
  destruct t as [pid [p|fd] excl body]; unfold with_block, init;
    cbn [p_pid p_target p_exclusive p_body].
  - unfold fd_open, fd_lock, bind, finally.
    cbn [exec thread_step p_pid p_target p_exclusive p_body after_lock].
    destruct (os_open_call pid p w) as [fd w1|e w1|]; [| reflexivity..].
    cbn [exec thread_step p_pid p_target p_exclusive p_body after_lock].
    destruct (fd_lock_enter pid fd excl w1) as [[] w2|e w2|]; [| |reflexivity].
    + cbn [exec thread_step p_pid p_target p_exclusive p_body after_lock].
      destruct (body fd w2) as [x w3|e w3|]; [| |reflexivity];
        cbn [exec thread_step p_pid p_target p_exclusive p_body after_lock];
        (destruct (fd_lock_exit pid fd w3) as [[] w4|e' w4|]; [| |reflexivity]);
        cbn [exec thread_step p_pid p_target p_exclusive p_body after_lock];
        destruct (os_close_call pid fd w4) as [[] w5|e'' w5|]; reflexivity.
    + cbn [exec thread_step p_pid p_target p_exclusive p_body after_lock].
      destruct (os_close_call pid fd w2) as [[] w5|e'' w5|]; reflexivity.
  - unfold fd_lock, bind, finally.
    cbn [exec thread_step p_pid p_target p_exclusive p_body after_lock].
    destruct (fd_lock_enter pid fd excl w) as [[] w2|e w2|]; [| reflexivity..].
    cbn [exec thread_step p_pid p_target p_exclusive p_body after_lock].
    destruct (body fd w2) as [x w3|e w3|]; [| |reflexivity];
      cbn [exec thread_step p_pid p_target p_exclusive p_body after_lock];
      destruct (fd_lock_exit pid fd w3) as [[] w4|e' w4|]; reflexivity.
Qed.

Lemma thread_step_pid {A} (t : prog A) a w ev a' w' :
  thread_step t a w = Some (ev, a', w') -> event_pid ev = p_pid t.
Proof.
  destruct a as [|fd|fd|fd r|fd r|r]; cbn [thread_step].
  - destruct (p_target t) as [p|fd]; [|discriminate].
    destruct (os_open_call _ _ _); intros [= <- _ _]; reflexivity.
  - destruct (fd_lock_enter _ _ _ _); intros [= <- _ _]; reflexivity.
  - destruct (p_body t fd w); intros [= <- _ _]; reflexivity.
  - destruct (fd_lock_exit _ _ _); intros [= <- _ _]; reflexivity.
  - destruct (os_close_call _ _ _); intros [= <- _ _]; reflexivity.
  - discriminate.
Qed.

(** What one step does, when the descriptor of the process is open and its
    body leaves descriptors and locks alone. *)
Lemma thread_step_effect {A} (t : prog A) file a w ev a' w' :
  (forall fd, current_fd a = Some fd ->
              file_of (p_pid t, fd) (w_fds w) = Some file) ->
  (a = AtStart -> p_target t = inl file) ->
  (forall fd, keeps_handles (p_body t fd)) ->
  thread_step t a w = Some (ev, a', w') ->
  (a = AtStart
   /\ ((ev = Opening (p_pid t)
        /\ a' = HasFd (fresh_fd (p_pid t) (w_fds w))
        /\ w' = set_fds w (((p_pid t, fresh_fd (p_pid t) (w_fds w)), file)
                            :: w_fds w))
       \/ (ev = Failing (p_pid t) /\ (exists e, a' = Finished (inr e))
           /\ w' = w)))
  \/ (exists fd,
        a = HasFd fd /\ ev = Locking (p_pid t) /\ a' = Inside fd
        /\ conflicts (p_pid t, fd) file (p_exclusive t) (w_locks w) = false
        /\ w' = set_locks w (((p_pid t, fd), file, p_exclusive t)
                              :: unlock (p_pid t, fd) (w_locks w)))
  \/ (exists fd r,
        a = Inside fd /\ ev = Running (p_pid t) /\ a' = Leaving fd r
        /\ w_fds w' = w_fds w /\ w_locks w' = w_locks w)
  \/ (exists fd r,
        a = Leaving fd r /\ ev = Unlocking (p_pid t)
        /\ a' = after_lock t fd r
        /\ w' = set_locks w (unlock (p_pid t, fd) (w_locks w)))
  \/ (exists fd r,
        a = Unlocked fd r /\ ev = Closing (p_pid t) /\ a' = Finished r
        /\ w' = World (w_fs w) (drop_handle (p_pid t, fd) (w_fds w))
                  (unlock (p_pid t, fd) (w_locks w))).
Proof.
  intros Hfd Hstart Hkeep H.
  destruct a as [|fd|fd|fd r|fd r|r]; cbn [thread_step] in H.
  - left. split; [reflexivity|]. rewrite (Hstart eq_refl) in H.
    unfold os_open_call in H.
    destruct (resolve (w_fs w) file) as [n|e].
    + left. injection H as <- <- <-. auto.
    + right. injection H as <- <- <-. eauto.
  - right. left. exists fd.
    pose proof (Hfd fd eq_refl) as Hf.
    destruct (conflicts (p_pid t, fd) file (p_exclusive t) (w_locks w)) eqn:Hc.
    + exfalso. unfold fd_lock_enter, fcntl_flock in H. rewrite Hf in H.
      destruct (p_exclusive t); cbn [flock] in H; rewrite Hc in H;
        discriminate.
    + rewrite (fd_lock_enter_ok _ _ _ _ _ Hf Hc) in H.
      injection H as <- <- <-. auto.
  - right. right. left. pose proof (Hkeep fd w) as K.
    destruct (p_body t fd w) as [x w1|e w1|]; [| |discriminate];
      injection H as <- <- <-; destruct K as [K1 K2].
    + exists fd, (inl x). auto.
    + exists fd, (inr e). auto.
  - right. right. right. left. exists fd, r.
    pose proof (Hfd fd eq_refl) as Hf.
    unfold fd_lock_exit, fcntl_flock in H. rewrite Hf in H.
    cbn [flock] in H. injection H as <- <- <-. auto.
  - right. right. right. right. exists fd, r.
    pose proof (Hfd fd eq_refl) as Hf.
    unfold os_close_call in H. rewrite Hf in H.
    injection H as <- <- <-. auto.
  - discriminate.
Qed.

Lemma file_of_cons_other h h' p fds :
  h <> h' -> file_of h ((h', p) :: fds) = file_of h fds.
Proof.
  intros Hne. cbn [file_of]. destruct (handle_eqb h h') eqn:E; [|reflexivity].
  apply handle_eqb_eq in E. contradiction.
Qed.

Lemma file_of_drop_other h h' fds :
  h <> h' -> file_of h (drop_handle h' fds) = file_of h fds.
Proof.
  intros Hne. unfold drop_handle.
  induction fds as [|[h0 p] fds IH]; [reflexivity|]. cbn [filter fst].
  destruct (handle_eqb h' h0) eqn:E; cbn [negb].
  - apply handle_eqb_eq in E. subst h0. now rewrite file_of_cons_other.
  - cbn [file_of]. now rewrite IH.
Qed.

Lemma file_of_drop_same h fds : file_of h (drop_handle h fds) = None.
Proof.
  unfold drop_handle. induction fds as [|[h0 p] fds IH]; [reflexivity|].
  cbn [filter fst]. destruct (handle_eqb h h0) eqn:E; cbn [negb];
    [assumption|]. cbn [file_of]. now rewrite E.
Qed.

Lemma current_after_lock {A} (t : prog A) fd r fd' :
  current_fd (after_lock t fd r) = Some fd' ->
  fd' = fd /\ exists p, p_target t = inl p.
Proof.
  unfold after_lock. destruct (p_target t) as [p|fd0]; cbn [current_fd];
    [|discriminate]. intros [= <-]. eauto.
Qed.

Lemma inside_after_lock {A} (t : prog A) fd r :
  inside (after_lock t fd r) = false.
Proof. unfold after_lock. now destruct (p_target t). Qed.

Lemma holds_after_lock {A} (t : prog A) file fd r l :
  ~ holds t file (after_lock t fd r) l.
Proof. unfold after_lock. now destruct (p_target t). Qed.

Lemma phase_says_after_lock {A} (t : prog A) pid tr fd r :
  phase_says pid tr (after_lock t fd r) = phase_says pid tr (Finished r).
Proof. unfold after_lock. now destruct (p_target t). Qed.

Lemma In_snoc_other (tr : list event) ev x :
  event_pid x <> event_pid ev -> (In x (tr ++ [ev]) <-> In x tr).
Proof.
  intros Hne. rewrite in_app_iff. cbn [In]. split; [|tauto].
  intros [H|[H|[]]]; [assumption|]. subst x. contradiction.
Qed.

Lemma phase_says_other {A} pid tr ev (a : pc A) :
  event_pid ev <> pid -> phase_says pid tr a -> phase_says pid (tr ++ [ev]) a.
Proof.
  intros Hne H.
  assert (forall x, event_pid x = pid -> (In x (tr ++ [ev]) <-> In x tr)) as K.
  { intros x Hx. apply In_snoc_other. congruence. }
  destruct a; cbn [phase_says] in *;
    rewrite !(K (Locking pid) eq_refl), !(K (Running pid) eq_refl),
      !(K (Unlocking pid) eq_refl); assumption.
Qed.

(** A step of a process keeps what holds of the process itself. *)
Lemma thread_ok_step {A} (t : prog A) file fds0 tr a w ev a' w' :
  (forall fd, keeps_handles (p_body t fd)) ->
  thread_ok t file fds0 tr a (w_fds w) ->
  thread_step t a w = Some (ev, a', w') ->
  thread_ok t file fds0 (tr ++ [ev]) a' (w_fds w').
Proof.
  intros Hkeep [Hfd [Hleak [Hph Hst]]] H.
  assert (forall (x y : event), x <> y -> (In x (tr ++ [y]) <-> In x tr))
    as Hother.
  { intros x y Hne. rewrite in_app_iff. cbn [In]. split; [|tauto].
    intros [K|[K|[]]]; [assumption | congruence]. }
  assert (forall (x : event), In x (tr ++ [x])) as Hlast
    by (intros x; apply in_app_iff; right; now left).
  destruct (thread_step_effect t file a w ev a' w' Hfd Hst Hkeep H)
    as [[-> [[-> [-> ->]]|[-> [[e ->] ->]]]]
       |[[fd [-> [-> [-> [Hc ->]]]]]
        |[[fd [r [-> [-> [-> [E1 E2]]]]]]
         |[[fd [r [-> [-> [-> ->]]]]]
          |[fd [r [-> [-> [-> ->]]]]]]]]].
  - (* os.open returned *)
    set (fd := fresh_fd (p_pid t) (w_fds w)).
    cbn [set_fds w_fds]. split; [|split; [|split]].
    + intros fd' [= <-]. cbn [file_of]. now rewrite handle_eqb_refl.
    + intros fd' p Hp. cbn [file_of] in Hp.
      destruct (handle_eqb (p_pid t, fd') (p_pid t, fd)) eqn:E.
      * apply handle_eqb_eq in E. injection E as ->. right.
        split; [reflexivity | now apply Hst].
      * destruct (Hleak fd' p Hp) as [K|[K _]]; [now left | discriminate K].
    + cbn [phase_says] in *. rewrite !Hother by discriminate. exact Hph.
    + discriminate.
  - (* os.open raised *)
    split; [|split; [|split]].
    + discriminate.
    + intros fd' p Hp.
      destruct (Hleak fd' p Hp) as [K|[K _]]; [now left | discriminate K].
    + cbn [phase_says] in *. right. rewrite !Hother by discriminate.
      exact Hph.
    + discriminate.
  - (* the lock is taken *)
    cbn [set_locks w_fds]. split; [|split; [|split]].
    + intros fd' [= <-]. now apply Hfd.
    + intros fd' p Hp. destruct (Hleak fd' p Hp) as [K|K]; auto.
    + cbn [phase_says] in *. destruct Hph as [H1 [H2 H3]].
      split; [apply Hlast|].
      split; (rewrite Hother by discriminate; assumption).
    + discriminate.
  - (* the body has run *)
    rewrite E1. split; [|split; [|split]].
    + intros fd' [= <-]. now apply Hfd.
    + intros fd' p Hp. destruct (Hleak fd' p Hp) as [K|K]; auto.
    + cbn [phase_says] in *. destruct Hph as [H1 [H2 H3]].
      split; [apply in_app_iff; now left|]. split; [apply Hlast|].
      rewrite Hother by discriminate. assumption.
    + discriminate.
  - (* the lock is released *)
    cbn [set_locks w_fds]. split; [|split; [|split]].
    + intros fd' Hc. apply current_after_lock in Hc. destruct Hc as [-> _].
      now apply Hfd.
    + intros fd' p Hp. destruct (Hleak fd' p Hp) as [K|[K1 K2]]; auto.
      right. split; [|assumption]. unfold after_lock. rewrite K2.
      exact K1.
    + rewrite phase_says_after_lock. cbn [phase_says] in *.
      destruct Hph as [H1 [H2 H3]]. left.
      split; [apply in_app_iff; now left|].
      split; [apply in_app_iff; now left | apply Hlast].
    + unfold after_lock. destruct (p_target t); discriminate.
  - (* the descriptor is closed *)
    cbn [w_fds]. split; [|split; [|split]].
    + discriminate.
    + intros fd' p Hp. destruct (Nat.eq_dec fd' fd) as [->|Hne].
      * now rewrite file_of_drop_same in Hp.
      * rewrite file_of_drop_other in Hp by congruence.
        destruct (Hleak fd' p Hp) as [K|[K _]]; [now left|].
        injection K as <-. contradiction.
    + cbn [phase_says] in *.
      destruct Hph as [[H1 [H2 H3]]|[H1 [H2 H3]]]; [left | right];
        rewrite !Hother by discriminate; auto.
    + discriminate.
Qed.

(** A step of a process keeps what holds of another process. *)
Lemma thread_ok_other {A B} (t : prog A) (u : prog B) file fds0 tr a b w ev
  a' w' :
  p_pid t <> p_pid u ->
  (forall fd, keeps_handles (p_body t fd)) ->
  thread_ok t file fds0 tr a (w_fds w) ->
  thread_step t a w = Some (ev, a', w') ->
  thread_ok u file fds0 tr b (w_fds w) ->
  thread_ok u file fds0 (tr ++ [ev]) b (w_fds w').
Proof.
  intros Hne Hkeep [Hfd [_ [_ Hst]]] H [Ufd [Uleak [Uph Ust]]].
  assert (forall fd, file_of (p_pid u, fd) (w_fds w')
                     = file_of (p_pid u, fd) (w_fds w)) as Hsame.
  { intros fd'.
    destruct (thread_step_effect t file a w ev a' w' Hfd Hst Hkeep H)
      as [[_ [[_ [_ ->]]|[_ [_ ->]]]]
         |[[fd [_ [_ [_ [_ ->]]]]]
          |[[fd [r [_ [_ [_ [E1 _]]]]]]
           |[[fd [r [_ [_ [_ ->]]]]]
            |[fd [r [_ [_ [_ ->]]]]]]]]]; cbn [set_fds set_locks w_fds];
      try reflexivity.
    - apply file_of_cons_other. congruence.
    - now rewrite E1.
    - apply file_of_drop_other. congruence. }
  split; [|split; [|split]].
  - intros fd Hc. rewrite Hsame. now apply Ufd.
  - intros fd p Hp. rewrite Hsame in Hp. now apply Uleak.
  - apply phase_says_other; [|assumption].
    rewrite (thread_step_pid t a w ev a' w' H). exact Hne.
  - exact Ust.
Qed.

Lemma holds_pid {A} (t : prog A) file a l :
  holds t file a l -> fst (fst (fst l)) = p_pid t /\ inside a = true.
Proof. destruct a; cbn [holds inside]; try tauto; intros ->; auto. Qed.

Lemma holds_inside {A} (t : prog A) file a :
  inside a = true ->
  exists fd, current_fd a = Some fd
             /\ holds t file a ((p_pid t, fd), file, p_exclusive t).
Proof.
  destruct a as [|fd|fd|fd r|fd r|r]; cbn [inside]; try discriminate;
    intros _; exists fd; split; reflexivity.
Qed.

Lemma foreign_handle pid fd ls l :
  foreign pid ls -> In l ls -> fst (fst l) <> (pid, fd).
Proof. intros Hf Hin E. apply (Hf l Hin). now rewrite E. Qed.

(** A step of the first process keeps the state of the two consistent. *)
Lemma step_consistent {A B} (t1 : prog A) (t2 : prog B) file w0 tr w a b ev
  a' w' :
  p_pid t1 <> p_pid t2 ->
  foreign (p_pid t1) (w_locks w0) ->
  (forall fd, keeps_handles (p_body t1 fd)) ->
  consistent t1 t2 file w0 tr (w, a, b) ->
  thread_step t1 a w = Some (ev, a', w') ->
  consistent t1 t2 file w0 (tr ++ [ev]) (w', a', b).
Proof.
  intros Hne Hfor Hkeep [H1 [H2 [HL HX]]] H.
  split; [eapply thread_ok_step; eassumption|].
  split; [eapply thread_ok_other; eassumption|].
  pose proof H1 as [Hfd [_ [_ Hst]]].
  assert (forall l, holds t2 file b l -> In l (w_locks w)) as Hin2
    by (intros l Hl; apply HL; auto).
  assert (forall l fd, holds t2 file b l -> fst (fst l) <> (p_pid t1, fd))
    as Hh2.
  { intros l fd Hl E. apply holds_pid in Hl. destruct Hl as [Hl _].
    rewrite E in Hl. cbn [fst] in Hl. congruence. }
  destruct (thread_step_effect t1 file a w ev a' w' Hfd Hst Hkeep H)
    as [[-> [[_ [-> ->]]|[_ [[e ->] ->]]]]
       |[[fd [-> [_ [-> [Hc ->]]]]]
        |[[fd [r [-> [_ [-> [E1 E2]]]]]]
         |[[fd [r [-> [_ [-> ->]]]]]
          |[fd [r [-> [_ [-> ->]]]]]]]]].
  - split; [exact HL|]. intros _ [K _]. discriminate K.
  - split; [exact HL|]. intros _ [K _]. discriminate K.
  - split.
    + intros l. cbn [set_locks w_locks In holds]. rewrite unlock_In, HL.
      cbn [holds]. split.
      * intros [<-|[[K|[[]|K]] _]]; auto.
      * intros [K|[->|K]].
        -- right. split; [auto|].
           now apply foreign_handle with (ls := w_locks w0).
        -- now left.
        -- right. split; [auto|]. now apply Hh2.
    + intros He [_ Hb]. destruct (holds_inside t2 file b Hb) as [fd2 [_ Hl]].
      assert (conflicts (p_pid t1, fd) file (p_exclusive t1) (w_locks w)
              = true) as K; [|congruence].
      unfold conflicts. apply existsb_exists.
      exists ((p_pid t2, fd2), file, p_exclusive t2).
      split; [now apply Hin2|].
      rewrite He, andb_true_r. apply andb_true_iff. split.
      * apply negb_true_iff.
        destruct (handle_eqb (p_pid t1, fd) (p_pid t2, fd2)) eqn:E;
          [|reflexivity].
        apply handle_eqb_eq in E. congruence.
      * apply path_eqb_refl.
  - split.
    + intros l. rewrite E2, HL. reflexivity.
    + intros He [_ Hb]. apply (HX He). auto.
  - split.
    + intros l. cbn [set_locks w_locks]. rewrite unlock_In, HL.
      cbn [holds]. split.
      * intros [[K|[->|K]] Hh]; auto. now elim Hh.
      * intros [K|[K|K]].
        -- split; [auto|]. now apply foreign_handle with (ls := w_locks w0).
        -- now apply holds_after_lock in K.
        -- split; [auto|]. now apply Hh2.
    + intros _ [K _]. now rewrite inside_after_lock in K.
  - split.
    + intros l. cbn [w_locks]. rewrite unlock_In, HL. cbn [holds]. split.
      * intros [[K|[[]|K]] _]; auto.
      * intros [K|[[]|K]].
        -- split; [auto|]. now apply foreign_handle with (ls := w_locks w0).
        -- split; [auto|]. now apply Hh2.
    + intros _ [K _]. discriminate K.
Qed.

Lemma consistent_swap {A B} (t1 : prog A) (t2 : prog B) file w0 tr w a b :
  consistent t1 t2 file w0 tr (w, a, b) ->
  consistent t2 t1 file w0 tr (w, b, a).
Proof.
  intros [H1 [H2 [HL HX]]]. split; [assumption|]. split; [assumption|].
  split.
  - intros l. rewrite HL. tauto.
  - rewrite orb_comm. tauto.
Qed.

Section TwoProcesses.

Context {A B : Type}.
Variable t1 : prog A.
Variable t2 : prog B.
Variable file : path.
Variable w0 : world.
Hypothesis distinct : p_pid t1 <> p_pid t2.
Hypothesis same1 : target_file t1 w0 = Some file.
Hypothesis same2 : target_file t2 w0 = Some file.
Hypothesis foreign1 : foreign (p_pid t1) (w_locks w0).
Hypothesis foreign2 : foreign (p_pid t2) (w_locks w0).
Hypothesis keeps1 : forall fd, keeps_handles (p_body t1 fd).
Hypothesis keeps2 : forall fd, keeps_handles (p_body t2 fd).

Lemma thread_ok_init {C} (t : prog C) :
  target_file t w0 = Some file ->
  thread_ok t file (w_fds w0) [] (init t) (w_fds w0).
Proof.
  unfold target_file, init. intros H.
  destruct (p_target t) as [p|fd] eqn:E.
  - injection H as ->. split; [|split; [|split]].
    + discriminate.
    + auto.
    + cbn [phase_says In]. tauto.
    + intros _. exact E.
  - split; [|split; [|split]].
    + now intros fd' [= <-].
    + auto.
    + cbn [phase_says In]. tauto.
    + discriminate.
Qed.

Lemma consistent_init :
  consistent t1 t2 file w0 [] (w0, init t1, init t2).
Proof.
  split; [now apply thread_ok_init|]. split; [now apply thread_ok_init|].
  assert (forall C (t : prog C), inside (init t) = false) as Hi
    by (intros C t; unfold init; now destruct (p_target t)).
  split.
  - intros l. split; [auto|]. intros [K|[K|K]]; [assumption| |];
      apply holds_pid in K; destruct K as [_ K]; now rewrite Hi in K.
  - intros _ [K _]. now rewrite Hi in K.
Qed.

(** Every state that an interleaving reaches is consistent. *)
Lemma run_consistent tr s :
  run t1 t2 (w0, init t1, init t2) tr s -> consistent t1 t2 file w0 tr s.
Proof.
  intros H. remember (w0, init t1, init t2) as s0 eqn:E.
  induction H as [s|s tr w a b ev a' w' H IH Hs|s tr w a b ev b' w' H IH Hs];
    subst s.
  - apply consistent_init.
  - eapply step_consistent; eauto.
  - apply consistent_swap. eapply step_consistent; eauto.
    apply consistent_swap. auto.
Qed.

End TwoProcesses.

Lemma run_split {A B} (t1 : prog A) (t2 : prog B) s tr1 ev tr2 s' :
  run t1 t2 s (tr1 ++ ev :: tr2) s' ->
  exists w a b,
    run t1 t2 s tr1 (w, a, b)
    /\ ((exists a' w', thread_step t1 a w = Some (ev, a', w'))
        \/ (exists b' w', thread_step t2 b w = Some (ev, b', w'))).
Proof.
  intros H. remember (tr1 ++ ev :: tr2) as tr eqn:E. revert tr2 E.
  induction H as [s|s tr w a b x a' w' H IH Hs|s tr w a b x b' w' H IH Hs];
    intros tr2 E.
  - destruct tr1; discriminate.
  - destruct tr2 as [|y tr2] using rev_ind.
    + apply app_inj_tail in E. destruct E as [-> ->]. exists w, a, b. eauto.
    + rewrite app_comm_cons, app_assoc in E. apply app_inj_tail in E.
      destruct E as [E _]. now apply (IH tr2).
  - destruct tr2 as [|y tr2] using rev_ind.
    + apply app_inj_tail in E. destruct E as [-> ->]. exists w, a, b. eauto.
    + rewrite app_comm_cons, app_assoc in E. apply app_inj_tail in E.
      destruct E as [E _]. now apply (IH tr2).
Qed.

Lemma run_app {A B} (t1 : prog A) (t2 : prog B) s tr1 s1 tr2 s2 :
  run t1 t2 s tr1 s1 -> run t1 t2 s1 tr2 s2 -> run t1 t2 s (tr1 ++ tr2) s2.
Proof.
  intros H1 H2. induction H2; rewrite ?app_nil_r, ?app_assoc; auto.
  - eapply run_first; eauto.
  - eapply run_second; eauto.
Qed.

Lemma run_swap {A B} (t1 : prog A) (t2 : prog B) w a b tr w' a' b' :
  run t1 t2 (w, a, b) tr (w', a', b') -> run t2 t1 (w, b, a) tr (w', b', a').
Proof.
  intros H. remember (w, a, b) as s eqn:E. remember (w', a', b') as s' eqn:E'.
  revert w' a' b' E'.
  induction H as [s|s tr w1 a1 b1 x a2 w2 H IH Hs
                 |s tr w1 a1 b1 x b2 w2 H IH Hs]; intros w' a' b' E'; subst.
  - injection E' as -> -> ->. constructor.
  - injection E' as -> -> ->. eapply run_second; [|eassumption]. now apply IH.
  - injection E' as -> -> ->. eapply run_first; [|eassumption]. now apply IH.
Qed.

Lemma thread_step_fd {A} (t : prog A) fd0 a w ev a' w' :
  p_target t = inr fd0 ->
  thread_step t a w = Some (ev, a', w') ->
  (forall fd, current_fd a = Some fd -> fd = fd0) ->
  forall fd, current_fd a' = Some fd -> fd = fd0.
Proof.
  intros Ht H Ha fd.
  destruct a as [|fd'|fd'|fd' r|fd' r|r]; cbn [thread_step] in H.
  - rewrite Ht in H. discriminate.
  - destruct (fd_lock_enter _ _ _ _); try discriminate H;
      injection H as _ <- _; unfold after_lock; rewrite ?Ht;
      cbn [current_fd]; try discriminate.
    intros [= <-]. now apply Ha.
  - destruct (p_body t fd' w); try discriminate H; injection H as _ <- _;
      cbn [current_fd]; intros [= <-]; now apply Ha.
  - destruct (fd_lock_exit _ _ _); try discriminate H;
      injection H as _ <- _; unfold after_lock; rewrite Ht; discriminate.
  - destruct (os_close_call _ _ _); try discriminate H;
      injection H as _ <- _; discriminate.
  - discriminate.
Qed.

Lemma run_fd {A B} (t1 : prog A) (t2 : prog B) fd1 fd2 w tr w' a b :
  p_target t1 = inr fd1 -> p_target t2 = inr fd2 ->
  run t1 t2 (w, init t1, init t2) tr (w', a, b) ->
  (forall fd, current_fd a = Some fd -> fd = fd1)
  /\ (forall fd, current_fd b = Some fd -> fd = fd2).
Proof.
  intros H1 H2 H. remember (w, init t1, init t2) as s0 eqn:E0.
  remember (w', a, b) as s eqn:E. revert w' a b E.
  induction H as [s|s tr w1 a1 b1 x a2 w2 H IH Hs
                 |s tr w1 a1 b1 x b2 w2 H IH Hs]; intros w' a b E; subst.
  - injection E as <- <- <-. unfold init. rewrite H1, H2. cbn [current_fd].
    split; intros fd [= <-]; reflexivity.
  - injection E as <- <- <-. destruct (IH eq_refl _ _ _ eq_refl) as [K1 K2].
    split; [|assumption]. eapply thread_step_fd; eassumption.
  - injection E as <- <- <-. destruct (IH eq_refl _ _ _ eq_refl) as [K1 K2].
    split; [assumption|]. eapply thread_step_fd; eassumption.
Qed.

Lemma running_inside {A} (t : prog A) a w a' w' :
  thread_step t a w = Some (Running (p_pid t), a', w') ->
  exists fd, a = Inside fd.
Proof.
  destruct a as [|fd|fd|fd r|fd r|r]; cbn [thread_step]; eauto.
  - destruct (p_target t); [|discriminate].
    destruct (os_open_call _ _ _); discriminate.
  - destruct (fd_lock_enter _ _ _ _); discriminate.
  - destruct (fd_lock_exit _ _ _); discriminate.
  - destruct (os_close_call _ _ _); discriminate.
  - discriminate.
Qed.

(** A process that finds no conflicting lock and whose body ends can go
    through its lock, its body and its release in one go. *)
Lemma solo_run {A B} (t1 : prog A) (t2 : prog B) fd file w b :
  file_of (p_pid t1, fd) (w_fds w) = Some file ->
  conflicts (p_pid t1, fd) file (p_exclusive t1) (w_locks w) = false ->
  (forall fd, keeps_handles (p_body t1 fd)) ->
  (forall w1, p_body t1 fd w1 <> Timeout) ->
  exists r w',
    run t1 t2 (w, HasFd fd, b)
      [Locking (p_pid t1); Running (p_pid t1); Unlocking (p_pid t1)]
      (w', after_lock t1 fd r, b)
    /\ w_fds w' = w_fds w
    /\ w_locks w' = unlock (p_pid t1, fd) (w_locks w).
Proof.
  intros Hf Hc Hkeep Hend.
  set (w1 := set_locks w (((p_pid t1, fd), file, p_exclusive t1)
                          :: unlock (p_pid t1, fd) (w_locks w))).
  assert (thread_step t1 (HasFd fd) w
          = Some (Locking (p_pid t1), Inside fd, w1)) as S1.
  { cbn [thread_step]. now rewrite (fd_lock_enter_ok _ _ _ _ _ Hf Hc). }
  pose proof (Hkeep fd w1) as K. pose proof (Hend w1) as E.
  assert (exists r w2,
            thread_step t1 (Inside fd) w1
            = Some (Running (p_pid t1), Leaving fd r, w2)
            /\ w_fds w2 = w_fds w /\ w_locks w2 = w_locks w1)
    as [r [w2 [S2 [F2 L2]]]].
  { cbn [thread_step].
    destruct (p_body t1 fd w1) as [x w2|e w2|]; [| |congruence];
      destruct K as [K1 K2]; [exists (inl x), w2 | exists (inr e), w2]; auto. }
  assert (thread_step t1 (Leaving fd r) w2
          = Some (Unlocking (p_pid t1), after_lock t1 fd r,
                  set_locks w2 (unlock (p_pid t1, fd) (w_locks w2)))) as S3.
  { cbn [thread_step]. unfold fd_lock_exit, fcntl_flock.
    now rewrite F2, Hf. }
  exists r, (set_locks w2 (unlock (p_pid t1, fd) (w_locks w2))).
  split; [|split].
  - change [Locking (p_pid t1); Running (p_pid t1); Unlocking (p_pid t1)]
      with ((([] ++ [Locking (p_pid t1)]) ++ [Running (p_pid t1)])
            ++ [Unlocking (p_pid t1)]).
    eapply run_first; [|exact S3]. eapply run_first; [|exact S2].
    eapply run_first; [|exact S1]. constructor.
  - exact F2.
  - cbn [set_locks w_locks]. rewrite L2. unfold w1. cbn [set_locks w_locks].
    now rewrite unlock_own, unlock_twice.
Qed.

(** ** Claim about two processes and one lock *)

(** C8.  Two processes that hold descriptors of the same file and each run
    [with fd_lock(fd, exclusive): body], with bodies that leave descriptors
    and locks alone.  The steps of each process are those of [fd_lock]: a
    process running alone from any world ends as [fd_lock] does.  In every
    interleaving, a body runs only with the lock of its process in the
    table, and when at least one of the two asks for an exclusive lock the
    two are never inside together: a process that enters after the other
    has entered does so after the other has run its body and released its
    lock.  When both ask for a shared lock, the second can enter while the
    first is inside.  And the serialized order is possible whatever the
    modes, when the bodies end. *)
Theorem fd_lock_serializes {A B} (t1 : prog A) (t2 : prog B) fd1 fd2 file w :
  p_pid t1 <> p_pid t2 ->
  p_target t1 = inr fd1 -> p_target t2 = inr fd2 ->
  file_of (p_pid t1, fd1) (w_fds w) = Some file ->
  file_of (p_pid t2, fd2) (w_fds w) = Some file ->
  w_locks w = [] ->
  (forall fd, keeps_handles (p_body t1 fd)) ->
  (forall fd, keeps_handles (p_body t2 fd)) ->
  (forall w0,
     fd_lock (p_pid t1) fd1 (p_exclusive t1) (p_body t1 fd1) w0
     = exec 5 t1 (init t1) w0)
  /\ (forall w0,
        fd_lock (p_pid t2) fd2 (p_exclusive t2) (p_body t2 fd2) w0
        = exec 5 t2 (init t2) w0)
  /\ (forall tr w' a b,
        run t1 t2 (w, init t1, init t2) tr (w', a, b) ->
        (inside a = true ->
         In ((p_pid t1, fd1), file, p_exclusive t1) (w_locks w'))
        /\ (inside b = true ->
            In ((p_pid t2, fd2), file, p_exclusive t2) (w_locks w'))
        /\ (p_exclusive t1 || p_exclusive t2 = true ->
            ~ (inside a = true /\ inside b = true))
        /\ (forall a' w'',
              thread_step t1 a w' = Some (Running (p_pid t1), a', w'') ->
              a = Inside fd1
              /\ In ((p_pid t1, fd1), file, p_exclusive t1) (w_locks w')
              /\ (p_exclusive t1 || p_exclusive t2 = true ->
                  inside b = false))
        /\ (forall b' w'',
              thread_step t2 b w' = Some (Running (p_pid t2), b', w'') ->
              b = Inside fd2
              /\ In ((p_pid t2, fd2), file, p_exclusive t2) (w_locks w')
              /\ (p_exclusive t1 || p_exclusive t2 = true ->
                  inside a = false)))
  /\ (p_exclusive t1 || p_exclusive t2 = true ->
      forall tr1 tr2 s',
        run t1 t2 (w, init t1, init t2)
          (tr1 ++ Locking (p_pid t2) :: tr2) s' ->
        In (Locking (p_pid t1)) tr1 ->
        In (Running (p_pid t1)) tr1 /\ In (Unlocking (p_pid t1)) tr1)
  /\ (p_exclusive t1 = false -> p_exclusive t2 = false ->
      exists w',
        run t1 t2 (w, init t1, init t2)
          [Locking (p_pid t1); Locking (p_pid t2)]
          (w', Inside fd1, Inside fd2))
  /\ ((forall w1, p_body t1 fd1 w1 <> Timeout) ->
      (forall w1, p_body t2 fd2 w1 <> Timeout) ->
      exists s',
        run t1 t2 (w, init t1, init t2)
          [Locking (p_pid t1); Running (p_pid t1); Unlocking (p_pid t1);
           Locking (p_pid t2); Running (p_pid t2); Unlocking (p_pid t2)] s').
Proof.
  intros Hne Ht1 Ht2 Hf1 Hf2 Hl Hk1 Hk2.
  assert (target_file t1 w = Some file) as Hs1
    by (unfold target_file; now rewrite Ht1).
  assert (target_file t2 w = Some file) as Hs2
    by (unfold target_file; now rewrite Ht2).
  assert (forall pid, foreign pid (w_locks w)) as Hfor
    by (intros pid l Hin; rewrite Hl in Hin; destruct Hin).
  assert (forall tr s, run t1 t2 (w, init t1, init t2) tr s ->
                       consistent t1 t2 file w tr s) as Hinv
    by (intros tr s; now apply run_consistent).
  assert (forall tr w' a b,
            run t1 t2 (w, init t1, init t2) tr (w', a, b) ->
            (inside a = true ->
             In ((p_pid t1, fd1), file, p_exclusive t1) (w_locks w'))
            /\ (inside b = true ->
                In ((p_pid t2, fd2), file, p_exclusive t2) (w_locks w')))
    as Hheld.
  { intros tr w' a b Hrun.
    destruct (Hinv _ _ Hrun) as [_ [_ [HL _]]].
    destruct (run_fd t1 t2 fd1 fd2 w tr w' a b Ht1 Ht2 Hrun) as [K1 K2].
    split; intros Hin.
    - destruct (holds_inside t1 file a Hin) as [fd [Hc Hh]].
      rewrite (K1 fd Hc) in Hh. apply HL. auto.
    - destruct (holds_inside t2 file b Hin) as [fd [Hc Hh]].
      rewrite (K2 fd Hc) in Hh. apply HL. auto. }
  split; [|split; [|split; [|split; [|split]]]].
  - intros w0. rewrite <- exec_with_block. unfold with_block. now rewrite Ht1.
  - intros w0. rewrite <- exec_with_block. unfold with_block. now rewrite Ht2.
  - intros tr w' a b Hrun.
    destruct (Hheld _ _ _ _ Hrun) as [Ha Hb].
    destruct (Hinv _ _ Hrun) as [_ [_ [_ HX]]].
    destruct (run_fd t1 t2 fd1 fd2 w tr w' a b Ht1 Ht2 Hrun) as [K1 K2].
    split; [exact Ha|]. split; [exact Hb|]. split; [exact HX|]. split.
    + intros a' w'' Hs. destruct (running_inside t1 a w' a' w'' Hs) as [fd ->].
      rewrite (K1 fd eq_refl). split; [reflexivity|].
      split; [now apply Ha|]. intros He.
      destruct (inside b) eqn:Eb; [|reflexivity]. elim (HX He). auto.
    + intros b' w'' Hs. destruct (running_inside t2 b w' b' w'' Hs) as [fd ->].
      rewrite (K2 fd eq_refl). split; [reflexivity|].
      split; [now apply Hb|]. intros He.
      destruct (inside a) eqn:Ea; [|reflexivity]. elim (HX He). auto.
  - intros He tr1 tr2 s' Hrun Hin.
    destruct (run_split t1 t2 _ tr1 _ tr2 s' Hrun)
      as [w1 [a [b [Hrun1 [[a' [w2 Hs]]|[b' [w2 Hs]]]]]]].
    { apply thread_step_pid in Hs. cbn [event_pid] in Hs. congruence. }
    pose proof (Hinv _ _ Hrun1) as [[_ [_ [Hph _]]] [[Hfd [_ [_ Hst]]] [HL _]]].
    destruct (thread_step_effect t2 file b w1 _ b' w2 Hfd Hst Hk2 Hs)
      as [[_ [[K _]|[K _]]]
         |[[fd [-> [_ [-> [Hc ->]]]]]
          |[[fd [r [_ [K _]]]]
           |[[fd [r [_ [K _]]]]
            |[fd [r [_ [K _]]]]]]]]; try discriminate K.
    destruct a as [|fa|fa|fa r|fa r|r]; cbn [phase_says] in Hph.
    + destruct Hph as [K _]. contradiction.
    + destruct Hph as [K _]. contradiction.
    + exfalso.
      assert (conflicts (p_pid t2, fd) file (p_exclusive t2) (w_locks w1)
              = true) as K; [|congruence].
      unfold conflicts. apply existsb_exists.
      exists ((p_pid t1, fa), file, p_exclusive t1). split.
      * apply HL. right. left. reflexivity.
      * rewrite orb_comm, He, andb_true_r. apply andb_true_iff. split.
        -- apply negb_true_iff.
           destruct (handle_eqb (p_pid t2, fd) (p_pid t1, fa)) eqn:E;
             [|reflexivity].
           apply handle_eqb_eq in E. congruence.
        -- apply path_eqb_refl.
    + exfalso.
      assert (conflicts (p_pid t2, fd) file (p_exclusive t2) (w_locks w1)
              = true) as K; [|congruence].
      unfold conflicts. apply existsb_exists.
      exists ((p_pid t1, fa), file, p_exclusive t1). split.
      * apply HL. right. left. reflexivity.
      * rewrite orb_comm, He, andb_true_r. apply andb_true_iff. split.
        -- apply negb_true_iff.
           destruct (handle_eqb (p_pid t2, fd) (p_pid t1, fa)) eqn:E;
             [|reflexivity].
           apply handle_eqb_eq in E. congruence.
        -- apply path_eqb_refl.
    + destruct Hph as [[_ K]|[K _]]; [exact K | contradiction].
    + destruct Hph as [[_ K]|[K _]]; [exact K | contradiction].
  - intros E1 E2.
    set (w1 := set_locks w (((p_pid t1, fd1), file, p_exclusive t1)
                            :: unlock (p_pid t1, fd1) (w_locks w))).
    set (w2 := set_locks w1 (((p_pid t2, fd2), file, p_exclusive t2)
                             :: unlock (p_pid t2, fd2) (w_locks w1))).
    exists w2.
    change [Locking (p_pid t1); Locking (p_pid t2)]
      with (([] ++ [Locking (p_pid t1)]) ++ [Locking (p_pid t2)]).
    unfold init. rewrite Ht1, Ht2.
    eapply run_second; [eapply run_first; [constructor|]|].
    + cbn [thread_step]. rewrite (fd_lock_enter_ok _ _ _ _ _ Hf1);
        [reflexivity | now rewrite Hl].
    + cbn [thread_step]. rewrite (fd_lock_enter_ok _ _ _ w1 file);
        [reflexivity | exact Hf2 |].
      unfold w1. cbn [set_locks w_locks]. rewrite Hl, E1, E2.
      cbn [unlock filter conflicts existsb].
      now rewrite !andb_false_r.
  - intros Hend1 Hend2. unfold init. rewrite Ht1, Ht2.
    destruct (solo_run t1 t2 fd1 file w (HasFd fd2) Hf1) as [r1 [wa [R1 [F1 L1]]]];
      [now rewrite Hl | assumption | assumption |].
    destruct (solo_run t2 t1 fd2 file wa (after_lock t1 fd1 r1))
      as [r2 [wb [R2 _]]];
      [now rewrite F1 | rewrite L1, Hl; reflexivity | assumption
      | assumption |].
    apply run_swap in R2.
    exists (wb, after_lock t1 fd1 r1, after_lock t2 fd2 r2).
    apply (run_app t1 t2 _ _ _ _ _ R1 R2).
Qed.

Lemma fd_lock_serializes_witness :
  let t1 := Prog 1 (inr 3) true (fun (_ : nat) w => Ret (w_locks w) w) in
  let t2 := Prog 2 (inr 3) false (fun (_ : nat) w => Ret (w_locks w) w) in
  let w := World staging_fs
             [((1, 3), ["sub"%string; "a.txt"%string]);
              ((2, 3), ["sub"%string; "a.txt"%string])] [] in
  (forall w0,
     fd_lock (p_pid t1) 3 (p_exclusive t1) (p_body t1 3) w0
     = exec 5 t1 (init t1) w0)
  /\ (forall w0,
        fd_lock (p_pid t2) 3 (p_exclusive t2) (p_body t2 3) w0
        = exec 5 t2 (init t2) w0)
  /\ (forall tr w' a b,
        run t1 t2 (w, init t1, init t2) tr (w', a, b) ->
        (inside a = true ->
         In ((p_pid t1, 3), ["sub"%string; "a.txt"%string], p_exclusive t1) (w_locks w'))
        /\ (inside b = true ->
            In ((p_pid t2, 3), ["sub"%string; "a.txt"%string], p_exclusive t2) (w_locks w'))
        /\ (p_exclusive t1 || p_exclusive t2 = true ->
            ~ (inside a = true /\ inside b = true))
        /\ (forall a' w'',
              thread_step t1 a w' = Some (Running (p_pid t1), a', w'') ->
              a = Inside 3
              /\ In ((p_pid t1, 3), ["sub"%string; "a.txt"%string], p_exclusive t1) (w_locks w')
              /\ (p_exclusive t1 || p_exclusive t2 = true ->
                  inside b = false))
        /\ (forall b' w'',
              thread_step t2 b w' = Some (Running (p_pid t2), b', w'') ->
              b = Inside 3
              /\ In ((p_pid t2, 3), ["sub"%string; "a.txt"%string], p_exclusive t2) (w_locks w')
              /\ (p_exclusive t1 || p_exclusive t2 = true ->
                  inside a = false)))
  /\ (p_exclusive t1 || p_exclusive t2 = true ->
      forall tr1 tr2 s',
        run t1 t2 (w, init t1, init t2)
          (tr1 ++ Locking (p_pid t2) :: tr2) s' ->
        In (Locking (p_pid t1)) tr1 ->
        In (Running (p_pid t1)) tr1 /\ In (Unlocking (p_pid t1)) tr1)
  /\ (p_exclusive t1 = false -> p_exclusive t2 = false ->
      exists w',
        run t1 t2 (w, init t1, init t2)
          [Locking (p_pid t1); Locking (p_pid t2)]
          (w', Inside 3, Inside 3))
  /\ ((forall w1, p_body t1 3 w1 <> Timeout) ->
      (forall w1, p_body t2 3 w1 <> Timeout) ->
      exists s',
        run t1 t2 (w, init t1, init t2)
          [Locking (p_pid t1); Running (p_pid t1); Unlocking (p_pid t1);
           Locking (p_pid t2); Running (p_pid t2); Unlocking (p_pid t2)] s').
Proof.
  intros t1 t2 w.
  apply (fd_lock_serializes t1 t2 3 3 ["sub"%string; "a.txt"%string] w).
  - discriminate.
  - reflexivity.
  - reflexivity.
  - reflexivity.
  - reflexivity.
  - reflexivity.
  - intros fd w0. simpl. auto.
  - intros fd w0. simpl. auto.
Defined.

(** ** Claim about the lock on the script directory *)

(** C6.  When the script directory does not exist, [copy_test_script_files]
    returns the empty record and changes nothing.  When it exists, the call
    is the run of the with-blocks [fd_open] and [fd_lock] around the copy,
    step after step: it waits while another descriptor holds an exclusive
    lock on the directory; otherwise the copy runs in a world where a
    descriptor of this process is open on the directory and holds a shared
    lock on it, and however the copy ends, by a return or by an exception,
    the call ends the same way with the lock released and the descriptor
    closed.  Side by side with any other process that locks the directory:
    the copy runs only after the lock is taken and before it is released;
    from the taking of the lock to its release the shared lock is in the
    lock table and a process that asks for an exclusive lock is not inside
    (its body does not run); and once the call is over, on every exit path,
    this process holds no lock and has no descriptor it did not have
    before. *)
Theorem copy_test_script_files_locks
  umask pid test_script_directory files_dirname fuel address assignment
  tests_path w :
  let dir := test_script_directory address assignment ++ [files_dirname] in
  let fd := fresh_fd pid (w_fds w) in
  let locked :=
    World (w_fs w) (((pid, fd), dir) :: w_fds w)
      (((pid, fd), dir, false) :: w_locks w) in
  let me := script_thread umask pid fuel dir tests_path in
  locks_open w = true ->
  (isdir (w_fs w) dir = false ->
   copy_test_script_files umask pid test_script_directory files_dirname
     fuel address assignment tests_path w = Ret [] w)
  /\ (isdir (w_fs w) dir = true ->
      conflicts (pid, fd) dir false (w_locks w) = false ->
      file_of (pid, fd) (w_fds locked) = Some dir
      /\ In ((pid, fd), dir, false) (w_locks locked)
      /\ stops_in (fun w' => w_fds w' = w_fds locked
                             /\ w_locks w' = w_locks locked)
           (zoom (copy_tree umask fuel dir tests_path []) locked)
      /\ copy_test_script_files umask pid test_script_directory
           files_dirname fuel address assignment tests_path w
         = match zoom (copy_tree umask fuel dir tests_path []) locked with
           | Ret copied w' =>
               Ret copied (World (w_fs w') (w_fds w) (w_locks w))
           | Exc e w' => Exc e (World (w_fs w') (w_fds w) (w_locks w))
           | Timeout => Timeout
           end)
  /\ (isdir (w_fs w) dir = true ->
      conflicts (pid, fd) dir false (w_locks w) = true ->
      copy_test_script_files umask pid test_script_directory files_dirname
        fuel address assignment tests_path w = Timeout)
  /\ (forall w0,
        isdir (w_fs w0) dir = true ->
        copy_test_script_files umask pid test_script_directory files_dirname
          fuel address assignment tests_path w0
        = exec 5 me (init me) w0)
  /\ (forall B (t2 : prog B),
        p_pid t2 <> pid -> target_file t2 w = Some dir ->
        foreign pid (w_locks w) -> foreign (p_pid t2) (w_locks w) ->
        (forall fd2, keeps_handles (p_body t2 fd2)) ->
        forall tr w' a b,
          run me t2 (w, init me, init t2) tr (w', a, b) ->
          (In (Running pid) tr -> In (Locking pid) tr)
          /\ (In (Unlocking pid) tr -> In (Running pid) tr)
          /\ (inside a = true ->
              In (Locking pid) tr /\ ~ In (Unlocking pid) tr
              /\ exists fd',
                   current_fd a = Some fd'
                   /\ file_of (pid, fd') (w_fds w') = Some dir
                   /\ In ((pid, fd'), dir, false) (w_locks w')
                   /\ (p_exclusive t2 = true -> inside b = false))
          /\ (forall a' w'',
                thread_step me a w' = Some (Running pid, a', w'') ->
                inside a = true)
          /\ (forall b' w'',
                p_exclusive t2 = true ->
                thread_step t2 b w' = Some (Running (p_pid t2), b', w'') ->
                inside a = false)
          /\ (forall r,
                a = Finished r ->
                (In (Locking pid) tr -> In (Unlocking pid) tr)
                /\ (forall l, In l (w_locks w') -> fst (fst (fst l)) <> pid)
                /\ (forall fd' p,
                      file_of (pid, fd') (w_fds w') = Some p ->
                      file_of (pid, fd') (w_fds w) = Some p))).
Proof.
  intros dir fd locked me Hopen.
  destruct (copy_test_script_files_brackets umask pid test_script_directory
              files_dirname fuel address assignment tests_path w Hopen)
    as [H1 H2].
  split; [exact H1|]. split; [exact H2|]. split; [|split].
  - (* the call waits *)
    intros Hd Hc. unfold copy_test_script_files. fold dir. rewrite Hd.
    assert (exists n, resolve (w_fs w) dir = Ok n) as [n Hn].
    { unfold isdir in Hd. destruct (resolve (w_fs w) dir); [eauto|discriminate]. }
    unfold fd_open, bind, os_open_call. rewrite Hn. fold fd.
    unfold finally, fd_lock, bind, fd_lock_enter, fcntl_flock.
    cbn [set_fds w_fds w_locks file_of]. rewrite handle_eqb_refl.
    cbn [flock]. now rewrite Hc.
  - (* the steps of the call *)
    intros w0 Hd. rewrite <- exec_with_block.
    unfold copy_test_script_files. fold dir. now rewrite Hd.
  - (* side by side with another process *)
    intros B t2 Hne Hs2 Hf1 Hf2 Hk2 tr w' a b Hrun.
    assert (forall fd1, keeps_handles (p_body me fd1)) as Hk1.
    { intros fd1 w1. apply zoom_keeps. }
    assert (p_pid me <> p_pid t2) as Hne' by (cbn [me script_thread p_pid]; auto).
    pose proof (run_consistent me t2 dir w Hne' eq_refl Hs2 Hf1 Hf2 Hk1 Hk2
                  tr (w', a, b) Hrun)
      as [[Hfd [Hleak [Hph _]]] [[Ufd [_ [_ Ust]]] [HL HX]]].
    change (p_pid me) with pid in *. change (p_exclusive me) with false in *.
    split; [|split; [|split; [|split; [|split]]]].
    + destruct a; cbn [phase_says] in Hph; tauto.
    + destruct a; cbn [phase_says] in Hph; tauto.
    + intros Hin. split; [|split].
      * destruct a; cbn [phase_says inside] in *; try discriminate; tauto.
      * destruct a; cbn [phase_says inside] in *; try discriminate; tauto.
      * destruct (holds_inside me dir a Hin) as [fd' [Hc Hh]].
        exists fd'. split; [exact Hc|]. split; [now apply Hfd|].
        split; [apply HL; auto|].
        intros He. destruct (inside b) eqn:Eb; [|reflexivity].
        elim HX; [now rewrite He | auto].
    + intros a' w'' Hs. destruct (running_inside me a w' a' w'' Hs) as [f ->].
      reflexivity.
    + intros b' w'' He Hs.
      destruct (running_inside t2 b w' b' w'' Hs) as [f ->].
      destruct (inside a) eqn:Ea; [|reflexivity].
      elim HX; [now rewrite He | auto].
    + intros r ->. cbn [phase_says] in Hph. split; [tauto|]. split.
      * intros l Hin E. apply HL in Hin. destruct Hin as [K|[[]|K]].
        -- now apply (Hf1 l K).
        -- apply holds_pid in K. destruct K as [K _]. congruence.
      * intros fd' p Hp. destruct (Hleak fd' p Hp) as [K|[K _]];
          [exact K | discriminate K].
Qed.

Lemma copy_test_script_files_locks_witness :
  let umask := 18%Z in
  let pid := 7 in
  let test_script_directory :=
    fun (_ : string) (_ : Z) => ["scripts"%string] in
  let files_dirname := "files"%string in
  let fuel := 3 in
  let address := "markus"%string in
  let assignment := 1%Z in
  let tests_path := ["tmp"%string; "w"%string] in
  let w := World graded_fs [] [] in
  let dir := test_script_directory address assignment ++ [files_dirname] in
  let fd := fresh_fd pid (w_fds w) in
  let locked :=
    World (w_fs w) (((pid, fd), dir) :: w_fds w)
      (((pid, fd), dir, false) :: w_locks w) in
  let me := script_thread umask pid fuel dir tests_path in
  (isdir (w_fs w) dir = false ->
   copy_test_script_files umask pid test_script_directory files_dirname
     fuel address assignment tests_path w = Ret [] w)
  /\ (isdir (w_fs w) dir = true ->
      conflicts (pid, fd) dir false (w_locks w) = false ->
      file_of (pid, fd) (w_fds locked) = Some dir
      /\ In ((pid, fd), dir, false) (w_locks locked)
      /\ stops_in (fun w' => w_fds w' = w_fds locked
                             /\ w_locks w' = w_locks locked)
           (zoom (copy_tree umask fuel dir tests_path []) locked)
      /\ copy_test_script_files umask pid test_script_directory
           files_dirname fuel address assignment tests_path w
         = match zoom (copy_tree umask fuel dir tests_path []) locked with
           | Ret copied w' =>
               Ret copied (World (w_fs w') (w_fds w) (w_locks w))
           | Exc e w' => Exc e (World (w_fs w') (w_fds w) (w_locks w))
           | Timeout => Timeout
           end)
  /\ (isdir (w_fs w) dir = true ->
      conflicts (pid, fd) dir false (w_locks w) = true ->
      copy_test_script_files umask pid test_script_directory files_dirname
        fuel address assignment tests_path w = Timeout)
  /\ (forall w0,
        isdir (w_fs w0) dir = true ->
        copy_test_script_files umask pid test_script_directory files_dirname
          fuel address assignment tests_path w0
        = exec 5 me (init me) w0)
  /\ (forall B (t2 : prog B),
        p_pid t2 <> pid -> target_file t2 w = Some dir ->
        foreign pid (w_locks w) -> foreign (p_pid t2) (w_locks w) ->
        (forall fd2, keeps_handles (p_body t2 fd2)) ->
        forall tr w' a b,
          run me t2 (w, init me, init t2) tr (w', a, b) ->
          (In (Running pid) tr -> In (Locking pid) tr)
          /\ (In (Unlocking pid) tr -> In (Running pid) tr)
          /\ (inside a = true ->
              In (Locking pid) tr /\ ~ In (Unlocking pid) tr
              /\ exists fd',
                   current_fd a = Some fd'
                   /\ file_of (pid, fd') (w_fds w') = Some dir
                   /\ In ((pid, fd'), dir, false) (w_locks w')
                   /\ (p_exclusive t2 = true -> inside b = false))
          /\ (forall a' w'',
                thread_step me a w' = Some (Running pid, a', w'') ->
                inside a = true)
          /\ (forall b' w'',
                p_exclusive t2 = true ->
                thread_step t2 b w' = Some (Running (p_pid t2), b', w'') ->
                inside a = false)
          /\ (forall r,
                a = Finished r ->
                (In (Locking pid) tr -> In (Unlocking pid) tr)
                /\ (forall l, In l (w_locks w') -> fst (fst (fst l)) <> pid)
                /\ (forall fd' p,
                      file_of (pid, fd') (w_fds w') = Some p ->
                      file_of (pid, fd') (w_fds w) = Some p))).
Proof.
  intros umask pid test_script_directory files_dirname fuel address
    assignment tests_path w.
  apply (copy_test_script_files_locks umask pid test_script_directory
           files_dirname fuel address assignment tests_path w).
  reflexivity.
Defined.
